(** * uidstress: external-memory uniqueness check of identifier schemes

    A shallow embedding of package [uidstress] (chunked generation, local
    sort and dedup, persisted chunks with content hashes, manifest,
    verification gate and k-way merge) together with the properties the
    specification states about it.

    Conventions.
    - A Go [string] is a byte sequence compared bytewise; it is modelled
      by [string] (a list of 8-bit [ascii]) with [String.compare].
    - Go's [int64] is modelled by [Z] with the wrap-around written out
      ([wrap64]).
    - A slice that is updated in place is a list updated by index.
    - Storage, the generator, the cancellation signal, the memory and
      disk probes are external: they live in a [World] that is threaded
      through every effectful function, and in an [Env] of oracles. *)

From Stdlib Require Import ZArith Ascii String List Sorting.Sorted Permutation Lia Bool.
From Stdlib Require Import Floats.SpecFloat DecimalString.
From Stdlib Require DecimalN DecimalFacts.
From stdpp Require Import base option list gmap strings.

Local Open Scope Z_scope.

(** ** Strings as Go compares them *)

Module GoString.

Definition lt (a b : string) : Prop := String.ltb a b = true.
Definition le (a b : string) : Prop := String.leb a b = true.

End GoString.

(** ** [dedupeSorted]

    The source compacts the slice in place with a read index [i] and a
    write index [writeIdx], and returns the prefix [values[:writeIdx]].
    [dedupeScan n i values writeIdx prev] is the loop with [n] iterations
    left; the slice is read at [i] after the earlier writes, as in the
    source.  An index out of range cannot occur ([i < len(values)] is the
    loop condition); the model stops there. *)

Fixpoint dedupeScan (n i : nat) (values : list string) (writeIdx : nat)
    (prev : string) : list string * nat :=
  match n with
  | O => (values, writeIdx)
  | S n' =>
      match values !! i with
      | None => (values, writeIdx)
      | Some v =>
          if String.eqb v prev
          then dedupeScan n' (S i) values writeIdx prev
          else dedupeScan n' (S i) (<[writeIdx := v]> values) (S writeIdx) v
      end
  end.

Definition dedupeSorted (values : list string) : list string :=
  match values with
  | [] => []
  | v0 :: _ =>
      let '(values', writeIdx) :=
        dedupeScan (length values - 1) 1 values 1 v0 in
      take writeIdx values'
  end.

(** The same function on lists, without the indices. *)
Fixpoint compact (prev : string) (l : list string) : list string :=
  match l with
  | [] => []
  | v :: l' => if String.eqb v prev then compact prev l' else v :: compact v l'
  end.

Definition dedupeList (l : list string) : list string :=
  match l with
  | [] => []
  | v0 :: l' => v0 :: compact v0 l'
  end.

(** Non-decreasing order and absence of adjacent equal records. *)
Definition sortedStrings (l : list string) : Prop := Sorted GoString.le l.

Fixpoint adjacentDistinct (l : list string) : Prop :=
  match l with
  | a :: (b :: _) as l' => a <> b /\ adjacentDistinct l'
  | _ => True
  end.


(** ** Machine numbers *)

(** [int64] with Go's two's-complement wrap-around. *)
Definition wrap64 (z : Z) : Z := (z + 2 ^ 63) mod 2 ^ 64 - 2 ^ 63.
Definition add64 (a b : Z) : Z := wrap64 (a + b).
Definition sub64 (a b : Z) : Z := wrap64 (a - b).
Definition mul64 (a b : Z) : Z := wrap64 (a * b).
Definition isInt64 (z : Z) : Prop := - 2 ^ 63 <= z < 2 ^ 63.
Definition isUint64 (z : Z) : Prop := 0 <= z < 2 ^ 64.

(** [math.MaxInt] on a 64-bit platform. *)
Definition maxInt : Z := 2 ^ 63 - 1.

Definition minInt64 (a b : Z) : Z := if a <? b then a else b.

(** [float64] is IEEE 754 binary64 with round-to-nearest-even, as
    specified by the standard library's [spec_float]. *)
Module F64.
Definition t : Type := spec_float.
Definition prec : Z := 53.
Definition emax : Z := 1024.
Definition zero : t := S754_zero false.
(** conversion of an integer, [float64(n)] *)
Definition ofZ (z : Z) : t := binary_normalize prec emax z 0 false.
Definition add : t -> t -> t := SFadd prec emax.
Definition mul : t -> t -> t := SFmul prec emax.
Definition div : t -> t -> t := SFdiv prec emax.
Definition ltb : t -> t -> bool := SFltb.
Definition leb : t -> t -> bool := SFleb.
Definition eqb : t -> t -> bool := SFeqb.
(** neither a negative number nor a NaN compares below zero *)
Definition notNegative (x : t) : Prop :=
  match x with
  | S754_infinity s | S754_finite s _ _ => s = false
  | _ => True
  end.
Definition notPositive (x : t) : Prop :=
  match x with
  | S754_infinity s | S754_finite s _ _ => s = true
  | _ => True
  end.
(** the sign bit [s] is no lie about [x] *)
Definition hasSign (s : bool) (x : t) : Prop :=
  if s then notPositive x else notNegative x.
End F64.

(** ** Data model *)

Definition defaultApproxBytesPerID : Z := 64.

Record Config := {
  Schemes : list string;
  Scale : Z;
  ChunkSize : Z;
  Workers : Z;
  TempDir : string;
  KeepTempData : bool;
  LogInterval : Z;
  Verbose : bool;
  ApproxBytesPerID : Z;
  MemGuardMB : F64.t;
  DiskSafetyFactor : F64.t
}.

(** [Duration] and the [CreatedAt] time stamps are wall-clock readings
    that no computation of the package consumes; they are left out. *)
Record Result := {
  Scheme : string;
  Chunks : Z;
  Generated : Z;
  ChunkUnique : Z;
  Unique : Z;
  Duplicates : Z;
  ManifestPath : string;
  OutputDir : string
}.

Record chunkMeta := {
  Index : Z;
  Path : string;
  UniqueCount : Z;
  OriginalCount : Z;
  Hash : string;
  SizeBytes : Z
}.

Record manifest := {
  manScheme : string;
  manScale : Z;
  manChunkSize : Z;
  manApproxBytesPerID : Z;
  manChunks : list chunkMeta
}.

(** The four generator capabilities [generatorFor] can hand out. *)
Inductive Generator := GenNanoID16 | GenULID | GenKSUID | GenCustomUID.

(** The errors of the package, one constructor per [return ..., err]. *)
Inductive error :=
  | ErrScale                                  (* scale must be > 0 *)
  | ErrUnknownScheme (name : string)
  | ErrCanceled                               (* ctx.Err() *)
  | ErrGetwd
  | ErrMkdirTmp
  | ErrMkdirTemp
  | ErrReadDisk
  | ErrInsufficientDisk (path : string)
  | ErrReadMemory
  | ErrInsufficientMemory (chunkTarget : Z)
  | ErrChunkTooLarge (chunkTarget : Z)
  | ErrChunkHashMismatch (mem file : string)
  | ErrIO (op path : string)                  (* an error of package os, io or bufio *)
  | ErrNotExist (path : string)
  | ErrTooLong                                (* bufio.ErrTooLong *)
  | ErrHashChunk (path : string) (cause : error)
  | ErrVerifyMismatch (path expected got : string)
  | ErrNoChunks                               (* manifest contains no chunks *)
  | ErrAllChunksEmpty
  | ErrInconsistent (chunkUniqueSum unique duplicates : Z).

(** What a call can end in: a value, a returned error, a run-time panic,
    or a loop that is still running when the fuel of the model is spent. *)
Inductive outcome (A : Type) :=
  | Ok (a : A)
  | Err (e : error)
  | Panic
  | OutOfFuel.
Arguments Ok {A} a.
Arguments Err {A} e.
Arguments Panic {A}.
Arguments OutOfFuel {A}.

(** ** The world outside the package *)

(** What the package does to its surroundings, newest event first. *)
Inductive Event :=
  | EvPoll (done : bool)                       (* select on ctx.Done() *)
  | EvMkdirAll (dir : string)
  | EvMkdirTemp (dir : string)
  | EvRemoveAll (dir : string)
  | EvDiskUsage (path : string)
  | EvVirtualMemory
  | EvGenerate (id : string)                   (* one call of the generator *)
  | EvCreate (path : string) (fd : nat)
  | EvOpen (path : string) (fd : nat)
  | EvClose (fd : nat)
  | EvWriteFile (path : string)
  | EvRename (src dst : string)
  | EvMergeBegin                               (* mergeChunks is entered *)
  | EvPop (value : string)                     (* heap.Pop in the merge loop *)
  | EvPrint.                                   (* fmt.Printf *)

Record World := {
  files : gmap string string;    (* storage: path to bytes *)
  openFds : gset nat;            (* file handles that are open *)
  nextFd : nat;
  clock : nat;                   (* number of interactions so far *)
  genCalls : nat;                (* number of identifiers generated so far *)
  trace : list Event
}.

(** A cursor over one persisted chunk.  [file] is the handle, [scanner]
    the bytes the [bufio.Scanner] has not yet consumed. *)
Record chunkReader := {
  meta : chunkMeta;
  file : nat;
  scanner : string;
  value : string;
  eof : bool
}.

(** A heap entry points to its reader: [entryReader] is the position of
    the reader in the slice [readers] of [mergeChunks]. *)
Record heapEntry := {
  entryValue : string;
  entryReader : nat
}.

(** [container/heap] over [mergeHeap], whose [Less] compares the entry
    values with [<].  The library is not part of the package; the merge
    is written against its three operations. *)
Record HeapImpl := {
  heap_init : list heapEntry -> list heapEntry;
  heap_pop : list heapEntry -> option (heapEntry * list heapEntry);
  heap_push : list heapEntry -> heapEntry -> list heapEntry
}.

(** Collaborators and libraries.  A generator is asked for its n-th
    identifier; every other oracle is indexed by the [clock] of the world
    at the moment it is consulted. *)
Record Env := {
  gen_next : Generator -> nat -> string;     (* the identifier a generator returns *)
  io_fault : nat -> bool;                    (* does this storage operation fail *)
  disturb : nat -> gmap string string -> gmap string string;
                                             (* what happens to storage meanwhile *)
  ctx_done : nat -> bool;                    (* is ctx.Done() closed *)
  mem_available : nat -> option Z;           (* mem.VirtualMemory().Available *)
  disk_free : nat -> option Z;               (* disk.Usage(path).Free *)
  getwd : nat -> option string;              (* os.Getwd *)
  temp_suffix : nat -> string;               (* the random part of os.MkdirTemp *)
  osTempDir : string;                        (* os.TempDir *)
  removed_anyway : nat -> string -> bool;    (* what a failing os.RemoveAll removed *)
  numCPU : Z;                                (* runtime.NumCPU *)
  sha256 : string -> string;                 (* crypto/sha256 *)
  toLower : string -> string;                (* strings.ToLower *)
  filepathDir : string -> string;            (* filepath.Dir *)
  jsonMarshal : manifest -> option string;   (* json.MarshalIndent *)
  heapImpl : HeapImpl                        (* container/heap *)
}.

(** ** Effectful code: state passing with errors *)

Definition M (A : Type) : Type := World -> outcome A * World.

Definition ret {A} (a : A) : M A := fun w => (Ok a, w).
Definition fail {A} (e : error) : M A := fun w => (Err e, w).

Definition bind {A B} (c : M A) (k : A -> M B) : M B :=
  fun w =>
    match c w with
    | (Ok a, w') => k a w'
    | (Err e, w') => (Err e, w')
    | (Panic, w') => (Panic, w')
    | (OutOfFuel, w') => (OutOfFuel, w')
    end.

Notation "'let*' p ':=' c 'in' k" := (bind c (fun p => k))
  (at level 10, p pattern, c at level 100, k at level 200).
Notation "c ';;' k" := (bind c (fun _ => k))
  (at level 100, k at level 200, right associativity).

(** [defer f]: [f] runs when the body returns, whatever it returns. *)
Definition defer {A} (cleanup : World -> World) (body : M A) : M A :=
  fun w => let '(r, w') := body w in (r, cleanup w').

Definition setFiles (f : gmap string string) (w : World) : World :=
  {| files := f; openFds := openFds w; nextFd := nextFd w;
     clock := clock w; genCalls := genCalls w; trace := trace w |}.

Definition emit (ev : Event) (w : World) : World :=
  {| files := files w; openFds := openFds w; nextFd := nextFd w;
     clock := clock w; genCalls := genCalls w; trace := ev :: trace w |}.

(** One interaction with the outside: time passes, storage may change. *)
Definition tick (env : Env) (w : World) : World :=
  {| files := disturb env (clock w) (files w); openFds := openFds w;
     nextFd := nextFd w; clock := S (clock w); genCalls := genCalls w;
     trace := trace w |}.

Definition countGen (w : World) : World :=
  {| files := files w; openFds := openFds w; nextFd := nextFd w;
     clock := clock w; genCalls := S (genCalls w); trace := trace w |}.

Definition allocFd (w : World) : nat * World :=
  (nextFd w,
   {| files := files w; openFds := {[nextFd w]} ∪ openFds w;
      nextFd := S (nextFd w); clock := clock w; genCalls := genCalls w; trace := trace w |}).

Definition releaseFd (fd : nat) (w : World) : World :=
  {| files := files w; openFds := openFds w ∖ {[fd]};
     nextFd := nextFd w; clock := clock w; genCalls := genCalls w; trace := trace w |}.

(** ** Paths *)

Definition isSlash (c : ascii) : bool := Ascii.eqb c "/".

Fixpoint hasSlash (s : string) : bool :=
  match s with
  | EmptyString => false
  | String c rest => isSlash c || hasSlash rest
  end.

(** [strings.Split(s, "/")]: the elements between the separators *)
Fixpoint splitSlash (s : string) : list string :=
  match s with
  | EmptyString => [EmptyString]
  | String c rest =>
      if isSlash c then EmptyString :: splitSlash rest
      else match splitSlash rest with
           | e :: es => String c e :: es
           | [] => [String c EmptyString]
           end
  end.

(** [strings.Join(elems, "/")] *)
Fixpoint joinSlash (elems : list string) : string :=
  match elems with
  | [] => ""
  | e :: es =>
      match es with
      | [] => e
      | _ :: _ => e +:+ "/" +:+ joinSlash es
      end
  end.

Definition isRooted (path : string) : bool :=
  match path with
  | String c _ => isSlash c
  | EmptyString => false
  end.

(** What [filepath.Clean] does on meeting one path element, with the
    elements kept so far (the last one first): an empty element and "."
    are dropped, ".." takes the last name away, or is kept where there
    is none to take and the path is not rooted. *)
Definition cleanStep (rooted : bool) (kept : list string) (elem : string)
    : list string :=
  if String.eqb elem "" || String.eqb elem "." then kept
  else if String.eqb elem ".." then
    match kept with
    | top :: below => if String.eqb top ".." then elem :: kept else below
    | [] => if rooted then [] else [elem]
    end
  else elem :: kept.

Definition cleanElems (path : string) : list string :=
  rev (fold_left (cleanStep (isRooted path)) (splitSlash path) []).

(** [filepath.Clean] on a Unix path, by path elements *)
Definition clean (path : string) : string :=
  let body := joinSlash (cleanElems path) in
  if isRooted path then "/" +:+ body
  else if String.eqb body "" then "." else body.

(** [filepath.Join(dir, name)]: empty elements are ignored and the rest,
    joined by the separator, is cleaned *)
Definition pathJoin (dir name : string) : string :=
  if negb (String.eqb dir "") then clean (dir +:+ "/" +:+ name)
  else if negb (String.eqb name "") then clean name
  else "".


(** the parts of a pattern before and after its last "*", if it has one *)
Fixpoint splitLastStar (s : string) : option (string * string) :=
  match s with
  | EmptyString => None
  | String c rest =>
      match splitLastStar rest with
      | Some (p, q) => Some (String c p, q)
      | None => if Ascii.eqb c "*" then Some (EmptyString, rest) else None
      end
  end.

(** [prefixAndSuffix] of package os, for a pattern without separator *)
Definition prefixAndSuffix (pattern : string) : string * string :=
  match splitLastStar pattern with
  | Some pq => pq
  | None => (pattern, EmptyString)
  end.

Fixpoint endsWithSlash (s : string) : bool :=
  match s with
  | EmptyString => false
  | String c rest =>
      match rest with
      | EmptyString => isSlash c
      | String _ _ => endsWithSlash rest
      end
  end.

(** [joinPath] of package os *)
Definition joinPath (dir name : string) : string :=
  if endsWithSlash dir then dir +:+ name else dir +:+ "/" +:+ name.

Fixpoint endsSlashDot (s : string) : bool :=
  match s with
  | EmptyString => false
  | String c rest =>
      match rest with
      | String d EmptyString => (isSlash c && Ascii.eqb d ".") || endsSlashDot rest
      | _ => endsSlashDot rest
      end
  end.

(** [endsWithDot] of package os: the path is "." or ends in "/." *)
Definition endsWithDot (path : string) : bool :=
  String.eqb path "." || endsSlashDot path.

(** a file name: an element that [filepath.Clean] keeps as it is *)
Definition properName (a : string) : Prop :=
  a <> ""%string /\ a <> "."%string /\ a <> ".."%string /\ hasSlash a = false.

Fixpoint underElems (d k : list string) : bool :=
  match d, k with
  | [], [] => true
  | [], e :: _ => negb (String.eqb e "..")
  | x :: d', y :: k' => String.eqb x y && underElems d' k'
  | _ :: _, [] => false
  end.

(** [path] names the directory [dir] or something below it *)
Definition underDir (dir path : string) : bool :=
  Bool.eqb (isRooted dir) (isRooted path)
  && underElems (cleanElems dir) (cleanElems path).

(** the elements [filepath.Clean] keeps, the last one first: names, above
    a block of ".." that only an unrooted path has *)
Definition normalKept (rooted : bool) (kept : list string) : Prop :=
  exists n tops,
    kept = tops ++ replicate n ".."%string
    /\ Forall properName tops
    /\ (rooted = true -> n = 0%nat).

Section Primitives.
Variable env : Env.

(** a storage operation that may fail *)
Definition io (op path : string) : M unit :=
  fun w =>
    if io_fault env (clock w)
    then (Err (ErrIO op path), tick env w)
    else (Ok tt, tick env w).

(** [select { case <-ctx.Done(): ...; default: }] *)
Definition ctxPoll : M bool :=
  fun w =>
    let d := ctx_done env (clock w) in
    (Ok d, emit (EvPoll d) (tick env w)).

(** one call [gen()] *)
Definition generate (g : Generator) : M string :=
  fun w =>
    let id := gen_next env g (genCalls w) in
    (Ok id, emit (EvGenerate id) (countGen (tick env w))).

Definition osGetwd : M string :=
  fun w =>
    match getwd env (clock w) with
    | Some d => (Ok d, tick env w)
    | None => (Err ErrGetwd, tick env w)
    end.

Definition osMkdirAll (dir : string) : M unit :=
  io "mkdir" dir ;; fun w => (Ok tt, emit (EvMkdirAll dir) w).

(** [os.MkdirTemp]: a pattern with a separator is refused; the random
    string replaces the last "*" of the pattern or follows the pattern;
    an empty [base] stands for [os.TempDir()].  The random name is taken
    to be a new one. *)
Definition osMkdirTemp (base pattern : string) : M string :=
  fun w =>
    let dir := if String.eqb base "" then osTempDir env else base in
    if hasSlash pattern then (Err (ErrIO "mkdirtemp" pattern), w)
    else
      let '(prefix, suffix) := prefixAndSuffix pattern in
      let name := joinPath dir prefix +:+ temp_suffix env (clock w) +:+ suffix in
      (io "mkdirtemp" base ;; fun w' => (Ok name, emit (EvMkdirTemp name) w')) w.

(** [os.RemoveAll], whose error the caller drops.  It does nothing for
    the empty path and refuses a path that ends in ".".  Otherwise it
    removes what is at or below the path; it may fail like every storage
    operation, and then it has removed some of these files, as the
    environment has it, and left the others. *)
Definition osRemoveAll (dir : string) (w : World) : World :=
  let w1 := tick env w in
  emit (EvRemoveAll dir)
    (if String.eqb dir "" || endsWithDot dir then w1
     else
       let gone (path : string) : bool :=
         underDir dir path
         && (negb (io_fault env (clock w)) || removed_anyway env (clock w) path) in
       setFiles
         (filter (fun kv : string * string => gone kv.1 = false) (files w1)) w1).

Definition osCreate (path : string) : M nat :=
  io "create" path ;;
  fun w =>
    let '(fd, w1) := allocFd w in
    (Ok fd, emit (EvCreate path fd) (setFiles (<[path := ""%string]> (files w1)) w1)).

(** [os.Open]: the handle reads the bytes the file holds now *)
Definition osOpen (path : string) : M (nat * string) :=
  io "open" path ;;
  fun w =>
    match files w !! path with
    | None => (Err (ErrNotExist path), w)
    | Some content =>
        let '(fd, w1) := allocFd w in
        (Ok (fd, content), emit (EvOpen path fd) w1)
    end.

Definition fileClose (fd : nat) (w : World) : World :=
  emit (EvClose fd) (releaseFd fd w).

(** bytes appended to a file that is open for writing *)
Definition fileWrite (path bytes : string) : M unit :=
  io "write" path ;;
  fun w =>
    (Ok tt,
     setFiles (<[path := default ""%string (files w !! path) +:+ bytes]> (files w)) w).

Definition osStat (path : string) : M Z :=
  io "stat" path ;;
  fun w =>
    match files w !! path with
    | None => (Err (ErrNotExist path), w)
    | Some content => (Ok (Z.of_nat (String.length content)), w)
    end.

Definition osWriteFile (path data : string) : M unit :=
  io "writefile" path ;;
  fun w => (Ok tt, emit (EvWriteFile path) (setFiles (<[path := data]> (files w)) w)).

Definition osRename (src dst : string) : M unit :=
  io "rename" src ;;
  fun w =>
    match files w !! src with
    | None => (Err (ErrNotExist src), w)
    | Some content =>
        (Ok tt, emit (EvRename src dst)
                  (setFiles (<[dst := content]> (delete src (files w))) w))
    end.

Definition diskUsage (path : string) : M Z :=
  fun w =>
    match disk_free env (clock w) with
    | Some free => (Ok free, emit (EvDiskUsage path) (tick env w))
    | None => (Err ErrReadDisk, emit (EvDiskUsage path) (tick env w))
    end.

Definition virtualMemory : M Z :=
  fun w =>
    match mem_available env (clock w) with
    | Some avail => (Ok avail, emit EvVirtualMemory (tick env w))
    | None => (Err ErrReadMemory, emit EvVirtualMemory (tick env w))
    end.

Definition printf : M unit := fun w => (Ok tt, emit EvPrint w).

End Primitives.

(** ** Hashing and persistence *)

Definition hexDigit (n : N) : ascii :=
  ascii_of_N (if (n <? 10)%N then 48 + n else 87 + n).

(** [hex.EncodeToString] *)
Fixpoint hexEncode (bytes : string) : string :=
  match bytes with
  | EmptyString => EmptyString
  | String c rest =>
      String (hexDigit (N_of_ascii c / 16))
        (String (hexDigit (N_of_ascii c mod 16)) (hexEncode rest))
  end.

Definition newline : string := String (ascii_of_N 10) EmptyString.

(** A [hash.Hash] is the byte sequence written to it so far; [Sum]
    applies the hash function to it. *)
Definition hashWrite (h bytes : string) : string := h +:+ bytes.

Section Persistence.
Variable env : Env.

Definition hashSum (h : string) : string := sha256 env h.

Definition hashStrings (values : list string) : string :=
  let h := fold_left (fun h v => hashWrite (hashWrite h v) newline) values ""%string in
  hexEncode (hashSum h).

(** The writes of the loop of [writeChunkFile].  The [bufio.Writer] is
    transparent: the bytes reach the file in the order written. *)
Fixpoint writeValues (path : string) (values : list string) : M unit :=
  match values with
  | [] => ret tt
  | v :: rest =>
      fileWrite env path v ;;
      fileWrite env path newline ;;
      writeValues path rest
  end.

Definition writeChunkFile (path : string) (values : list string) : M unit :=
  osMkdirAll env (filepathDir env path) ;;
  let* f := osCreate env path in
  defer (fileClose f)
    (writeValues path values ;;
     io env "flush" path ;;
     io env "sync" path ;;
     ret tt).

Definition hashFile (path : string) : M string :=
  let* (f, content) := osOpen env path in
  defer (fileClose f)
    (io env "read" path ;;
     ret (hexEncode (hashSum (hashWrite ""%string content)))).

Definition saveManifest (dir : string) (man : manifest) : M unit :=
  match jsonMarshal env man with
  | None => fail (ErrIO "marshal" dir)
  | Some data =>
      let tmp := pathJoin dir "manifest.json.tmp" in
      osWriteFile env tmp data ;;
      osRename env tmp (pathJoin dir "manifest.json") ;;
      osWriteFile env (pathJoin dir "manifest.json.sha256")
        (hexEncode (sha256 env data))
  end.

Fixpoint verifyChunkList (chunks : list chunkMeta) : M unit :=
  match chunks with
  | [] => ret tt
  | ch :: rest =>
      fun w =>
        match hashFile (Path ch) w with
        | (Ok hash, w1) =>
            if String.eqb hash (Hash ch)
            then verifyChunkList rest w1
            else (Err (ErrVerifyMismatch (Path ch) (Hash ch) hash), w1)
        | (Err e, w1) => (Err (ErrHashChunk (Path ch) e), w1)
        | (Panic, w1) => (Panic, w1)
        | (OutOfFuel, w1) => (OutOfFuel, w1)
        end
  end.

Definition verifyChunks (man : manifest) : M unit :=
  verifyChunkList (manChunks man).

End Persistence.

(** ** Cursors: [bufio.Scanner] over a chunk file *)

(** The scanner is set up with [sc.Buffer(buf, 1024*1024)]: a line that
    does not fit the buffer ends the scan with [bufio.ErrTooLong]. *)
Definition maxTokenSize : N := 1024 * 1024.

(** the bytes before the first line feed, and what follows it *)
Fixpoint splitLine (s : string) : string * option string :=
  match s with
  | EmptyString => (EmptyString, None)
  | String c rest =>
      if Ascii.eqb c (ascii_of_N 10) then (EmptyString, Some rest)
      else let '(line, r) := splitLine rest in (String c line, r)
  end.

(** [bufio.ScanLines] drops one trailing carriage return *)
Fixpoint dropCR (line : string) : string :=
  match line with
  | EmptyString => EmptyString
  | String c EmptyString =>
      if Ascii.eqb c (ascii_of_N 13) then EmptyString else line
  | String c rest => String c (dropCR rest)
  end.

Inductive scanStep :=
  | ScanToken (token rest : string)      (* Scan() = true, Text() = token *)
  | ScanEOF                              (* Scan() = false, Err() = nil *)
  | ScanError (e : error).               (* Scan() = false, Err() = e *)

Definition scanLine (s : string) : scanStep :=
  match s with
  | EmptyString => ScanEOF
  | _ =>
      let '(line, rest) := splitLine s in
      if (maxTokenSize <=? N.of_nat (String.length line))%N
      then ScanError ErrTooLong
      else ScanToken (dropCR line) (default EmptyString rest)
  end.

Definition setReader (c : chunkReader) (s v : string) (e : bool) : chunkReader :=
  {| meta := meta c; file := file c; scanner := s; value := v; eof := e |}.

Section Merge.
Variable env : Env.

(** [advance] updates the reader it is called on; the model returns
    the updated reader. *)
Definition advance (c : chunkReader) : M chunkReader :=
  if eof c then ret c
  else
    io env "read" (Path (meta c)) ;;
    match scanLine (scanner c) with
    | ScanError e => fail e
    | ScanEOF => ret (setReader c (scanner c) ""%string true)
    | ScanToken token rest => ret (setReader c rest token (eof c))
    end.

Definition newChunkReader (m : chunkMeta) : M chunkReader :=
  let* (f, content) := osOpen env (Path m) in
  let cr := {| meta := m; file := f; scanner := content;
               value := ""%string; eof := false |} in
  fun w =>
    match advance cr w with
    | (Ok cr', w1) => (Ok cr', w1)
    | (Err e, w1) => (Err e, fileClose f w1)
    | (Panic, w1) => (Panic, w1)
    | (OutOfFuel, w1) => (OutOfFuel, w1)
    end.

(** [for _, r := range readers { r.close() }] *)
Definition closeAll (readers : list chunkReader) (w : World) : World :=
  fold_left (fun w r => fileClose (file r) w) readers w.

(** the loop that opens one reader per chunk and skips empty chunks *)
Fixpoint openReaders (chunks : list chunkMeta) (readers : list chunkReader)
    : M (list chunkReader) :=
  match chunks with
  | [] => ret readers
  | m :: rest =>
      fun w =>
        match newChunkReader m w with
        | (Ok cr, w1) =>
            if eof cr
            then openReaders rest readers (fileClose (file cr) w1)
            else openReaders rest (readers ++ [cr]) w1
        | (Err e, w1) => (Err e, closeAll readers w1)
        | (Panic, w1) => (Panic, w1)
        | (OutOfFuel, w1) => (OutOfFuel, w1)
        end
  end.

Definition entryOf (i : nat) (r : chunkReader) : heapEntry :=
  {| entryValue := value r; entryReader := i |}.

(** The merge loop [for len(h) > 0].  [fuel] bounds the iterations of
    the model. *)
Fixpoint mergeLoop (fuel : nat) (verbose : bool) (logInterval : Z)
    (h : list heapEntry) (readers : list chunkReader)
    (prevValue : string) (hasPrev : bool) (unique duplicates processed : Z)
    : M (Z * Z) :=
  match fuel with
  | O => fun w => (OutOfFuel, w)
  | S fuel' =>
      match h with
      | [] => ret (unique, duplicates)
      | _ :: _ =>
          let* done := ctxPoll env in
          if done : bool then fail ErrCanceled
          else
            match heap_pop (heapImpl env) h with
            | None => fun w => (Panic, w)
            | Some (entry, h1) =>
                (fun w => (Ok tt, emit (EvPop (entryValue entry)) w)) ;;
                let dup := hasPrev && String.eqb (entryValue entry) prevValue in
                let unique' := if dup then unique else add64 unique 1 in
                let duplicates' := if dup then add64 duplicates 1 else duplicates in
                let prevValue' := if dup then prevValue else entryValue entry in
                let hasPrev' := if dup then hasPrev else true in
                let processed' := add64 processed 1 in
                (if verbose && (0 <? logInterval)
                    && (Z.rem processed' logInterval =? 0)
                 then printf else ret tt) ;;
                match readers !! entryReader entry with
                | None => fun w => (Panic, w)
                | Some r =>
                    let* r' := advance r in
                    let readers' := <[entryReader entry := r']> readers in
                    let h2 :=
                      if eof r' then h1
                      else heap_push (heapImpl env) h1
                             (entryOf (entryReader entry) r') in
                    mergeLoop fuel' verbose logInterval h2 readers'
                      prevValue' hasPrev' unique' duplicates' processed'
                end
            end
      end
  end.

(** Every iteration consumes a heap entry or at least one byte of a
    chunk, which bounds the number of iterations. *)
Definition mergeFuel (readers : list chunkReader) : nat :=
  S (length readers + sum_list ((fun r => String.length (scanner r)) <$> readers)).

Definition mergeChunks (man : manifest) (verbose : bool) (logInterval : Z)
    : M (Z * Z) :=
  (fun w => (Ok tt, emit EvMergeBegin w)) ;;
  match manChunks man with
  | [] => fail ErrNoChunks
  | _ :: _ =>
      let* readers := openReaders (manChunks man) [] in
      match readers with
      | [] => fail ErrAllChunksEmpty
      | _ :: _ =>
          defer (closeAll readers)
            (let h := heap_init (heapImpl env) (imap entryOf readers) in
             mergeLoop (mergeFuel readers) verbose logInterval h readers
               ""%string false 0 0 0)
      end
  end.

End Merge.

(** ** Resource guards *)

Section Guards.
Variable env : Env.

Definition f1024 : F64.t := F64.ofZ 1024.

(** [float64(n) / 1024 / 1024] *)
Definition toMB (n : Z) : F64.t := F64.div (F64.div (F64.ofZ n) f1024) f1024.

Definition ensureMemory (cfg : Config) (chunkTarget : Z) : M unit :=
  let neededMB := toMB (mul64 chunkTarget (ApproxBytesPerID cfg)) in
  if F64.leb neededMB F64.zero && F64.leb (MemGuardMB cfg) F64.zero
  then ret tt
  else
    let* available := virtualMemory env in
    let availableMB := toMB available in
    let threshold := F64.add neededMB (MemGuardMB cfg) in
    let threshold := if F64.eqb threshold F64.zero then neededMB else threshold in
    if F64.ltb availableMB threshold
    then fail (ErrInsufficientMemory chunkTarget)
    else ret tt.

Definition ensureDisk (path : string) (estimatedBytes : Z) (safety : F64.t)
    : M unit :=
  let* free := diskUsage env path in
  let required := F64.mul (F64.ofZ estimatedBytes) safety in
  if F64.ltb (F64.ofZ free) required
  then fail (ErrInsufficientDisk path)
  else ret tt.

End Guards.

(** the threshold of [ensureMemory] as the code computes it, in MB *)
Definition memoryNeededMB (cfg : Config) (chunkTarget : Z) : F64.t :=
  F64.add (toMB (mul64 chunkTarget (ApproxBytesPerID cfg))) (MemGuardMB cfg).

(** ** The orchestrator *)

(** [sort.Strings]: the non-decreasing arrangement of the slice, computed
    here by insertion. *)
Fixpoint insertString (v : string) (l : list string) : list string :=
  match l with
  | [] => [v]
  | x :: l' => if String.leb v x then v :: l else x :: insertString v l'
  end.

Definition sortStrings (l : list string) : list string :=
  foldr insertString [] l.

(** [fmt.Sprintf("%05d", n)] for [n >= 0] *)
Definition fmt05d (n : Z) : string :=
  let digits := NilEmpty.string_of_uint (N.to_uint (Z.to_N n)) in
  let digits := if String.eqb digits ""%string then "0"%string else digits in
  string_of_list_ascii
    (repeat "0"%char (5 - String.length digits)) +:+ digits.

(** [fmt.Sprintf("%s-chunk-%05d.dat", scheme, chunkIndex)] *)
Definition chunkFileName (scheme : string) (chunkIndex : Z) : string :=
  scheme +:+ "-chunk-" +:+ fmt05d chunkIndex +:+ ".dat".

Section Orchestrator.
Variable env : Env.

Definition generatorFor (name : string) : outcome Generator :=
  let n := toLower env name in
  if String.eqb n "nanoid16" || String.eqb n "nanoid" then Ok GenNanoID16
  else if String.eqb n "ulid" then Ok GenULID
  else if String.eqb n "ksuid" then Ok GenKSUID
  else if String.eqb n "customuid" || String.eqb n "custom" then Ok GenCustomUID
  else Err (ErrUnknownScheme name).

(** [for int64(len(chunkIDs)) < chunkTarget { chunkIDs = append(chunkIDs, gen()) }]
    with [n] calls still to make *)
Fixpoint generateIDs (g : Generator) (n : nat) (chunkIDs : list string)
    : M (list string) :=
  match n with
  | O => ret chunkIDs
  | S n' =>
      let* id := generate env g in
      generateIDs g n' (chunkIDs ++ [id])
  end.

Definition appendChunk (man : manifest) (m : chunkMeta) : manifest :=
  {| manScheme := manScheme man; manScale := manScale man;
     manChunkSize := manChunkSize man;
     manApproxBytesPerID := manApproxBytesPerID man;
     manChunks := manChunks man ++ [m] |}.

(** The state of the chunk loop of [runScheme]. *)
Record loopState := {
  man : manifest;
  totalGenerated : Z;
  totalUniqueSum : Z;
  chunkIndex : Z
}.

(** The chunk loop [for totalGenerated < cfg.Scale] of [runScheme]
    (lines 167 to 228).  [fuel] bounds the iterations of the model. *)
Fixpoint chunkLoop (fuel : nat) (scheme : string) (cfg : Config)
    (gen : Generator) (tempDir : string) (st : loopState) : M loopState :=
  match fuel with
  | O => fun w => (OutOfFuel, w)
  | S fuel' =>
      if totalGenerated st <? Scale cfg then
        let* done := ctxPoll env in
        if done : bool then fail ErrCanceled
        else
          let chunkTarget :=
            minInt64 (ChunkSize cfg) (sub64 (Scale cfg) (totalGenerated st)) in
          ensureMemory env cfg chunkTarget ;;
          if chunkTarget >? maxInt then fail (ErrChunkTooLarge chunkTarget)
          else if chunkTarget <? 0 then (fun w => (Panic, w))   (* make: cap out of range *)
          else
            let* chunkIDs := generateIDs gen (Z.to_nat chunkTarget) [] in
            let unique := dedupeSorted (sortStrings chunkIDs) in
            let chunkHash := hashStrings env unique in
            let chunkPath := pathJoin tempDir (chunkFileName scheme (chunkIndex st)) in
            writeChunkFile env chunkPath unique ;;
            let* fileHash := hashFile env chunkPath in
            if negb (String.eqb fileHash chunkHash)
            then fail (ErrChunkHashMismatch chunkHash fileHash)
            else
              let* size := osStat env chunkPath in
              let m := {| Index := chunkIndex st; Path := chunkPath;
                          UniqueCount := Z.of_nat (length unique);
                          OriginalCount := chunkTarget;
                          Hash := chunkHash; SizeBytes := size |} in
              let man' := appendChunk (man st) m in
              saveManifest env tempDir man' ;;
              let totalGenerated' := add64 (totalGenerated st) chunkTarget in
              let totalUniqueSum' :=
                add64 (totalUniqueSum st) (Z.of_nat (length unique)) in
              (if Verbose cfg then
                 if LogInterval cfg =? 0 then (fun w => (Panic, w))  (* integer divide by zero *)
                 else if Z.rem totalGenerated' (LogInterval cfg) =? 0
                      then printf else ret tt
               else ret tt) ;;
              chunkLoop fuel' scheme cfg gen tempDir
                {| man := man'; totalGenerated := totalGenerated';
                   totalUniqueSum := totalUniqueSum';
                   chunkIndex := add64 (chunkIndex st) 1 |}
      else ret st
  end.

(** The tail of [runScheme] after the chunk loop (lines 230 to 253):
    the verification gate, the merge and the consistency check. *)
Definition verifyAndMerge (scheme : string) (cfg : Config) (tempDir : string)
    (st : loopState) : M Result :=
  verifyChunks env (man st) ;;
  let* (unique, duplicates) :=
    mergeChunks env (man st) (Verbose cfg) (LogInterval cfg) in
  if negb (totalUniqueSum st =? add64 unique duplicates)
  then fail (ErrInconsistent (totalUniqueSum st) unique duplicates)
  else
    ret {| Scheme := scheme;
           Chunks := Z.of_nat (length (manChunks (man st)));
           Generated := totalGenerated st;
           ChunkUnique := totalUniqueSum st;
           Unique := unique;
           Duplicates := duplicates;
           ManifestPath := pathJoin tempDir "manifest.json";
           OutputDir := tempDir |}.

Definition runScheme (fuel : nat) (scheme : string) (cfg : Config) : M Result :=
  match generatorFor scheme with
  | Err e => fail e
  | Panic => fun w => (Panic, w)
  | OutOfFuel => fun w => (OutOfFuel, w)
  | Ok gen =>
      let* baseDir :=
        (if String.eqb (TempDir cfg) ""%string then
           let* cwd := osGetwd env in
           let baseDir := pathJoin cwd "tmp" in
           osMkdirAll env baseDir ;;
           ret baseDir
         else ret (TempDir cfg)) in
      let* tempDir := osMkdirTemp env baseDir ("uidstress-" +:+ scheme +:+ "-") in
      defer (if KeepTempData cfg then id else osRemoveAll env tempDir)
        (let estimatedBytes := mul64 (Scale cfg) (ApproxBytesPerID cfg) in
         ensureDisk env tempDir estimatedBytes (DiskSafetyFactor cfg) ;;
         let man0 := {| manScheme := scheme; manScale := Scale cfg;
                        manChunkSize := ChunkSize cfg;
                        manApproxBytesPerID := ApproxBytesPerID cfg;
                        manChunks := [] |} in
         let* st := chunkLoop fuel scheme cfg gen tempDir
                      {| man := man0; totalGenerated := 0;
                         totalUniqueSum := 0; chunkIndex := 0 |} in
         verifyAndMerge scheme cfg tempDir st)
  end.

End Orchestrator.

(** ** [Run] *)

Definition defaultSchemes : list string :=
  ["nanoid16"; "ulid"; "ksuid"]%string.

(** the constant [1.25] *)
Definition f1_25 : F64.t := binary_normalize F64.prec F64.emax 5 (-2) false.

(** The defaults [Run] fills in once the scale is known to be positive. *)
Definition normalize (env : Env) (cfg : Config) : Config :=
  {| Schemes := Schemes cfg;
     Scale := Scale cfg;
     ChunkSize :=
       if (ChunkSize cfg <=? 0) || (ChunkSize cfg >? Scale cfg)
       then minInt64 (Scale cfg) 1000000 else ChunkSize cfg;
     Workers := if Workers cfg <=? 0 then numCPU env else Workers cfg;
     TempDir := TempDir cfg;
     KeepTempData := KeepTempData cfg;
     LogInterval := if LogInterval cfg <=? 0 then 1000000 else LogInterval cfg;
     Verbose := Verbose cfg;
     ApproxBytesPerID :=
       if ApproxBytesPerID cfg <=? 0 then defaultApproxBytesPerID
       else ApproxBytesPerID cfg;
     MemGuardMB := MemGuardMB cfg;
     DiskSafetyFactor :=
       if F64.leb (DiskSafetyFactor cfg) F64.zero then f1_25
       else DiskSafetyFactor cfg |}.

Definition withSchemes (l : list string) (cfg : Config) : Config :=
  {| Schemes := l; Scale := Scale cfg; ChunkSize := ChunkSize cfg;
     Workers := Workers cfg; TempDir := TempDir cfg;
     KeepTempData := KeepTempData cfg; LogInterval := LogInterval cfg;
     Verbose := Verbose cfg; ApproxBytesPerID := ApproxBytesPerID cfg;
     MemGuardMB := MemGuardMB cfg; DiskSafetyFactor := DiskSafetyFactor cfg |}.

Section Run.
Variable env : Env.

(** The loop over the schemes.  With the chunk size [normalize] leaves,
    the chunk loop of a scheme ends within [Scale] iterations, which is
    the fuel [runScheme] is given. *)
Fixpoint runSchemes (schemes : list string) (cfg : Config)
    (results : list Result) : M (list Result) :=
  match schemes with
  | [] => ret results
  | scheme :: rest =>
      let* done := ctxPoll env in
      if done : bool then fail ErrCanceled
      else
        let* res := runScheme env (S (Z.to_nat (Scale cfg))) scheme cfg in
        runSchemes rest cfg (results ++ [res])
  end.

Definition Run (cfg : Config) : M (list Result) :=
  let cfg :=
    match Schemes cfg with
    | [] => withSchemes defaultSchemes cfg
    | _ :: _ => cfg
    end in
  if Scale cfg <=? 0 then fail ErrScale
  else
    let cfg := normalize env cfg in
    runSchemes (Schemes cfg) cfg [].

End Run.

(** ** Priority queues that meet the contract of [container/heap]

    What the merge relies on: [heap.Init], [heap.Push] and [heap.Pop]
    keep the entries, and [heap.Pop] removes an entry that no entry left
    behind is [Less] than.  [inv] is the shape the implementation keeps
    between calls. *)
Record HeapOk (H : HeapImpl) (inv : list heapEntry -> Prop) : Prop := {
  heap_init_perm : forall l, Permutation (heap_init H l) l;
  heap_init_inv : forall l, inv (heap_init H l);
  heap_push_perm : forall h e, inv h -> Permutation (heap_push H h e) (e :: h);
  heap_push_inv : forall h e, inv h -> inv (heap_push H h e);
  heap_pop_min : forall h, inv h -> h <> [] ->
    exists e h', heap_pop H h = Some (e, h')
      /\ Permutation h (e :: h')
      /\ inv h'
      /\ Forall (fun x => GoString.le (entryValue e) (entryValue x)) h'
}.

Definition heapCorrect (H : HeapImpl) : Prop := exists inv, HeapOk H inv.

(** Two such queues on unordered lists.  They differ in the entry they
    pop among several minimal ones: the first or the last of the list. *)
Fixpoint popMin (preferLast : bool) (h : list heapEntry)
    : option (heapEntry * list heapEntry) :=
  match h with
  | [] => None
  | e :: h' =>
      match popMin preferLast h' with
      | None => Some (e, [])
      | Some (m, rest) =>
          if (if preferLast
              then String.leb (entryValue m) (entryValue e)
              else String.ltb (entryValue m) (entryValue e))
          then Some (m, e :: rest)
          else Some (e, h')
      end
  end.

Definition listHeap (preferLast : bool) : HeapImpl :=
  {| heap_init := fun l => l;
     heap_pop := popMin preferLast;
     heap_push := fun h e => h ++ [e] |}.

(** ** What the merge is to compute *)

(** the records a clean scan of a chunk file delivers *)
Fixpoint scanAll (fuel : nat) (s : string) : option (list string) :=
  match fuel with
  | O => None
  | S fuel' =>
      match scanLine s with
      | ScanEOF => Some []
      | ScanError _ => None
      | ScanToken token rest => cons token <$> scanAll fuel' rest
      end
  end.

Definition fileRecords (content : string) : option (list string) :=
  scanAll (S (String.length content)) content.

(** the bytes of a persisted chunk: every value followed by a line feed *)
Fixpoint chunkBytes (values : list string) : string :=
  match values with
  | [] => ""
  | v :: rest => v +:+ newline +:+ chunkBytes rest
  end.

(** A value that a chunk file gives back as it was written: it contains
    no line feed, does not end in a carriage return and fits the buffer
    of the scanner. *)
Definition lineSafe (v : string) : Prop :=
  splitLine v = (v, None) /\ dropCR v = v
  /\ (N.of_nat (String.length v) < maxTokenSize)%N.

(** the number of distinct values of a list *)
Definition distinctCount (l : list string) : nat :=
  length (remove_dups l).

(** An environment in which nothing goes wrong while the package runs:
    no storage fault, no change to storage from outside, no cancellation. *)
Record quiet (env : Env) : Prop := {
  quiet_io : forall t, io_fault env t = false;
  quiet_storage : forall t f, disturb env t f = f;
  quiet_ctx : forall t, ctx_done env t = false
}.

Definition initialWorld : World :=
  {| files := ∅; openFds := ∅; nextFd := 3; clock := 0; genCalls := 0; trace := [] |}.

(** An environment for running the model: identifiers come from a list,
    the hash function is the identity, names are already in lower case. *)
Definition scriptedEnv (ids : list string) (H : HeapImpl) : Env :=
  {| gen_next := fun _ n => nth n ids ""%string;
     io_fault := fun _ => false;
     disturb := fun _ f => f;
     ctx_done := fun _ => false;
     mem_available := fun _ => Some (2 ^ 34);
     disk_free := fun _ => Some (2 ^ 40);
     getwd := fun _ => Some "/work"%string;
     temp_suffix := fun _ => "0001"%string;
     osTempDir := "/tmp"%string;
     removed_anyway := fun _ _ => false;
     numCPU := 4;
     sha256 := fun bytes => bytes;
     toLower := fun s => s;
     filepathDir := fun p => p;
     jsonMarshal := fun _ => Some "{}"%string;
     heapImpl := H |}.

Definition scriptedConfig (scheme : string) (scale chunkSize : Z) : Config :=
  {| Schemes := [scheme]; Scale := scale; ChunkSize := chunkSize; Workers := 1;
     TempDir := "/tmp"%string; KeepTempData := true; LogInterval := 0;
     Verbose := false; ApproxBytesPerID := 64;
     MemGuardMB := F64.ofZ 512; DiskSafetyFactor := f1_25 |}.

(** ** The state of a running merge, as lists of records *)

(** the records a reader has still to deliver, its current value first *)
Definition liveReader (r : chunkReader) (recs : list string) : Prop :=
  eof r = false
  /\ exists rest, recs = value r :: rest /\ fileRecords (scanner r) = Some rest.

Definition readerRecords (r : chunkReader) : list string :=
  if eof r then []
  else value r :: default [] (fileRecords (scanner r)).

Definition entryRecords (readers : list chunkReader) (e : heapEntry) : list string :=
  match readers !! entryReader e with
  | Some r => readerRecords r
  | None => []
  end.

(** all records the merge has still to pop *)
Definition pendingRecords (h : list heapEntry) (readers : list chunkReader)
    : list string :=
  concat (entryRecords readers <$> h).

(** the number of distinct values of [l] other than the low-water mark *)
Definition freshCount (hasPrev : bool) (prevValue : string) (l : list string) : nat :=
  distinctCount (if hasPrev then filter (fun x => x <> prevValue) l else l).

(** a heap entry mirrors a reader that is not exhausted and whose
    remaining records are strictly increasing *)
Definition liveEntry (readers : list chunkReader) (e : heapEntry) : Prop :=
  exists r rest,
    readers !! entryReader e = Some r
    /\ eof r = false
    /\ value r = entryValue e
    /\ fileRecords (scanner r) = Some rest
    /\ Sorted GoString.lt (value r :: rest).

(** the bound on the iterations the merge loop still makes *)
Definition pendingWork (h : list heapEntry) (readers : list chunkReader) : nat :=
  sum_list ((fun e =>
               match readers !! entryReader e with
               | Some r => S (String.length (scanner r))
               | None => 1%nat
               end) <$> h).

(** what holds of the heap and the readers between two iterations *)
Definition mergeInv (inv : list heapEntry -> Prop) (h : list heapEntry)
    (readers : list chunkReader) : Prop :=
  inv h /\ NoDup (entryReader <$> h) /\ Forall (liveEntry readers) h.

(** a heap entry mirrors a reader that is not exhausted *)
Definition openEntry (readers : list chunkReader) (e : heapEntry) : Prop :=
  exists r rest,
    readers !! entryReader e = Some r
    /\ eof r = false
    /\ value r = entryValue e
    /\ fileRecords (scanner r) = Some rest.

(** what holds of the heap and the readers between two iterations,
    whatever the order of the records *)
Definition openInv (inv : list heapEntry -> Prop) (h : list heapEntry)
    (readers : list chunkReader) : Prop :=
  inv h /\ NoDup (entryReader <$> h) /\ Forall (openEntry readers) h.

(** the values popped from the priority queue, the latest first *)
Fixpoint popped (t : list Event) : list string :=
  match t with
  | [] => []
  | EvPop v :: t => v :: popped t
  | _ :: t => popped t
  end.

(** the chunk file of a manifest entry holds these records *)
Definition holdsRecords (store : gmap string string) (m : chunkMeta)
    (recs : list string) : Prop :=
  exists content, store !! Path m = Some content /\ fileRecords content = Some recs.

(** a manifest over the given chunk records, for running the merge alone *)
Definition manifestOf (chunks : list chunkMeta) : manifest :=
  {| manScheme := "test"; manScale := 0; manChunkSize := 0;
     manApproxBytesPerID := 0; manChunks := chunks |}.

Definition chunkAt (path : string) : chunkMeta :=
  {| Index := 0; Path := path; UniqueCount := 0; OriginalCount := 0;
     Hash := ""; SizeBytes := 0 |}.

Definition worldWith (store : list (string * string)) : World :=
  {| files := list_to_map store; openFds := ∅; nextFd := 3; clock := 0;
     genCalls := 0; trace := [] |}.

(** Two chunks that share the value "X". *)
Definition tieChunks : list (list string) := [["X"; "Y"]; ["X"]]%string.

Definition tieWorld : World :=
  worldWith [("a.dat", chunkBytes ["X"; "Y"]); ("b.dat", chunkBytes ["X"])]%string.

Definition tieManifest : manifest :=
  manifestOf [chunkAt "a.dat"; chunkAt "b.dat"].

(** Three chunk files, the second of which holds no record. *)
Definition gapWorld : World :=
  worldWith [("a.dat", chunkBytes ["X"; "Y"]); ("e.dat", "");
             ("b.dat", chunkBytes ["X"])]%string.

Definition gapManifest : manifest :=
  manifestOf [chunkAt "a.dat"; chunkAt "e.dat"; chunkAt "b.dat"].

Definition gapChunks : list (list string) := [["X"; "Y"]; []; ["X"]]%string.

(** ** Traces of the merge and open handles *)

(** the events of the merge loop in the order they happen: every pop
    follows a poll that found the context alive, and a poll that finds
    it cancelled ends the loop ([mergeTrace_no_pop] is a queue that
    fails to pop from a heap that is not empty) *)
Inductive mergeTrace : bool -> list Event -> Prop :=
  | mergeTrace_end : mergeTrace false []
  | mergeTrace_cancel : mergeTrace true [EvPoll true]
  | mergeTrace_no_pop : mergeTrace false [EvPoll false]
  | mergeTrace_pop c v evs :
      mergeTrace c evs -> mergeTrace c (EvPoll false :: EvPop v :: evs)
  | mergeTrace_pop_print c v evs :
      mergeTrace c evs -> mergeTrace c (EvPoll false :: EvPop v :: EvPrint :: evs).

Definition cursorEvent (ev : Event) : Prop :=
  match ev with
  | EvOpen _ _ | EvClose _ => True
  | _ => False
  end.

Definition closeEvent (ev : Event) : Prop :=
  match ev with
  | EvClose _ => True
  | _ => False
  end.

(** handles are handed out in increasing order *)
Definition fdsBelow (w : World) : Prop :=
  forall fd, fd ∈ openFds w -> (fd < nextFd w)%nat.

Definition fdSet (readers : list chunkReader) : gset nat :=
  list_to_set (file <$> readers).

(** the scripted environment with the context cancelled from time [t0] on *)
Definition cancelledFrom (t0 : nat) (H : HeapImpl) : Env :=
  {| gen_next := gen_next (scriptedEnv [] H);
     io_fault := fun _ => false;
     disturb := fun _ f => f;
     ctx_done := fun t => (t0 <=? t)%nat;
     mem_available := mem_available (scriptedEnv [] H);
     disk_free := disk_free (scriptedEnv [] H);
     getwd := getwd (scriptedEnv [] H);
     temp_suffix := temp_suffix (scriptedEnv [] H);
     osTempDir := "/tmp"%string;
     removed_anyway := fun _ _ => false;
     numCPU := 4;
     sha256 := fun bytes => bytes;
     toLower := fun s => s;
     filepathDir := fun p => p;
     jsonMarshal := fun _ => Some "{}"%string;
     heapImpl := H |}.

(** ** The chunk loop *)

(** plain sums over the chunk records of a manifest *)
Definition sumUniqueCount (chunks : list chunkMeta) : Z :=
  foldr (fun m acc => UniqueCount m + acc) 0 chunks.

Definition sumOriginalCount (chunks : list chunkMeta) : Z :=
  foldr (fun m acc => OriginalCount m + acc) 0 chunks.

(** what the chunk loop of [runScheme] keeps between two iterations *)
Definition loopInv (cfg : Config) (st : loopState) : Prop :=
  0 <= totalGenerated st <= Scale cfg
  /\ 0 <= totalUniqueSum st <= totalGenerated st
  /\ totalUniqueSum st = sumUniqueCount (manChunks (man st))
  /\ totalGenerated st = sumOriginalCount (manChunks (man st)).

Definition initialLoopState (scheme : string) (cfg : Config) : loopState :=
  {| man := {| manScheme := scheme; manScale := Scale cfg;
               manChunkSize := ChunkSize cfg;
               manApproxBytesPerID := ApproxBytesPerID cfg;
               manChunks := [] |};
     totalGenerated := 0; totalUniqueSum := 0; chunkIndex := 0 |}.

(** the result the scenario of the specification ends in *)
Definition scenarioResult : Result :=
  {| Scheme := "ulid"; Chunks := 3; Generated := 10; ChunkUnique := 7;
     Unique := 7; Duplicates := 0;
     ManifestPath := "/tmp/uidstress-ulid-0001/manifest.json";
     OutputDir := "/tmp/uidstress-ulid-0001" |}.

(** a computation that never exhausts the fuel of the model *)
Definition finite {A} (c : M A) : Prop := forall w, fst (c w) <> OutOfFuel.

Definition scenarioIds : list string :=
  ["5"; "3"; "5"; "1"; "2"; "4"; "2"; "9"; "8"; "8"]%string.

(** the scenario of the specification: scale 10 in chunks of 4 *)
Abbreviation scenarioRun :=
  (runScheme (scriptedEnv scenarioIds (listHeap false)) 11 "ulid"
     (scriptedConfig "ulid" 10 4) initialWorld).

(** ** What a computation adds to the trace *)

(** [t] is [t0] with events in front, all of which satisfy [Q] *)
Definition extends (Q : Event -> Prop) (t0 t : list Event) : Prop :=
  exists evs, t = evs ++ t0 /\ Forall Q evs.

Definition emitsOnly {A} (Q : Event -> Prop) (c : M A) : Prop :=
  forall w r w', c w = (r, w') -> extends Q (trace w) (trace w').

Definition notMergeBegin (ev : Event) : Prop := ev <> EvMergeBegin.

Definition notGenerate (ev : Event) : Prop :=
  match ev with
  | EvGenerate _ => False
  | _ => True
  end.

(** the scripted environment in which, at time [t0], the bytes of the
    file [path] are replaced from outside *)
Definition corruptingAt (t0 : nat) (path bytes : string) (ids : list string)
    (H : HeapImpl) : Env :=
  {| gen_next := gen_next (scriptedEnv ids H);
     io_fault := fun _ => false;
     disturb := fun t f => if (t =? t0)%nat then <[path := bytes]> f else f;
     ctx_done := fun _ => false;
     mem_available := mem_available (scriptedEnv ids H);
     disk_free := disk_free (scriptedEnv ids H);
     getwd := getwd (scriptedEnv ids H);
     temp_suffix := temp_suffix (scriptedEnv ids H);
     osTempDir := "/tmp"%string;
     removed_anyway := fun _ _ => false;
     numCPU := 4;
     sha256 := fun bytes => bytes;
     toLower := fun s => s;
     filepathDir := fun p => p;
     jsonMarshal := fun _ => Some "{}"%string;
     heapImpl := H |}.

(** the scenario of the specification with the first chunk file
    overwritten from outside once all chunks are persisted *)
Abbreviation corruptedRun :=
  (runScheme
     (corruptingAt 45 "/tmp/uidstress-ulid-0001/ulid-chunk-00000.dat" "junk"
        scenarioIds (listHeap false))
     11 "ulid" (scriptedConfig "ulid" 10 4) initialWorld).

(** the scenario of the specification, configured with the chunk size 0 *)
Abbreviation zeroChunkSizeRun :=
  (Run (scriptedEnv scenarioIds (listHeap false)) (scriptedConfig "ulid" 10 0)
     initialWorld).

(** ** Configurations *)

Definition withChunkSize (c : Z) (cfg : Config) : Config :=
  {| Schemes := Schemes cfg; Scale := Scale cfg; ChunkSize := c;
     Workers := Workers cfg; TempDir := TempDir cfg;
     KeepTempData := KeepTempData cfg; LogInterval := LogInterval cfg;
     Verbose := Verbose cfg; ApproxBytesPerID := ApproxBytesPerID cfg;
     MemGuardMB := MemGuardMB cfg; DiskSafetyFactor := DiskSafetyFactor cfg |}.

(** the list of schemes [Run] works through *)
Definition effectiveSchemes (cfg : Config) : list string :=
  match Schemes cfg with
  | [] => defaultSchemes
  | _ :: _ => Schemes cfg
  end.

(** the chunk size [Run] works with *)
Definition effectiveChunkSize (cfg : Config) : Z :=
  if (ChunkSize cfg <=? 0) || (ChunkSize cfg >? Scale cfg)
  then minInt64 (Scale cfg) 1000000 else ChunkSize cfg.

(** a result that some run of [runScheme] for [scheme] returned *)
Definition resultOf (env : Env) (cfg : Config) (scheme : string) (res : Result)
    : Prop :=
  exists w1 w2,
    runScheme env (S (Z.to_nat (Scale cfg))) scheme cfg w1 = (Ok res, w2).

(** the chunk loop fills every chunk but the last *)
Definition chunksFull (cfg : Config) (st : loopState) : Prop :=
  let n := Z.of_nat (length (manChunks (man st))) in
  totalGenerated st = Z.min (Scale cfg) (ChunkSize cfg * n)
  /\ (n = 0 \/ ChunkSize cfg * (n - 1) < Scale cfg).

(** ** Verification *)

(** the file of a chunk record is there and hashes to the recorded hash *)
Definition chunkIntact (env : Env) (store : gmap string string) (ch : chunkMeta)
    : Prop :=
  exists content,
    store !! Path ch = Some content /\ hexEncode (sha256 env content) = Hash ch.

(** the error [verifyChunks] returns for a chunk record that is not intact *)
Definition verifyFault (env : Env) (store : gmap string string) (ch : chunkMeta)
    (e : error) : Prop :=
  match store !! Path ch with
  | None => e = ErrHashChunk (Path ch) (ErrNotExist (Path ch))
  | Some content =>
      hexEncode (sha256 env content) <> Hash ch
      /\ e = ErrVerifyMismatch (Path ch) (Hash ch) (hexEncode (sha256 env content))
  end.

(** storage is left alone and no storage operation fails *)
Definition calmStorage (env : Env) : Prop :=
  (forall t f, disturb env t f = f) /\ (forall t, io_fault env t = false).

Definition isMergeBegin (ev : Event) : bool :=
  match ev with
  | EvMergeBegin => true
  | _ => false
  end.

Definition isGenerate (ev : Event) : bool :=
  match ev with
  | EvGenerate _ => true
  | _ => false
  end.

(** ** Which errors a computation can return *)

Definition raises {A} (P : error -> Prop) (c : M A) : Prop :=
  forall w e w', c w = (Err e, w') -> P e.

(** the errors of package os, io and bufio *)
Definition storageError (e : error) : Prop :=
  match e with
  | ErrIO _ _ | ErrNotExist _ | ErrTooLong => True
  | _ => False
  end.

Definition notShortOfMemory (e : error) : Prop :=
  match e with
  | ErrInsufficientMemory _ => False
  | _ => True
  end.

Definition notShortOfDisk (e : error) : Prop :=
  match e with
  | ErrInsufficientDisk _ => False
  | _ => True
  end.

(** the part of [runScheme] that runs under the deferred [os.RemoveAll]
    (lines 149 to 253) *)
Definition schemeBody (env : Env) (fuel : nat) (scheme : string) (cfg : Config)
    (gen : Generator) (tempDir : string) : M Result :=
  ensureDisk env tempDir (mul64 (Scale cfg) (ApproxBytesPerID cfg))
    (DiskSafetyFactor cfg) ;;
  let* st := chunkLoop env fuel scheme cfg gen tempDir (initialLoopState scheme cfg) in
  verifyAndMerge env scheme cfg tempDir st.

(** what the deferred call does when [runScheme] returns *)
Definition cleanup (env : Env) (cfg : Config) (tempDir : string) : World -> World :=
  if KeepTempData cfg then id else osRemoveAll env tempDir.

(** the events of [cleanup] *)
Definition cleanupEvents (cfg : Config) (tempDir : string) : list Event :=
  if KeepTempData cfg then [] else [EvRemoveAll tempDir].

(** the steps of [runScheme] before the temporary directory exists
    (lines 127 to 143) *)
Definition schemeDir (env : Env) (scheme : string) (cfg : Config) : M string :=
  let* baseDir :=
    (if String.eqb (TempDir cfg) ""%string then
       let* cwd := osGetwd env in
       let baseDir := pathJoin cwd "tmp" in
       osMkdirAll env baseDir ;;
       ret baseDir
     else ret (TempDir cfg)) in
  osMkdirTemp env baseDir ("uidstress-" +:+ scheme +:+ "-").

(** the scripted environment with [disk] bytes free on the disk and, from
    time [t0] on, [mem] bytes of memory available *)
Definition scarceEnv (t0 : nat) (mem disk : Z) (ids : list string) (H : HeapImpl)
    : Env :=
  {| gen_next := gen_next (scriptedEnv ids H);
     io_fault := fun _ => false;
     disturb := fun _ f => f;
     ctx_done := fun _ => false;
     mem_available := fun t => if (t <? t0)%nat then Some (2 ^ 34) else Some mem;
     disk_free := fun _ => Some disk;
     getwd := getwd (scriptedEnv ids H);
     temp_suffix := temp_suffix (scriptedEnv ids H);
     osTempDir := "/tmp"%string;
     removed_anyway := fun _ _ => false;
     numCPU := 4;
     sha256 := fun bytes => bytes;
     toLower := fun s => s;
     filepathDir := fun p => p;
     jsonMarshal := fun _ => Some "{}"%string;
     heapImpl := H |}.

Definition removingConfig (scheme : string) (scale chunkSize : Z) : Config :=
  {| Schemes := [scheme]; Scale := scale; ChunkSize := chunkSize; Workers := 1;
     TempDir := "/tmp"%string; KeepTempData := false; LogInterval := 0;
     Verbose := false; ApproxBytesPerID := 64;
     MemGuardMB := F64.ofZ 512; DiskSafetyFactor := f1_25 |}.

(** the scenario of the specification with little memory left once the
    first chunk is written *)
Abbreviation scarceMemoryRun :=
  (runScheme (scarceEnv 12 1024 (2 ^ 40) scenarioIds (listHeap false)) 11 "ulid"
     (removingConfig "ulid" 10 4) initialWorld).

(** the scenario of the specification on a disk with 100 bytes free *)
Abbreviation scarceDiskRun :=
  (runScheme (scarceEnv 0 (2 ^ 34) 100 scenarioIds (listHeap false)) 11 "ulid"
     (removingConfig "ulid" 10 4) initialWorld).

(** the scenario of the specification, not keeping its data *)
Abbreviation removingRun :=
  (runScheme (scriptedEnv scenarioIds (listHeap false)) 11 "ulid"
     (removingConfig "ulid" 10 4) initialWorld).

(** ** What a step does to storage *)

(** [c] makes no call of the generator and leaves every file outside
    [S] as it is *)
Definition touches {A} (S : string -> Prop) (c : M A) : Prop :=
  forall w r w', c w = (r, w') ->
    genCalls w' = genCalls w /\ forall p, ~ S p -> files w' !! p = files w !! p.

Definition noPath (p : string) : Prop := False.

(** the three files [saveManifest] writes *)
Definition manifestPaths (dir : string) (p : string) : Prop :=
  p = pathJoin dir "manifest.json.tmp"
  \/ p = pathJoin dir "manifest.json"
  \/ p = pathJoin dir "manifest.json.sha256".

(** ** The chunks of a run *)

(** the chunk [runScheme] makes of a batch of identifiers *)
Definition chunkOf (ids : list string) : list string :=
  dedupeSorted (sortStrings ids).

(** the identifiers of the calls [from], ..., [from + n - 1] of the generator *)
Definition generated (env : Env) (g : Generator) (from n : nat) : list string :=
  gen_next env g <$> seq from n.

(** what the chunk loop of [runScheme] keeps in storage between two
    iterations: with [batches] the batches generated since call [g0] *)
Record pipelineInv (env : Env) (scheme : string) (gen : Generator)
    (tempDir : string) (g0 : nat) (st : loopState) (w : World)
    (batches : list (list string)) : Prop := {
  pi_chunks :
    Forall2 (fun ch b =>
               files w !! Path ch = Some (chunkBytes (chunkOf b))
               /\ Hash ch = hashStrings env (chunkOf b))
      (manChunks (man st)) batches;
  pi_paths :
    forall i ch, manChunks (man st) !! i = Some ch ->
                 Path ch = pathJoin tempDir (chunkFileName scheme (Z.of_nat i));
  pi_index : chunkIndex st = Z.of_nat (length (manChunks (man st)));
  pi_ids : concat batches = generated env gen g0 (genCalls w - g0);
  pi_calls : (g0 <= genCalls w)%nat;
  pi_total : totalGenerated st = Z.of_nat (genCalls w - g0);
  pi_count : Z.of_nat (length (manChunks (man st))) <= totalGenerated st
}.

(** what [saveManifest] leaves in the directory: the serialised manifest,
    the hex digest of these bytes beside it, and no temporary file *)
Definition manifestSaved (env : Env) (dir : string) (m : manifest)
    (store : gmap string string) : Prop :=
  exists data,
    jsonMarshal env m = Some data
    /\ store !! pathJoin dir "manifest.json" = Some data
    /\ store !! pathJoin dir "manifest.json.sha256"
       = Some (hexEncode (sha256 env data))
    /\ store !! pathJoin dir "manifest.json.tmp" = None.

(** ** The generator [GenerateCustomUID] *)

Module CustomUID.

Definition base32Chars : string := "0123456789ABCDEFGHJKMNPQRSTVWXYZ".

(** conversion to an unsigned integer of the given width *)
Definition uint (bits : Z) (z : Z) : Z := z mod 2 ^ bits.

(** [s[i]]; every index the encoder uses is below 32, the length of the
    alphabet, so the default is never taken *)
Definition byteAt (s : string) (i : Z) : ascii :=
  default "000"%char (String.get (Z.to_nat i) s).

(** the variables of [encodeBase32_16]; [panicked] records a write
    [result[pos] = ...] with [pos] out of range *)
Record encoder := {
  buffer : Z;            (* uint64 *)
  bitsInBuffer : Z;      (* int *)
  pos : nat;
  result : list ascii;   (* make([]byte, 16) *)
  panicked : bool
}.

(** [result[pos] = c; pos++] *)
Definition write (e : encoder) (c : ascii) (buffer' bits' : Z) : encoder :=
  {| buffer := buffer'; bitsInBuffer := bits'; pos := S (pos e);
     result := <[pos e := c]> (result e);
     panicked := panicked e || (length (result e) <=? pos e)%nat |}.

(** the loop [for bitsInBuffer >= 5], which takes at most [fuel] rounds *)
Fixpoint drain (fuel : nat) (e : encoder) : encoder :=
  match fuel with
  | O => e
  | S fuel' =>
      if bitsInBuffer e >=? 5 then
        let index := Z.land (Z.shiftr (buffer e) (bitsInBuffer e - 5)) 31 in
        let bits' := bitsInBuffer e - 5 in
        drain fuel'
          (write e (byteAt base32Chars index)
             (Z.land (buffer e) (uint 64 (uint 64 (Z.shiftl 1 bits') - 1))) bits')
      else e
  end.

(** one round of the loop [for i := 0; i < 10; i++] with [b = data[i]] *)
Definition feed (e : encoder) (b : Z) : encoder :=
  drain (Z.to_nat (bitsInBuffer e + 8))
    {| buffer := uint 64 (Z.lor (uint 64 (Z.shiftl (buffer e) 8)) b);
       bitsInBuffer := bitsInBuffer e + 8; pos := pos e; result := result e;
       panicked := panicked e |}.

Definition newEncoder : encoder :=
  {| buffer := 0; bitsInBuffer := 0; pos := 0; result := replicate 16 "000"%char;
     panicked := false |}.

(** [encodeBase32_16]; [None] is the index-out-of-range panic, on fewer
    than ten bytes or on a write past the sixteenth character *)
Definition encodeBase32_16 (data : list Z) : option string :=
  if (length data <? 10)%nat then None
  else
    let e := fold_left feed (take 10 data) newEncoder in
    let e :=
      if bitsInBuffer e >? 0
      then write e
             (byteAt base32Chars
                (Z.land (uint 64 (Z.shiftl (buffer e) (5 - bitsInBuffer e))) 31))
             (buffer e) (bitsInBuffer e)
      else e in
    if panicked e then None
    else Some (string_of_list_ascii (take 16 (result e))).

(** *** What the encoder is to compute *)

(** the number a sequence of bytes is in big-endian order *)
Definition beValue (data : list Z) : Z :=
  fold_left (fun acc b => acc * 256 + b) data 0.

(** the [n] low base-32 digits of [v], most significant first, in the
    alphabet of the encoder *)
Definition digitsChars (n : nat) (v : Z) : list ascii :=
  (fun j => byteAt base32Chars ((v / 32 ^ Z.of_nat (n - 1 - j)) mod 32)) <$> seq 0 n.

(** the value of the bits the encoder has read, given the value [w] of
    the digits it has written *)
Definition encoderValue (e : encoder) (w : Z) : Z :=
  w * 2 ^ bitsInBuffer e + buffer e.

Record encoderInv (e : encoder) (w : Z) : Prop := {
  ei_bits : 0 <= bitsInBuffer e;
  ei_buffer : 0 <= buffer e < 2 ^ bitsInBuffer e;
  ei_written : 0 <= w;
  ei_length : length (result e) = 16%nat;
  ei_result : take (pos e) (result e) = digitsChars (pos e) w;
  ei_sound : panicked e = false
}.

End CustomUID.
(** * Properties *)

(** ** The order on strings *)

Module GoStringFacts.
Import GoString.

Lemma ascii_compare_refl (c : ascii) : Ascii.compare c c = Eq.
Proof. unfold Ascii.compare. apply N.compare_refl. Qed.

Lemma ascii_compare_trans (c : comparison) (a b d : ascii) :
  Ascii.compare a b = c -> Ascii.compare b d = c -> Ascii.compare a d = c.
Proof.
  unfold Ascii.compare. destruct c; intros H1 H2.
  - apply N.compare_eq_iff in H1, H2. apply N.compare_eq_iff. congruence.
  - rewrite N.compare_lt_iff in *. lia.
  - rewrite N.compare_gt_iff in *. lia.
Qed.

Lemma compare_refl (s : string) : String.compare s s = Eq.
Proof. induction s as [|a s IH]; simpl; [reflexivity|]. now rewrite ascii_compare_refl. Qed.

Lemma compare_eq (a b : string) : String.compare a b = Eq <-> a = b.
Proof.
  split; [apply String.compare_eq_iff|]. intros ->. apply compare_refl.
Qed.

Lemma compare_lt_trans (a b d : string) :
  String.compare a b = Lt -> String.compare b d = Lt -> String.compare a d = Lt.
Proof.
  revert b d. induction a as [|x a IH]; intros [|y b] [|z d]; simpl; try congruence.
  destruct (Ascii.compare x y) eqn:Hxy; try discriminate;
    destruct (Ascii.compare y z) eqn:Hyz; try discriminate; intros H1 H2.
  - rewrite (ascii_compare_trans Eq x y z Hxy Hyz). eauto.
  - apply Ascii.compare_eq_iff in Hxy. subst. now rewrite Hyz.
  - apply Ascii.compare_eq_iff in Hyz. subst. now rewrite Hxy.
  - now rewrite (ascii_compare_trans Lt x y z Hxy Hyz).
Qed.

Lemma le_refl (a : string) : le a a.
Proof. unfold le, String.leb. now rewrite compare_refl. Qed.

Lemma lt_irrefl (a : string) : ~ lt a a.
Proof. unfold lt, String.ltb. now rewrite compare_refl. Qed.

Lemma lt_trans (a b d : string) : lt a b -> lt b d -> lt a d.
Proof.
  unfold lt, String.ltb. intros H1 H2.
  destruct (String.compare a b) eqn:E1; try discriminate.
  destruct (String.compare b d) eqn:E2; try discriminate.
  now rewrite (compare_lt_trans a b d E1 E2).
Qed.

Lemma le_lteq (a b : string) : le a b <-> lt a b \/ a = b.
Proof.
  unfold le, lt, String.leb, String.ltb. split.
  - destruct (String.compare a b) eqn:E; try discriminate; intros _.
    + right. now apply compare_eq.
    + now left.
  - intros [H| ->]; [|now rewrite compare_refl].
    now destruct (String.compare a b).
Qed.

Lemma le_trans (a b d : string) : le a b -> le b d -> le a d.
Proof.
  rewrite !le_lteq. intros [H1| ->] [H2| ->]; eauto using lt_trans.
Qed.

Lemma le_antisym (a b : string) : le a b -> le b a -> a = b.
Proof. apply String.leb_antisym. Qed.

Lemma le_total (a b : string) : le a b \/ le b a.
Proof. apply String.leb_total. Qed.

Lemma lt_le_trans (a b d : string) : lt a b -> le b d -> lt a d.
Proof. rewrite le_lteq. intros H [H2| ->]; eauto using lt_trans. Qed.

Lemma le_lt_trans (a b d : string) : le a b -> lt b d -> lt a d.
Proof. rewrite le_lteq. intros [H| ->] H2; eauto using lt_trans. Qed.

Lemma lt_not_le (a b : string) : lt a b -> ~ le b a.
Proof.
  intros H1 H2. apply (lt_irrefl a). eauto using lt_le_trans.
Qed.

Lemma not_lt_le (a b : string) : String.ltb a b = false -> le b a.
Proof.
  unfold le, String.ltb, String.leb. rewrite (String.compare_antisym b a).
  now destruct (String.compare a b).
Qed.

Lemma le_neq_lt (a b : string) : le a b -> a <> b -> lt a b.
Proof. rewrite le_lteq. now intros [H|H] Hne. Qed.

End GoStringFacts.

Create HintDb gostr.

#[global] Hint Resolve GoStringFacts.le_refl GoStringFacts.le_trans GoStringFacts.lt_trans
  GoStringFacts.lt_le_trans GoStringFacts.le_lt_trans : gostr.

(** ** [dedupeSorted]: the in-place scan computes [dedupeList] *)

Lemma dedupeScan_spec (rest pre mid : list string) (prev : string) :
  let r := dedupeScan (length rest) (length pre + length mid)
             (pre ++ mid ++ rest) (length pre) prev in
  take (snd r) (fst r) = pre ++ compact prev rest.
Proof.
  revert pre mid prev. induction rest as [|v rest IH]; intros pre mid prev; simpl.
  - rewrite !app_nil_r. apply take_app_length.
  - assert (Hlk : (pre ++ mid ++ v :: rest) !! (length pre + length mid)%nat = Some v).
    { rewrite app_assoc. apply list_lookup_middle. now rewrite length_app. }
    rewrite Hlk. destruct (String.eqb v prev) eqn:E.
    + specialize (IH pre (mid ++ [v]) prev). simpl in IH.
      rewrite length_app in IH. simpl in IH.
      replace (length pre + (length mid + 1))%nat
        with (S (length pre + length mid)) in IH by lia.
      rewrite <- (app_assoc mid [v] rest) in IH. exact IH.
    + destruct mid as [|m mid].
      * simpl. specialize (IH (pre ++ [v]) [] v). simpl in IH.
        rewrite length_app in IH. simpl in IH.
        replace (length pre + 1 + 0)%nat with (S (length pre + 0)) in IH by lia.
        replace (length pre + 1)%nat with (S (length pre)) in IH by lia.
        rewrite <- (app_assoc pre [v] rest) in IH. simpl in IH.
        rewrite <- (app_assoc pre [v] (compact v rest)) in IH. simpl in IH.
        replace (<[length pre:=v]> (pre ++ v :: rest)) with (pre ++ v :: rest).
        { exact IH. }
        symmetry. apply list_insert_id. apply list_lookup_middle. reflexivity.
      * specialize (IH (pre ++ [v]) (mid ++ [v]) v). simpl in IH.
        rewrite !length_app in IH. simpl in IH.
        replace (length pre + 1 + (length mid + 1))%nat
          with (S (length pre + S (length mid))) in IH by lia.
        replace (length pre + 1)%nat with (S (length pre)) in IH by lia.
        replace (<[length pre:=v]> (pre ++ (m :: mid) ++ v :: rest))
          with ((pre ++ [v]) ++ (mid ++ [v]) ++ rest).
        { simpl length. rewrite IH. now rewrite <- app_assoc. }
        rewrite insert_app_r_alt by lia. rewrite Nat.sub_diag. simpl.
        rewrite <- !app_assoc. reflexivity.
Qed.

Lemma dedupeSorted_dedupeList (values : list string) :
  dedupeSorted values = dedupeList values.
Proof.
  destruct values as [|v0 l]; [reflexivity|].
  unfold dedupeSorted, dedupeList.
  pose proof (dedupeScan_spec l [v0] [] v0) as H. simpl in H.
  replace (length (v0 :: l) - 1)%nat with (length l) by (simpl; lia).
  destruct (dedupeScan (length l) 1 (v0 :: l) 1 v0) as [values' w].
  exact H.
Qed.

Lemma compact_elem (prev : string) (l : list string) (x : string) :
  x ∈ prev :: compact prev l <-> x ∈ prev :: l.
Proof.
  revert prev. induction l as [|v l IH]; intros prev; simpl; [reflexivity|].
  destruct (String.eqb_spec v prev) as [->|Hne].
  - rewrite IH. set_solver.
  - specialize (IH v). set_solver.
Qed.

Lemma compact_adjacentDistinct (prev : string) (l : list string) :
  adjacentDistinct (prev :: compact prev l).
Proof.
  revert prev. induction l as [|v l IH]; intros prev; simpl; [exact I|].
  destruct (String.eqb_spec v prev) as [->|Hne].
  - apply IH.
  - split; [congruence|apply IH].
Qed.

Lemma compact_sorted (prev : string) (l : list string) :
  sortedStrings (prev :: l) -> sortedStrings (prev :: compact prev l).
Proof.
  unfold sortedStrings. revert prev.
  induction l as [|v l IH]; intros prev Hs; simpl; [exact Hs|].
  inversion Hs as [|? ? Hs' Hhd]; subst. inversion Hhd; subst.
  destruct (String.eqb_spec v prev) as [->|Hne].
  - now apply IH.
  - constructor; [now apply IH|now constructor].
Qed.

(** C5. On a list in non-decreasing order [dedupeSorted] returns a list
    that is again in non-decreasing order, has no two adjacent equal
    values, and has exactly the values of the input. *)
Theorem dedupeSorted_lossless (values : list string) :
  sortedStrings values ->
  sortedStrings (dedupeSorted values)
  /\ adjacentDistinct (dedupeSorted values)
  /\ (forall x, x ∈ dedupeSorted values <-> x ∈ values).
Proof.
  intros Hs. rewrite dedupeSorted_dedupeList.
  destruct values as [|v0 l]; simpl.
  - repeat split; auto; constructor.
  - split; [now apply compact_sorted|].
    split; [apply compact_adjacentDistinct|].
    intros x. apply compact_elem.
Qed.

Lemma dedupeSorted_lossless_witness :
  sortedStrings ["a"; "a"; "b"; "c"; "c"]%string
  /\ dedupeSorted ["a"; "a"; "b"; "c"; "c"]%string = ["a"; "b"; "c"]%string
  /\ sortedStrings (dedupeSorted ["a"; "a"; "b"; "c"; "c"]%string).
Proof.
  assert (Hs : sortedStrings ["a"; "a"; "b"; "c"; "c"]%string).
  { unfold sortedStrings. repeat constructor. }
  split; [exact Hs|]. split; [reflexivity|].
  exact (proj1 (dedupeSorted_lossless _ Hs)).
Defined.

(** ** Reasoning about effectful code *)

Lemma bind_Ok {A B} (c : M A) (k : A -> M B) (w w' : World) (b : B) :
  bind c k w = (Ok b, w') ->
  exists a w1, c w = (Ok a, w1) /\ k a w1 = (Ok b, w').
Proof.
  unfold bind. destruct (c w) as [[a|e| |] w1]; try discriminate. eauto.
Qed.

Lemma bind_eq {A B} (c : M A) (k : A -> M B) (w w1 : World) (a : A) :
  c w = (Ok a, w1) -> bind c k w = k a w1.
Proof. unfold bind. now intros ->. Qed.

Lemma bind_not_Ok {A B} (c : M A) (k : A -> M B) (w w1 : World) (r : outcome A) :
  c w = (r, w1) -> (forall a, r <> Ok a) ->
  exists r', bind c k w = (r', w1) /\ (forall b, r' <> Ok b)
    /\ match r with Err e => r' = Err e | Panic => r' = Panic
       | OutOfFuel => r' = OutOfFuel | Ok _ => False end.
Proof.
  unfold bind. intros -> Hr. destruct r as [a|e| |].
  - now destruct (Hr a).
  - exists (Err e). repeat split; congruence.
  - exists Panic. repeat split; congruence.
  - exists OutOfFuel. repeat split; congruence.
Qed.

Lemma io_Ok (env : Env) (op path : string) (w w' : World) (u : unit) :
  io env op path w = (Ok u, w') ->
  io_fault env (clock w) = false /\ w' = tick env w.
Proof.
  unfold io. destruct (io_fault env (clock w)); [discriminate|].
  intros [= <- <-]. auto.
Qed.

Lemma io_quiet (env : Env) (op path : string) (w : World) :
  io_fault env (clock w) = false -> io env op path w = (Ok tt, tick env w).
Proof. unfold io. now intros ->. Qed.

Lemma defer_inv {A} (cleanup : World -> World) (body : M A) (w w' : World)
    (r : outcome A) :
  defer cleanup body w = (r, w') ->
  exists w1, body w = (r, w1) /\ w' = cleanup w1.
Proof.
  unfold defer. destruct (body w) as [r1 w1]. intros [= <- <-]. eauto.
Qed.

(** Splitting a successful sequence into its steps. *)
Ltac bind_inv H :=
  let a := fresh "a" in
  let w := fresh "w" in
  let Hc := fresh "Hc" in
  apply bind_Ok in H; destruct H as (a & w & Hc & H).

Ltac ok_step :=
  match goal with
  | H : bind _ _ _ = (Ok _, _) |- _ => bind_inv H
  | H : io _ _ _ _ = (Ok _, _) |- _ =>
      let Hf := fresh "Hf" in apply io_Ok in H as [Hf ->]
  | H : defer _ _ _ = (_, _) |- _ =>
      let w := fresh "w" in
      let Hb := fresh "Hb" in
      apply defer_inv in H as (w & Hb & ->)
  | H : ret _ _ = (_, _) |- _ => unfold ret in H
  | H : fail _ _ = (_, _) |- _ => unfold fail in H
  | H : (_, _) = (_, _) |- _ => progress simplify_eq/=
  end.

Ltac ok_inv := repeat (cbv beta in *; ok_step).

Lemma append_cons (c : ascii) (a b : string) :
  String c a +:+ b = String c (a +:+ b).
Proof. reflexivity. Qed.

Lemma append_nil_l (s : string) : "" +:+ s = s.
Proof. reflexivity. Qed.

Lemma append_nil_r (s : string) : s +:+ "" = s.
Proof. induction s as [|c s IH]; [reflexivity|]. now rewrite append_cons, IH. Qed.

Lemma append_assoc (a b c : string) : (a +:+ b) +:+ c = a +:+ b +:+ c.
Proof. induction a as [|x a IH]; [reflexivity|]. now rewrite !append_cons, IH. Qed.

Lemma length_append (a b : string) :
  String.length (a +:+ b) = (String.length a + String.length b)%nat.
Proof. induction a as [|x a IH]; [reflexivity|]. rewrite append_cons. simpl. now rewrite IH. Qed.

(** ** Round trip of a chunk through storage *)

Section RoundTrip.
Variable env : Env.
Hypothesis undisturbed : forall t f, disturb env t f = f.

Lemma files_tick (w : World) : files (tick env w) = files w.
Proof. apply undisturbed. Qed.

Lemma fileWrite_Ok (path bytes : string) (w w' : World) (u : unit) :
  fileWrite env path bytes w = (Ok u, w') ->
  files w' = <[path := default ""%string (files w !! path) +:+ bytes]> (files w).
Proof.
  unfold fileWrite. intros H. ok_inv. now rewrite !undisturbed.
Qed.

Lemma writeValues_Ok (path : string) (values : list string) (w w' : World)
    (u : unit) (old : string) :
  files w !! path = Some old ->
  writeValues env path values w = (Ok u, w') ->
  files w' = <[path := old +:+ chunkBytes values]> (files w).
Proof.
  revert w old. induction values as [|v rest IH]; intros w old Hold H; simpl in *.
  - ok_inv. rewrite append_nil_r. symmetry. now apply insert_id.
  - bind_inv H. bind_inv H.
    apply fileWrite_Ok in Hc, Hc0.
    assert (H1 : files w0 !! path = Some (old +:+ v)).
    { rewrite Hc, Hold. simpl. apply lookup_insert_eq. }
    assert (H2 : files w1 !! path = Some ((old +:+ v) +:+ newline)).
    { rewrite Hc0, H1. simpl. apply lookup_insert_eq. }
    rewrite (IH _ _ H2 H), Hc0, H1, Hc, Hold. simpl.
    rewrite !insert_insert_eq. now rewrite !append_assoc.
Qed.

Lemma hashStrings_bytes (values : list string) :
  hashStrings env values = hexEncode (sha256 env (chunkBytes values)).
Proof.
  unfold hashStrings, hashSum. f_equal. f_equal.
  rewrite <- (append_nil_l (chunkBytes values)).
  generalize ""%string as h. unfold hashWrite.
  induction values as [|v rest IH]; intros h; simpl.
  - now rewrite append_nil_r.
  - rewrite IH. now rewrite !append_assoc.
Qed.

Lemma writeChunkFile_Ok (path : string) (values : list string) (w w' : World)
    (u : unit) :
  writeChunkFile env path values w = (Ok u, w') ->
  files w' !! path = Some (chunkBytes values).
Proof.
  unfold writeChunkFile, osMkdirAll, osCreate. intros H. ok_inv.
  match goal with
  | Hw : writeValues _ _ _ _ = _ |- _ =>
      eapply writeValues_Ok in Hw; [|simpl; apply lookup_insert_eq];
      rewrite !undisturbed, Hw
  end. simpl. rewrite append_nil_l.
  rewrite insert_insert_eq. apply lookup_insert_eq.
Qed.

Lemma hashFile_Ok (path : string) (w w' : World) (h : string) :
  hashFile env path w = (Ok h, w') ->
  exists content, files w !! path = Some content
    /\ h = hexEncode (sha256 env content).
Proof.
  unfold hashFile, osOpen. intros H. ok_inv. destruct a as [f content].
  ok_inv. rewrite undisturbed in Hc.
  destruct (files w !! path) as [c|] eqn:Hfile; [|discriminate].
  ok_inv. exists content. split; reflexivity.
Qed.

Hypothesis no_fault : forall t, io_fault env t = false.

Lemma writeValues_total (path : string) (values : list string) (w : World) :
  exists w', writeValues env path values w = (Ok tt, w').
Proof.
  revert w. induction values as [|v rest IH]; intros w; simpl.
  - eexists. reflexivity.
  - unfold fileWrite at 1 2.
    erewrite bind_eq; [|erewrite bind_eq; [reflexivity|now apply io_quiet]].
    erewrite bind_eq; [|erewrite bind_eq; [reflexivity|now apply io_quiet]].
    apply IH.
Qed.

Lemma writeChunkFile_total (path : string) (values : list string) (w : World) :
  exists w', writeChunkFile env path values w = (Ok tt, w').
Proof.
  unfold writeChunkFile, osMkdirAll, osCreate, defer, bind, io.
  rewrite ?no_fault. simpl. rewrite ?no_fault. simpl.
  match goal with |- context [writeValues env path values ?w0] =>
    destruct (writeValues_total path values w0) as [w1 ->] end.
  rewrite ?no_fault. simpl. rewrite ?no_fault. eexists. reflexivity.
Qed.

Lemma hashFile_total (path content : string) (w : World) :
  files w !! path = Some content ->
  exists w', hashFile env path w = (Ok (hexEncode (sha256 env content)), w').
Proof.
  intros Hfile. unfold hashFile, osOpen.
  erewrite bind_eq; [|erewrite bind_eq; [|now apply io_quiet]]; cycle 1.
  { simpl. rewrite undisturbed, Hfile. reflexivity. }
  unfold defer. erewrite bind_eq; [|now apply io_quiet].
  eexists. reflexivity.
Qed.

End RoundTrip.

(** C3. Writing a list of identifiers with [writeChunkFile] and hashing
    the persisted bytes with [hashFile] gives the hash [hashStrings]
    computes over the list in memory: whenever both calls return, and
    both do return when no storage operation fails. *)
Theorem chunk_hash_roundtrip (env : Env) (path : string) (values : list string)
    (w : World) :
  (forall t f, disturb env t f = f) ->
  (forall w1 h w2,
      writeChunkFile env path values w = (Ok tt, w1) ->
      hashFile env path w1 = (Ok h, w2) ->
      h = hashStrings env values)
  /\ ((forall t, io_fault env t = false) ->
      exists w1 w2,
        writeChunkFile env path values w = (Ok tt, w1)
        /\ hashFile env path w1 = (Ok (hashStrings env values), w2)).
Proof.
  intros Hund. split.
  - intros w1 h w2 Hw Hh.
    apply (writeChunkFile_Ok env Hund) in Hw.
    apply (hashFile_Ok env Hund) in Hh as (content & Hfile & ->).
    rewrite (hashStrings_bytes env). congruence.
  - intros Hio.
    destruct (writeChunkFile_total env Hio path values w) as [w1 Hw].
    pose proof (writeChunkFile_Ok env Hund _ _ _ _ _ Hw) as Hfile.
    destruct (hashFile_total env Hund Hio _ _ _ Hfile) as [w2 Hh].
    exists w1, w2. split; [exact Hw|]. now rewrite (hashStrings_bytes env).
Qed.

Lemma chunk_hash_roundtrip_witness :
  exists w1 w2,
    writeChunkFile (scriptedEnv [] (listHeap false)) "/tmp/c.dat"
      ["a"; "b"]%string initialWorld = (Ok tt, w1)
    /\ hashFile (scriptedEnv [] (listHeap false)) "/tmp/c.dat" w1
       = (Ok (hashStrings (scriptedEnv [] (listHeap false)) ["a"; "b"]%string), w2).
Proof.
  exact (proj2 (chunk_hash_roundtrip (scriptedEnv [] (listHeap false))
                  "/tmp/c.dat" ["a"; "b"]%string initialWorld
                  (fun _ _ => eq_refl)) (fun _ => eq_refl)).
Defined.

(** ** Counting distinct values *)

Lemma distinctCount_perm (l l' : list string) :
  l ≡ₚ l' -> distinctCount l = distinctCount l'.
Proof.
  intros Hp. unfold distinctCount. apply Permutation_length.
  apply NoDup_Permutation; try apply NoDup_remove_dups.
  intros x. rewrite !elem_of_remove_dups. now rewrite Hp.
Qed.

Lemma distinctCount_cons (v : string) (l : list string) :
  distinctCount (v :: l) = S (distinctCount (filter (fun x => x <> v) l)).
Proof.
  unfold distinctCount.
  change (S (length (remove_dups (filter (fun x => x <> v) l))))
    with (length (v :: remove_dups (filter (fun x => x <> v) l))).
  apply Permutation_length. apply NoDup_Permutation.
  - apply NoDup_remove_dups.
  - constructor; [|apply NoDup_remove_dups].
    rewrite elem_of_remove_dups, list_elem_of_filter. tauto.
  - intros x. rewrite elem_of_remove_dups, !elem_of_cons, elem_of_remove_dups,
      list_elem_of_filter.
    destruct (decide (x = v)); tauto.
Qed.

Lemma distinctCount_le (l : list string) : (distinctCount l <= length l)%nat.
Proof.
  unfold distinctCount. induction l as [|x l IH]; simpl; [lia|].
  case_decide; simpl; lia.
Qed.

Lemma filter_ne_id (prev : string) (l : list string) :
  Forall (fun x => x <> prev) l -> filter (fun x => x <> prev) l = l.
Proof.
  induction 1 as [|x l Hx _ IH]; [reflexivity|].
  rewrite filter_cons_True by exact Hx. now rewrite IH.
Qed.

(** a value above the low-water mark is counted as new *)
Lemma freshCount_new (hasPrev : bool) (prev v : string) (l l' : list string) :
  l ≡ₚ v :: l' ->
  Forall (GoString.le v) l' ->
  (hasPrev = true -> GoString.le prev v) ->
  (hasPrev && String.eqb v prev = false) ->
  freshCount hasPrev prev l = S (freshCount true v l').
Proof.
  intros Hp Hmin Hprev Hne. unfold freshCount.
  assert (Hall : hasPrev = true -> Forall (fun x => x <> prev) (v :: l')).
  { intros ->. simpl in Hne. apply String.eqb_neq in Hne.
    specialize (Hprev eq_refl).
    assert (Hlt : GoString.lt prev v)
      by (apply GoStringFacts.le_neq_lt; [exact Hprev|congruence]).
    constructor; [exact Hne|].
    eapply Forall_impl; [exact Hmin|]. intros x Hx ->.
    eapply GoStringFacts.lt_not_le; eauto. }
  destruct hasPrev.
  - rewrite (distinctCount_perm _ (filter (fun x => x <> prev) (v :: l')))
      by (now rewrite Hp).
    rewrite filter_ne_id by auto. apply distinctCount_cons.
  - rewrite (distinctCount_perm _ _ Hp). apply distinctCount_cons.
Qed.

(** a value equal to the low-water mark is not counted again *)
Lemma freshCount_dup (prev : string) (l l' : list string) :
  l ≡ₚ prev :: l' -> freshCount true prev l = freshCount true prev l'.
Proof.
  intros Hp. unfold freshCount.
  rewrite (distinctCount_perm _ (filter (fun x => x <> prev) (prev :: l')))
    by (now rewrite Hp).
  rewrite filter_cons_False by tauto. reflexivity.
Qed.

(** ** Machine arithmetic *)

Lemma wrap64_small (z : Z) : isInt64 z -> wrap64 z = z.
Proof.
  unfold isInt64, wrap64. intros H. rewrite Z.mod_small; lia.
Qed.

Lemma wrap64_range (z : Z) : isInt64 (wrap64 z).
Proof.
  unfold isInt64, wrap64.
  pose proof (Z.mod_pos_bound (z + 2 ^ 63) (2 ^ 64) ltac:(lia)). lia.
Qed.

Lemma wrap64_add_l (a b : Z) : wrap64 (wrap64 a + b) = wrap64 (a + b).
Proof.
  unfold wrap64.
  replace ((a + 2 ^ 63) mod 2 ^ 64 - 2 ^ 63 + b + 2 ^ 63)
    with ((a + 2 ^ 63) mod 2 ^ 64 + b) by lia.
  rewrite Zplus_mod_idemp_l. f_equal. f_equal. lia.
Qed.

(** ** The scanner *)

Lemma splitLine_cons (c : ascii) (s : string) :
  splitLine (String c s)
  = if Ascii.eqb c (ascii_of_N 10) then (EmptyString, Some s)
    else let '(line, r) := splitLine s in (String c line, r).
Proof. reflexivity. Qed.

Lemma splitLine_length (s line : string) (r : option string) :
  splitLine s = (line, r) ->
  String.length s
  = (String.length line
     + match r with Some rest => S (String.length rest) | None => 0 end)%nat.
Proof.
  revert line r. induction s as [|c s IH]; intros line r.
  - intros [= <- <-]. reflexivity.
  - rewrite splitLine_cons. destruct (Ascii.eqb c (ascii_of_N 10)).
    + intros [= <- <-]. reflexivity.
    + destruct (splitLine s) as [line' r'] eqn:E. intros [= <- <-].
      simpl. now rewrite (IH _ _ eq_refl).
Qed.

Lemma scanLine_token_length (s token rest : string) :
  scanLine s = ScanToken token rest ->
  (String.length rest < String.length s)%nat.
Proof.
  unfold scanLine. destruct s as [|c s]; [discriminate|].
  destruct (splitLine (String c s)) as [line r] eqn:E.
  destruct (_ <=? _)%N; [discriminate|]. intros [= _ <-].
  apply splitLine_length in E. destruct r as [rest|]; simpl in *; lia.
Qed.

Lemma scanLine_EOF (s : string) : scanLine s = ScanEOF <-> s = ""%string.
Proof.
  unfold scanLine. destruct s as [|c s]; [tauto|].
  destruct (splitLine (String c s)) as [line r].
  destruct (_ <=? _)%N; split; discriminate.
Qed.

Lemma scanAll_fuel (n m : nat) (s : string) :
  (String.length s < n)%nat -> (String.length s < m)%nat ->
  scanAll n s = scanAll m s.
Proof.
  revert m s. induction n as [|n IH]; intros m s Hn Hm; [lia|].
  destruct m as [|m]; [lia|]. simpl.
  destruct (scanLine s) as [token rest| |e] eqn:E; try reflexivity.
  apply scanLine_token_length in E. f_equal. apply IH; lia.
Qed.

Lemma fileRecords_token (s token rest : string) :
  scanLine s = ScanToken token rest ->
  fileRecords s = cons token <$> fileRecords rest.
Proof.
  intros E. unfold fileRecords at 1. simpl. rewrite E.
  f_equal. apply scanLine_token_length in E.
  unfold fileRecords. apply scanAll_fuel; lia.
Qed.

Lemma fileRecords_nil (s : string) : fileRecords s = Some [] <-> s = ""%string.
Proof.
  unfold fileRecords. simpl. split.
  - destruct (scanLine s) as [token rest| |e] eqn:E.
    + destruct (scanAll _ rest); discriminate.
    + intros _. now apply scanLine_EOF.
    + discriminate.
  - intros ->. reflexivity.
Qed.

Lemma fileRecords_scanLine (s : string) (recs : list string) :
  fileRecords s = Some recs ->
  match recs with
  | [] => scanLine s = ScanEOF
  | v :: recs' =>
      exists rest, scanLine s = ScanToken v rest
        /\ fileRecords rest = Some recs'
        /\ (String.length rest < String.length s)%nat
  end.
Proof.
  intros H. destruct (scanLine s) as [token rest| |e] eqn:E.
  - rewrite (fileRecords_token _ _ _ E) in H.
    destruct (fileRecords rest) as [recs'|] eqn:E'; [|discriminate].
    injection H as <-. exists rest. split; [reflexivity|]. split; [exact E'|].
    eapply scanLine_token_length; eauto.
  - apply scanLine_EOF in E as ->. now injection H as <-.
  - unfold fileRecords in H. simpl in H. now rewrite E in H.
Qed.

Lemma splitLine_append (v rest : string) :
  splitLine v = (v, None) -> splitLine (v +:+ newline +:+ rest) = (v, Some rest).
Proof.
  induction v as [|c v IH]; [reflexivity|].
  rewrite append_cons, !splitLine_cons.
  destruct (Ascii.eqb c (ascii_of_N 10)); [discriminate|].
  destruct (splitLine v) as [line r]. intros [= -> ->]. now rewrite IH.
Qed.

Lemma fileRecords_chunkBytes (values : list string) :
  Forall lineSafe values -> fileRecords (chunkBytes values) = Some values.
Proof.
  induction 1 as [|v rest (Hs & Hcr & Hlen) _ IH]; [reflexivity|].
  simpl chunkBytes. erewrite fileRecords_token; [now rewrite IH|].
  unfold scanLine. rewrite (splitLine_append _ _ Hs).
  destruct (v +:+ newline +:+ chunkBytes rest) eqn:E.
  { destruct v; discriminate. }
  apply N.leb_gt in Hlen. rewrite Hlen, Hcr. reflexivity.
Qed.

(** ** Cursors in a quiet environment *)

Section QuietCursors.
Variable env : Env.
Hypothesis Hq : quiet env.

Lemma files_tick_quiet (w : World) : files (tick env w) = files w.
Proof. apply (quiet_storage env Hq). Qed.

Lemma ctxPoll_quiet (w : World) :
  ctxPoll env w = (Ok false, emit (EvPoll false) (tick env w)).
Proof. unfold ctxPoll. now rewrite (quiet_ctx env Hq). Qed.

Lemma io_ok_quiet (op path : string) (w : World) :
  io env op path w = (Ok tt, tick env w).
Proof. apply io_quiet, (quiet_io env Hq). Qed.

Lemma advance_live (r : chunkReader) (recs : list string) :
  eof r = false ->
  fileRecords (scanner r) = Some recs ->
  exists r',
    (forall w, advance env r w = (Ok r', tick env w))
    /\ file r' = file r
    /\ match recs with
       | [] => eof r' = true
       | v :: rest =>
           eof r' = false /\ value r' = v
           /\ fileRecords (scanner r') = Some rest
           /\ (String.length (scanner r') < String.length (scanner r))%nat
       end.
Proof.
  intros Heof Hrecs. unfold advance. rewrite Heof.
  apply fileRecords_scanLine in Hrecs. destruct recs as [|v rest].
  - rewrite Hrecs. exists (setReader r (scanner r) ""%string true).
    split; [|auto].
    intros w. now rewrite (bind_eq _ _ _ _ _ (io_ok_quiet _ _ w)).
  - destruct Hrecs as (s' & -> & Hrest & Hlen).
    exists (setReader r s' v false). split; [|simpl; auto].
    intros w. now rewrite (bind_eq _ _ _ _ _ (io_ok_quiet _ _ w)).
Qed.

Lemma files_closeAll (readers : list chunkReader) (w : World) :
  files (closeAll readers w) = files w.
Proof.
  revert w. induction readers as [|r readers IH]; intros w; simpl; [reflexivity|].
  unfold closeAll in IH. now rewrite IH.
Qed.

Lemma newChunkReader_quiet (m : chunkMeta) (content : string)
    (recs : list string) (w : World) :
  files w !! Path m = Some content ->
  fileRecords content = Some recs ->
  exists r w',
    newChunkReader env m w = (Ok r, w')
    /\ files w' = files w
    /\ match recs with
       | [] => eof r = true
       | _ :: _ => liveReader r recs
       end.
Proof.
  intros Hfile Hrecs. unfold newChunkReader, osOpen, bind, io.
  rewrite (quiet_io env Hq). simpl.
  rewrite (quiet_storage env Hq), Hfile. simpl.
  match goal with |- context [advance env ?r ?w0] =>
    destruct (advance_live r recs eq_refl Hrecs) as (r' & Hadv & Hf & Hr);
    rewrite (Hadv w0)
  end.
  exists r'. eexists. split; [reflexivity|]. split.
  - simpl. now rewrite !(quiet_storage env Hq).
  - destruct recs as [|v rest]; [exact Hr|].
    destruct Hr as (He & Hv & Hs & _). split; [exact He|].
    exists rest. split; [now rewrite Hv|exact Hs].
Qed.

Lemma openReaders_quiet (store : gmap string string) (chunks : list chunkMeta)
    (recss : list (list string)) :
  Forall2 (holdsRecords store) chunks recss ->
  forall readers w, files w = store ->
  exists readers' w',
    openReaders env chunks readers w = (Ok (readers ++ readers'), w')
    /\ files w' = store
    /\ Forall2 liveReader readers' (filter (fun recs => recs <> []) recss).
Proof.
  induction 1 as [|m recs chunks recss (content & Hfile & Hrecs) _ IH];
    intros readers w Hw; simpl.
  - exists [], w. rewrite app_nil_r. repeat split; auto.
  - rewrite <- Hw in Hfile.
    destruct (newChunkReader_quiet m content recs w Hfile Hrecs)
      as (r & w1 & -> & Hfiles & Hr).
    destruct recs as [|v rest].
    + rewrite Hr. rewrite filter_cons_False by tauto.
      apply IH. simpl. congruence.
    + destruct Hr as [He Hlive]. rewrite He.
      rewrite filter_cons_True by discriminate.
      destruct (IH (readers ++ [r]) w1 ltac:(congruence))
        as (readers' & w' & Hopen & Hfiles' & Hall).
      exists (r :: readers'), w'. rewrite Hopen, <- app_assoc.
      repeat split; auto. constructor; [|exact Hall]. split; auto.
Qed.

End QuietCursors.

(** ** The merge loop *)

#[local] Instance lt_transitive : Transitive GoString.lt.
Proof. intros a b c. apply GoStringFacts.lt_trans. Qed.

Lemma sorted_lt_head (v : string) (rest : list string) :
  Sorted GoString.lt (v :: rest) -> Forall (GoString.lt v) rest.
Proof. intros H. apply Sorted_extends in H; [exact H|apply lt_transitive]. Qed.

Lemma sorted_distinct_lt (l : list string) :
  sortedStrings l -> adjacentDistinct l -> Sorted GoString.lt l.
Proof.
  unfold sortedStrings. induction 1 as [|v l Hs IH Hhd]; intros Hadj; [constructor|].
  destruct l as [|x l]; [repeat constructor|].
  destruct Hadj as [Hne Hadj]. inversion Hhd; subst.
  constructor; [now apply IH|]. constructor.
  now apply GoStringFacts.le_neq_lt.
Qed.

Lemma pendingRecords_cons (readers : list chunkReader) (e : heapEntry)
    (h : list heapEntry) :
  pendingRecords (e :: h) readers
  = entryRecords readers e ++ pendingRecords h readers.
Proof. reflexivity. Qed.

Lemma pendingWork_cons (readers : list chunkReader) (e : heapEntry)
    (h : list heapEntry) :
  pendingWork (e :: h) readers
  = (match readers !! entryReader e with
     | Some r => S (String.length (scanner r))
     | None => 1
     end + pendingWork h readers)%nat.
Proof. reflexivity. Qed.

Lemma pendingRecords_perm (readers : list chunkReader) (h h' : list heapEntry) :
  h ≡ₚ h' -> pendingRecords h readers ≡ₚ pendingRecords h' readers.
Proof.
  unfold pendingRecords. induction 1 as [|e h h' _ IH|e e' h|h h' h'' _ IH1 _ IH2]; csimpl.
  - reflexivity.
  - now rewrite IH.
  - rewrite !app_assoc. f_equiv. apply Permutation_app_comm.
  - now rewrite IH1.
Qed.

Lemma pendingWork_perm (readers : list chunkReader) (h h' : list heapEntry) :
  h ≡ₚ h' -> pendingWork h readers = pendingWork h' readers.
Proof.
  unfold pendingWork. induction 1 as [|e h h' _ IH|e e' h|h h' h'' _ IH1 _ IH2]; csimpl; lia.
Qed.

Lemma entryRecords_insert_ne (readers : list chunkReader) (i : nat)
    (r : chunkReader) (e : heapEntry) :
  entryReader e <> i ->
  entryRecords (<[i := r]> readers) e = entryRecords readers e.
Proof.
  intros Hne. unfold entryRecords. now rewrite list_lookup_insert_ne by congruence.
Qed.

Lemma pendingRecords_insert (readers : list chunkReader) (i : nat)
    (r : chunkReader) (h : list heapEntry) :
  i ∉ entryReader <$> h ->
  pendingRecords h (<[i := r]> readers) = pendingRecords h readers.
Proof.
  unfold pendingRecords. induction h as [|e h IH]; intros Hi; csimpl; [reflexivity|].
  rewrite fmap_cons, not_elem_of_cons in Hi. destruct Hi as [Hne Hi].
  rewrite entryRecords_insert_ne by congruence. now rewrite IH.
Qed.

Lemma pendingWork_insert (readers : list chunkReader) (i : nat)
    (r : chunkReader) (h : list heapEntry) :
  i ∉ entryReader <$> h ->
  pendingWork h (<[i := r]> readers) = pendingWork h readers.
Proof.
  unfold pendingWork. induction h as [|e h IH]; intros Hi; csimpl; [reflexivity|].
  rewrite fmap_cons, not_elem_of_cons in Hi. destruct Hi as [Hne Hi].
  rewrite list_lookup_insert_ne by congruence. now rewrite IH.
Qed.

Lemma liveEntry_insert (readers : list chunkReader) (i : nat)
    (r : chunkReader) (h : list heapEntry) :
  i ∉ entryReader <$> h ->
  Forall (liveEntry readers) h -> Forall (liveEntry (<[i := r]> readers)) h.
Proof.
  induction h as [|e h IH]; intros Hi Hl; [constructor|].
  rewrite fmap_cons, not_elem_of_cons in Hi. destruct Hi as [Hne Hi].
  inversion Hl as [|? ? (r0 & rest & H0 & H1) Hl']; subst.
  constructor; [|now apply IH].
  exists r0, rest. rewrite list_lookup_insert_ne by congruence. tauto.
Qed.

Lemma liveEntry_records (readers : list chunkReader) (e : heapEntry) :
  liveEntry readers e ->
  exists rest, entryRecords readers e = entryValue e :: rest
    /\ Forall (GoString.lt (entryValue e)) rest.
Proof.
  intros (r & rest & Hr & He & Hv & Hs & Hsorted).
  exists rest. unfold entryRecords, readerRecords. rewrite Hr, He, Hs, <- Hv.
  split; [reflexivity|]. now apply sorted_lt_head.
Qed.

(** Of the pending records, none is below the value of a minimal entry. *)
Lemma pending_above_min (readers : list chunkReader) (v : string)
    (h : list heapEntry) :
  Forall (liveEntry readers) h ->
  Forall (fun x => GoString.le v (entryValue x)) h ->
  Forall (GoString.le v) (pendingRecords h readers).
Proof.
  unfold pendingRecords. induction h as [|e h IH]; intros Hl Hm; simpl; [constructor|].
  inversion Hl as [|? ? He Hl']; inversion Hm as [|? ? Hv Hm']; subst.
  apply Forall_app. split; [|now apply IH].
  destruct (liveEntry_records _ _ He) as (rest & -> & Hrest).
  constructor; [exact Hv|].
  eapply Forall_impl; [exact Hrest|]. intros x Hx.
  apply GoStringFacts.le_lteq. left. eauto using GoStringFacts.le_lt_trans.
Qed.

Section MergeLoop.
Variable env : Env.
Hypothesis Hq : quiet env.
Variable inv : list heapEntry -> Prop.
Hypothesis Hheap : HeapOk (heapImpl env) inv.

(** One iteration: the entry popped carries a least pending record, and
    what is pending afterwards is the rest. *)
Lemma merge_step (h : list heapEntry) (readers : list chunkReader) :
  mergeInv inv h readers -> h <> [] ->
  exists e h1 r r',
    heap_pop (heapImpl env) h = Some (e, h1)
    /\ readers !! entryReader e = Some r
    /\ (forall w, advance env r w = (Ok r', tick env w))
    /\ let readers' := <[entryReader e := r']> readers in
       let h2 := if eof r' then h1
                 else heap_push (heapImpl env) h1 (entryOf (entryReader e) r') in
       mergeInv inv h2 readers'
       /\ pendingRecords h readers ≡ₚ entryValue e :: pendingRecords h2 readers'
       /\ Forall (GoString.le (entryValue e)) (pendingRecords h2 readers')
       /\ (pendingWork h2 readers' < pendingWork h readers)%nat.
Proof.
  intros (Hi & Hnd & Hlive) Hne.
  destruct (heap_pop_min _ _ Hheap h Hi Hne) as (e & h1 & Hpop & Hperm & Hi1 & Hmin).
  assert (Hlive' : Forall (liveEntry readers) (e :: h1)) by (now rewrite <- Hperm).
  assert (Hnd' : NoDup (entryReader <$> e :: h1)) by (now rewrite <- Hperm).
  rewrite fmap_cons in Hnd'. apply NoDup_cons in Hnd' as [Hfresh Hnd1].
  inversion Hlive' as [|? ? He Hl1]; subst.
  pose proof (pending_above_min _ _ _ Hl1 Hmin) as Habove.
  destruct He as (r & rest & Hr & Heof & Hv & Hs & Hsorted).
  destruct (advance_live env Hq r rest Heof Hs) as (r' & Hadv & _ & Hr').
  exists e, h1, r, r'. split; [exact Hpop|]. split; [exact Hr|]. split; [exact Hadv|].
  assert (Hpend : pendingRecords h readers
                  ≡ₚ (entryValue e :: rest) ++ pendingRecords h1 readers).
  { rewrite (pendingRecords_perm _ _ _ Hperm), pendingRecords_cons.
    unfold entryRecords, readerRecords. now rewrite Hr, Heof, Hs, Hv. }
  assert (Hwork : pendingWork h readers
                  = (S (String.length (scanner r)) + pendingWork h1 readers)%nat).
  { now rewrite (pendingWork_perm _ _ _ Hperm), pendingWork_cons, Hr. }
  assert (Hlt : (entryReader e < length readers)%nat)
    by (eapply lookup_lt_Some; eauto).
  destruct rest as [|v' rest'].
  - rewrite Hr'. simpl.
    rewrite pendingRecords_insert, pendingWork_insert by exact Hfresh.
    repeat split; auto using liveEntry_insert. lia.
  - destruct Hr' as (Heof' & Hv' & Hs' & Hlen). rewrite Heof'. simpl.
    set (e' := entryOf (entryReader e) r').
    set (readers' := <[entryReader e := r']> readers).
    pose proof (heap_push_perm _ _ Hheap h1 e' Hi1) as Hpush.
    assert (He' : liveEntry readers' e').
    { exists r', rest'. unfold readers', e'. simpl.
      rewrite list_lookup_insert_eq by exact Hlt. repeat split; auto.
      rewrite Hv'. now inversion Hsorted. }
    assert (Hpend' : pendingRecords (heap_push (heapImpl env) h1 e') readers'
                     ≡ₚ (v' :: rest') ++ pendingRecords h1 readers).
    { rewrite (pendingRecords_perm _ _ _ Hpush), pendingRecords_cons.
      unfold readers' at 2. rewrite pendingRecords_insert by exact Hfresh.
      unfold entryRecords, readerRecords, readers', e'. simpl.
      rewrite list_lookup_insert_eq by exact Hlt. now rewrite Heof', Hs', Hv'. }
    split; [|split; [|split]].
    + split; [now apply (heap_push_inv _ _ Hheap)|]. split.
      * rewrite Hpush, fmap_cons. now apply NoDup_cons.
      * rewrite Hpush. constructor; [exact He'|].
        now apply liveEntry_insert.
    + rewrite Hpend, Hpend'. reflexivity.
    + rewrite Hpend'. apply Forall_app. split; [|exact Habove].
      rewrite Hv in Hsorted. apply sorted_lt_head in Hsorted.
      eapply Forall_impl; [exact Hsorted|]. intros x Hx.
      apply GoStringFacts.le_lteq. now left.
    + rewrite Hwork, (pendingWork_perm _ _ _ Hpush).
      assert (Hw1 : pendingWork (e' :: h1) readers'
                    = (S (String.length (scanner r')) + pendingWork h1 readers')%nat).
      { rewrite pendingWork_cons. unfold readers' at 1, e'. simpl.
        now rewrite list_lookup_insert_eq by exact Hlt. }
      rewrite Hw1. unfold readers'.
      rewrite pendingWork_insert by exact Hfresh. lia.
Qed.

Variables (verbose : bool) (logInterval : Z).

Lemma mergeLoop_unfold (fuel : nat) (e0 : heapEntry) (h0 : list heapEntry)
    (readers : list chunkReader) (prev : string) (hasPrev : bool)
    (unique duplicates processed : Z) (w : World)
    (e : heapEntry) (h1 : list heapEntry) (r r' : chunkReader) :
  heap_pop (heapImpl env) (e0 :: h0) = Some (e, h1) ->
  readers !! entryReader e = Some r ->
  (forall w, advance env r w = (Ok r', tick env w)) ->
  let dup := hasPrev && String.eqb (entryValue e) prev in
  exists w1,
    files w1 = files w
    /\ mergeLoop env (S fuel) verbose logInterval (e0 :: h0) readers prev hasPrev
         unique duplicates processed w
       = mergeLoop env fuel verbose logInterval
           (if eof r' then h1
            else heap_push (heapImpl env) h1 (entryOf (entryReader e) r'))
           (<[entryReader e := r']> readers)
           (if dup then prev else entryValue e)
           (if dup then hasPrev else true)
           (if dup then unique else add64 unique 1)
           (if dup then add64 duplicates 1 else duplicates)
           (add64 processed 1) w1.
Proof.
  intros Hpop Hr Hadv dup. simpl. unfold bind at 1.
  rewrite (ctxPoll_quiet env Hq). rewrite Hpop. unfold bind at 1. unfold bind at 1.
  destruct (verbose && (0 <? logInterval)
            && (Z.rem (add64 processed 1) logInterval =? 0)); simpl;
    rewrite Hr; unfold bind at 1; rewrite Hadv;
    (eexists; split; [|reflexivity]); simpl;
    now rewrite (quiet_storage env Hq), (quiet_storage env Hq).
Qed.

(** The loop counts every pending value above the low-water mark once as
    unique and every other pending record as a duplicate. *)
Lemma mergeLoop_counts (fuel : nat) :
  forall h readers prev hasPrev unique duplicates processed w,
    mergeInv inv h readers ->
    (hasPrev = true -> Forall (GoString.le prev) (pendingRecords h readers)) ->
    isInt64 unique -> isInt64 duplicates ->
    (pendingWork h readers < fuel)%nat ->
    let pending := pendingRecords h readers in
    let fresh := Z.of_nat (freshCount hasPrev prev pending) in
    exists w',
      mergeLoop env fuel verbose logInterval h readers prev hasPrev
        unique duplicates processed w
      = (Ok (wrap64 (unique + fresh),
             wrap64 (duplicates + (Z.of_nat (length pending) - fresh))), w')
      /\ files w' = files w.
Proof.
  induction fuel as [|fuel IH];
    intros h readers prev hasPrev unique duplicates processed w
      Hinv Hprev Hu Hd Hfuel pending fresh; [lia|].
  destruct h as [|e0 h0].
  - exists w. split; [|reflexivity]. subst pending fresh. simpl.
    unfold freshCount. destruct hasPrev; simpl; unfold ret;
      rewrite !Z.add_0_r, !wrap64_small by assumption; reflexivity.
  - destruct (merge_step _ _ Hinv ltac:(discriminate))
      as (e & h1 & r & r' & Hpop & Hr & Hadv & Hinv' & Hperm & Habove & Hwork).
    destruct (mergeLoop_unfold fuel e0 h0 readers prev hasPrev unique duplicates
                processed w e h1 r r' Hpop Hr Hadv) as (w1 & Hfiles & ->).
    set (h2 := if eof r' then h1
               else heap_push (heapImpl env) h1 (entryOf (entryReader e) r')) in *.
    set (readers' := <[entryReader e := r']> readers) in *.
    assert (Hlen : length pending = S (length (pendingRecords h2 readers')))
      by (subst pending; now rewrite Hperm).
    assert (Hmin : hasPrev = true -> GoString.le prev (entryValue e)).
    { intros Hp. specialize (Hprev Hp). rewrite Hperm in Hprev.
      now inversion Hprev. }
    destruct (hasPrev && String.eqb (entryValue e) prev) eqn:Hdup.
    + apply andb_prop in Hdup as [-> Heq]. apply String.eqb_eq in Heq.
      destruct (IH h2 readers' prev true unique (add64 duplicates 1)
                  (add64 processed 1) w1 Hinv') as (w' & -> & Hfiles').
      * intros _. rewrite <- Heq. exact Habove.
      * exact Hu.
      * apply wrap64_range.
      * lia.
      * exists w'. split; [|congruence].
        subst fresh pending. rewrite Heq in Hperm.
        rewrite (freshCount_dup _ _ _ Hperm).
        rewrite Hlen. unfold add64. rewrite wrap64_add_l.
        f_equal. f_equal. f_equal; f_equal; lia.
    + destruct (IH h2 readers' (entryValue e) true (add64 unique 1) duplicates
                  (add64 processed 1) w1 Hinv') as (w' & -> & Hfiles').
      * intros _. exact Habove.
      * apply wrap64_range.
      * exact Hd.
      * lia.
      * exists w'. split; [|congruence].
        subst fresh pending.
        rewrite (freshCount_new hasPrev prev (entryValue e) _ _ Hperm Habove Hmin Hdup).
        rewrite Hlen. unfold add64. rewrite wrap64_add_l.
        f_equal. f_equal. f_equal; f_equal; lia.
Qed.

End MergeLoop.

(** ** [mergeChunks] in a quiet environment *)

Lemma concat_filter_nonempty (recss : list (list string)) :
  concat (filter (fun recs => recs <> []) recss) = concat recss.
Proof.
  induction recss as [|recs recss IH]; [reflexivity|].
  destruct recs as [|v rest].
  - rewrite filter_cons_False by tauto. exact IH.
  - rewrite filter_cons_True by discriminate. simpl. now rewrite IH.
Qed.

Lemma liveReader_records (r : chunkReader) (recs : list string) :
  liveReader r recs -> readerRecords r = recs.
Proof.
  intros (He & rest & -> & Hs). unfold readerRecords. now rewrite He, Hs.
Qed.

Lemma initial_entries_records (readers : list chunkReader) :
  entryRecords readers <$> imap entryOf readers = readerRecords <$> readers.
Proof.
  apply list_eq. intros i.
  rewrite !list_lookup_fmap, list_lookup_imap.
  destruct (readers !! i) as [r|] eqn:E; simpl; [|reflexivity].
  unfold entryRecords. simpl. now rewrite E.
Qed.

Lemma initial_entries_work (readers : list chunkReader) :
  pendingWork (imap entryOf readers) readers
  = (length readers + sum_list ((fun r => String.length (scanner r)) <$> readers))%nat.
Proof.
  unfold pendingWork.
  assert (H : (fun e => match readers !! entryReader e with
                        | Some r => S (String.length (scanner r))
                        | None => 1%nat
                        end) <$> imap entryOf readers
              = (fun r => S (String.length (scanner r))) <$> readers).
  { apply list_eq. intros i.
    rewrite !list_lookup_fmap, list_lookup_imap.
    destruct (readers !! i) as [r|] eqn:E; simpl; [|reflexivity].
    now rewrite E. }
  rewrite H. clear H. induction readers as [|r readers IH]; csimpl; lia.
Qed.

Lemma initial_entries_NoDup (readers : list chunkReader) :
  NoDup (entryReader <$> imap entryOf readers).
Proof.
  apply NoDup_alt. intros i j x.
  rewrite !list_lookup_fmap, !list_lookup_imap.
  destruct (readers !! i); destruct (readers !! j); simpl; congruence.
Qed.

Lemma initial_entries_live (readers : list chunkReader)
    (recss : list (list string)) :
  Forall2 liveReader readers recss ->
  Forall (Sorted GoString.lt) recss ->
  Forall (liveEntry readers) (imap entryOf readers).
Proof.
  intros Hlive Hsorted. apply Forall_lookup. intros i e.
  rewrite list_lookup_imap.
  destruct (readers !! i) as [r|] eqn:E; [|discriminate]. intros [= <-].
  destruct (Forall2_lookup_l _ _ _ _ _ Hlive E) as (recs & Hrecs & He & rest & -> & Hs).
  exists r, rest. simpl. repeat split; auto.
  eapply Forall_lookup_1 in Hsorted; eauto.
Qed.

Section MergeChunksQuiet.
Variable env : Env.
Hypothesis Hq : quiet env.
Variable inv : list heapEntry -> Prop.
Hypothesis Hheap : HeapOk (heapImpl env) inv.

Lemma mergeChunks_quiet (man : manifest) (verbose : bool) (logInterval : Z)
    (w : World) (recss : list (list string)) :
  Forall2 (holdsRecords (files w)) (manChunks man) recss ->
  Forall (Sorted GoString.lt) recss ->
  concat recss <> [] ->
  let total := Z.of_nat (length (concat recss)) in
  let distinct := Z.of_nat (distinctCount (concat recss)) in
  exists w',
    mergeChunks env man verbose logInterval w
    = (Ok (wrap64 distinct, wrap64 (total - distinct)), w')
    /\ files w' = files w.
Proof.
  intros Hfiles Hsorted Hne total distinct. unfold mergeChunks.
  unfold bind at 1.
  destruct (openReaders_quiet env Hq (files w) _ _ Hfiles [] (emit EvMergeBegin w) eq_refl)
    as (readers & w1 & Hopen & Hfiles1 & Hlive).
  destruct (manChunks man) as [|m0 chunks] eqn:Hchunks.
  { inversion Hfiles; subst. now destruct Hne. }
  change ([] ++ readers) with readers in Hopen.
  unfold bind at 1. rewrite Hopen.
  assert (Hrecords : concat (readerRecords <$> readers) = concat recss).
  { rewrite <- (concat_filter_nonempty recss).
    clear -Hlive. induction Hlive as [|r recs rs rss Hr _ IH]; [reflexivity|].
    csimpl. now rewrite (liveReader_records _ _ Hr), IH. }
  assert (Hbody : forall A (x y : A),
             match readers with [] => x | _ :: _ => y end = y).
  { intros A x y. destruct readers; [now destruct Hne|reflexivity]. }
  rewrite Hbody. clear Hbody.
  set (h0 := heap_init (heapImpl env) (imap entryOf readers)).
  pose proof (heap_init_perm _ _ Hheap (imap entryOf readers)) as Hperm.
  fold h0 in Hperm.
  assert (Hinv : mergeInv inv h0 readers).
  { split; [apply (heap_init_inv _ _ Hheap)|]. split.
    - rewrite Hperm. apply initial_entries_NoDup.
    - rewrite Hperm. eapply initial_entries_live; [exact Hlive|].
      apply Forall_forall. intros x Hx.
      apply list_elem_of_filter in Hx as [_ Hx].
      rewrite Forall_forall in Hsorted. now apply Hsorted. }
  assert (Hpending : pendingRecords h0 readers ≡ₚ concat recss).
  { rewrite (pendingRecords_perm _ _ _ Hperm). unfold pendingRecords.
    now rewrite initial_entries_records, Hrecords. }
  destruct (mergeLoop_counts env Hq inv Hheap verbose logInterval
              (mergeFuel readers) h0 readers ""%string false 0 0 0 w1 Hinv)
    as (w2 & Hloop & Hfiles2).
  - discriminate.
  - unfold isInt64. lia.
  - unfold isInt64. lia.
  - rewrite (pendingWork_perm _ _ _ Hperm), initial_entries_work.
    unfold mergeFuel. lia.
  - unfold defer. rewrite Hloop. eexists. split.
    + unfold freshCount. rewrite (distinctCount_perm _ _ Hpending).
      rewrite (Permutation_length Hpending). simpl. reflexivity.
    + rewrite files_closeAll. congruence.
Qed.

End MergeChunksQuiet.

(** ** The list-based priority queues meet the contract *)

Lemma leb_false_le (a b : string) : String.leb a b = false -> GoString.le b a.
Proof.
  intros H. destruct (GoStringFacts.le_total a b) as [Hab|Hba]; [|exact Hba].
  unfold GoString.le in Hab. congruence.
Qed.

Lemma popMin_spec (preferLast : bool) (h : list heapEntry) :
  h <> [] ->
  exists e h', popMin preferLast h = Some (e, h')
    /\ h ≡ₚ e :: h'
    /\ Forall (fun x => GoString.le (entryValue e) (entryValue x)) h'.
Proof.
  induction h as [|e h IH]; [congruence|]. intros _. simpl.
  destruct h as [|e1 h1].
  { simpl. exists e, []. repeat split; auto. }
  destruct (IH ltac:(discriminate)) as (m & rest & -> & Hperm & Hmin).
  set (pick := if preferLast then String.leb (entryValue m) (entryValue e)
               else String.ltb (entryValue m) (entryValue e)).
  assert (Hpick : if pick then GoString.le (entryValue m) (entryValue e)
                  else GoString.le (entryValue e) (entryValue m)).
  { unfold pick. destruct preferLast.
    - destruct (String.leb _ _) eqn:E; [exact E|now apply leb_false_le].
    - destruct (String.ltb _ _) eqn:E.
      + apply GoStringFacts.le_lteq. now left.
      + now apply GoStringFacts.not_lt_le. }
  destruct pick.
  - exists m, (e :: rest). split; [reflexivity|]. split.
    + rewrite Hperm. apply perm_swap.
    + constructor; [exact Hpick|exact Hmin].
  - exists e, (e1 :: h1). split; [reflexivity|]. split; [reflexivity|].
    rewrite Hperm. constructor; [exact Hpick|].
    eapply Forall_impl; [exact Hmin|]. intros x Hx.
    eauto using GoStringFacts.le_trans.
Qed.

Lemma listHeap_ok (preferLast : bool) :
  HeapOk (listHeap preferLast) (fun _ => True).
Proof.
  constructor; simpl; auto.
  - intros h e _. symmetry. apply Permutation_cons_append.
  - intros h _ Hne.
    destruct (popMin_spec preferLast h Hne) as (e & h' & Hpop & Hperm & Hmin).
    exists e, h'. auto.
Qed.

Lemma listHeap_correct (preferLast : bool) : heapCorrect (listHeap preferLast).
Proof. eexists. apply listHeap_ok. Qed.

Lemma scriptedEnv_quiet (ids : list string) (H : HeapImpl) :
  quiet (scriptedEnv ids H).
Proof. constructor; reflexivity. Qed.

(** ** C1: the counts of the merge *)

(** C1 (amended). For every family of chunks that are sorted in
    non-decreasing order and free of adjacent equal values, that hold at
    least one value between them and fewer than 2^63 in all, and whose
    chunk files the scanner reads back without error as exactly these
    chunks (so every line is shorter than the buffer of 1 MiB): in an
    environment without storage fault, outside change of the files or
    cancellation, and with a priority queue that meets the contract of
    [container/heap], [mergeChunks] returns as unique count the number of
    distinct values across all chunks and as duplicate count the total
    number of values minus that number, whichever entry the priority
    queue pops among equal ones. *)
Theorem mergeChunks_counts_distinct (env : Env) (man : manifest)
    (verbose : bool) (logInterval : Z) (w : World) (chunks : list (list string)) :
  quiet env ->
  heapCorrect (heapImpl env) ->
  Forall2 (holdsRecords (files w)) (manChunks man) chunks ->
  Forall (fun c => sortedStrings c /\ adjacentDistinct c) chunks ->
  concat chunks <> [] ->
  Z.of_nat (length (concat chunks)) < 2 ^ 63 ->
  exists w',
    mergeChunks env man verbose logInterval w
    = (Ok (Z.of_nat (distinctCount (concat chunks)),
           Z.of_nat (length (concat chunks) - distinctCount (concat chunks))),
       w').
Proof.
  intros Hq [inv Hheap] Hfiles Hchunks Hne Hfit.
  destruct (mergeChunks_quiet env Hq inv Hheap man verbose logInterval w chunks
              Hfiles) as (w' & Hmerge & _).
  - eapply Forall_impl; [exact Hchunks|].
    intros c [Hs Ha]. now apply sorted_distinct_lt.
  - exact Hne.
  - exists w'. rewrite Hmerge.
    pose proof (distinctCount_le (concat chunks)) as Hle.
    rewrite !wrap64_small by (unfold isInt64; lia).
    do 3 f_equal. lia.
Qed.

Lemma tieChunks_held :
  Forall2 (holdsRecords (files tieWorld)) (manChunks tieManifest) tieChunks.
Proof.
  repeat constructor; eexists; (split; [reflexivity|vm_compute; reflexivity]).
Qed.

Lemma tieChunks_sorted :
  Forall (fun c => sortedStrings c /\ adjacentDistinct c) tieChunks.
Proof.
  unfold tieChunks, sortedStrings.
  repeat constructor; simpl; try discriminate; auto.
Qed.

Lemma mergeChunks_counts_distinct_witness :
  exists w',
    mergeChunks (scriptedEnv [] (listHeap true)) tieManifest false 0 tieWorld
    = (Ok (2, 1), w').
Proof.
  apply (mergeChunks_counts_distinct (scriptedEnv [] (listHeap true))
           tieManifest false 0 tieWorld tieChunks).
  - apply scriptedEnv_quiet.
  - apply listHeap_correct.
  - exact tieChunks_held.
  - exact tieChunks_sorted.
  - discriminate.
  - reflexivity.
Defined.

(** The counts do not depend on the entry popped among the two "X". *)
Example tie_break_first_or_last :
  fst (mergeChunks (scriptedEnv [] (listHeap false)) tieManifest false 0 tieWorld)
  = Ok (2, 1)
  /\ fst (mergeChunks (scriptedEnv [] (listHeap true)) tieManifest false 0 tieWorld)
     = Ok (2, 1).
Proof. split; vm_compute; reflexivity. Qed.

(** C1 as stated, for every family of chunks, fails on the family of no
    chunks: it is sorted and free of adjacent equal values, and
    [mergeChunks] returns an error instead of the counts 0 and 0. *)
Lemma mergeChunks_empty_family_no_counts :
  ~ (forall (env : Env) (man : manifest) (verbose : bool) (logInterval : Z)
       (w : World) (chunks : list (list string)),
        quiet env ->
        heapCorrect (heapImpl env) ->
        Forall2 (holdsRecords (files w)) (manChunks man) chunks ->
        Forall (fun c => sortedStrings c /\ adjacentDistinct c) chunks ->
        Z.of_nat (length (concat chunks)) < 2 ^ 63 ->
        exists w',
          mergeChunks env man verbose logInterval w
          = (Ok (Z.of_nat (distinctCount (concat chunks)),
                 Z.of_nat (length (concat chunks) - distinctCount (concat chunks))),
             w')).
Proof.
  intros H.
  destruct (H (scriptedEnv [] (listHeap false)) (manifestOf []) false 0
              initialWorld [])
    as [w' Hw].
  - apply scriptedEnv_quiet.
  - apply listHeap_correct.
  - constructor.
  - constructor.
  - reflexivity.
  - discriminate Hw.
Qed.

(** A chunk file that the scanner cannot read, for one a line that does
    not fit the buffer of 1 MiB, makes the merge fail with the error of
    the scanner: the chunk files have to scan for the counts of C1. *)
Lemma mergeChunks_unreadable_chunk (env : Env) (man : manifest) (verbose : bool)
    (logInterval : Z) (w : World) (m : chunkMeta) (rest : list chunkMeta)
    (content : string) (e : error) :
  quiet env ->
  manChunks man = m :: rest ->
  files w !! Path m = Some content ->
  scanLine content = ScanError e ->
  exists w', mergeChunks env man verbose logInterval w = (Err e, w').
Proof.
  intros Hq Hman Hfile Hscan. unfold mergeChunks. unfold bind at 1.
  rewrite Hman. unfold bind at 1. simpl.
  unfold newChunkReader, osOpen, bind, io.
  rewrite (quiet_io env Hq). simpl.
  rewrite (quiet_storage env Hq), Hfile. simpl.
  unfold advance, bind, io. simpl.
  rewrite (quiet_io env Hq), Hscan. simpl. eexists. reflexivity.
Qed.

Example line_of_one_mebibyte_too_long :
  scanLine (string_of_list_ascii (repeat "a"%char (N.to_nat 1048576)) +:+ String (ascii_of_N 10) "")
  = ScanError ErrTooLong.
Proof. vm_compute. reflexivity. Qed.

(** ** Events and handles of the merge, in any environment *)

Lemma scanLine_error (s : string) (e : error) :
  scanLine s = ScanError e -> e = ErrTooLong.
Proof.
  unfold scanLine. destruct s as [|c s]; [discriminate|].
  destruct (splitLine (String c s)) as [line rest].
  destruct (_ <=? _)%N; [|discriminate]. now intros [= <-].
Qed.

Lemma advance_effect (env : Env) (r : chunkReader) (w w' : World)
    (res : outcome chunkReader) :
  advance env r w = (res, w') ->
  trace w' = trace w /\ openFds w' = openFds w /\ nextFd w' = nextFd w
  /\ match res with
     | Ok r' => file r' = file r
     | Err e => e <> ErrCanceled
     | _ => False
     end.
Proof.
  unfold advance. destruct (eof r).
  { intros [= <- <-]. auto. }
  unfold bind, io. destruct (io_fault env (clock w)).
  { intros [= <- <-]. simpl. repeat split; auto; discriminate. }
  destruct (scanLine (scanner r)) as [token rest| |e] eqn:E;
    intros [= <- <-]; simpl; repeat split; auto.
  all: try (apply scanLine_error in E as ->; discriminate).
Qed.

Lemma mergeLoop_effect (env : Env) (verbose : bool) (logInterval : Z) (fuel : nat) :
  forall h readers prev hasPrev unique duplicates processed w res w',
    mergeLoop env fuel verbose logInterval h readers prev hasPrev
      unique duplicates processed w = (res, w') ->
    openFds w' = openFds w
    /\ exists evs c,
         trace w' = rev evs ++ trace w
         /\ mergeTrace c evs
         /\ (c = true <-> res = Err ErrCanceled).
Proof.
  induction fuel as [|fuel IH];
    intros h readers prev hasPrev unique duplicates processed w res w' H;
    simpl in H.
  { injection H as <- <-. split; [reflexivity|].
    exists [], false. repeat split; try constructor; discriminate. }
  destruct h as [|e0 h0].
  { injection H as <- <-. split; [reflexivity|].
    exists [], false. repeat split; try constructor; discriminate. }
  unfold bind at 1, ctxPoll in H.
  destruct (ctx_done env (clock w)) eqn:Hdone.
  { injection H as <- <-. split; [reflexivity|].
    exists [EvPoll true], true. repeat split; auto. constructor. }
  destruct (heap_pop (heapImpl env) (e0 :: h0)) as [[e h1]|].
  2:{ injection H as <- <-. split; [reflexivity|].
      exists [EvPoll false], false. repeat split; try constructor; discriminate. }
  unfold bind at 1 in H. unfold bind at 1 in H.
  set (w1 := emit (EvPop (entryValue e)) (emit (EvPoll false) (tick env w))) in H.
  assert (Hprint : exists w2 evp,
             (if verbose && (0 <? logInterval)
                 && (Z.rem (add64 processed 1) logInterval =? 0)
              then printf else ret tt) w1 = (Ok tt, w2)
             /\ openFds w2 = openFds w
             /\ trace w2 = evp ++ EvPop (entryValue e) :: EvPoll false :: trace w
             /\ (evp = [] \/ evp = [EvPrint])).
  { destruct (_ && _ && _).
    - exists (emit EvPrint w1), [EvPrint]. repeat split; auto.
    - exists w1, []. repeat split; auto. }
  destruct Hprint as (w2 & evp & Hp & Hfd2 & Htr2 & Hevp).
  simpl in H. simpl in Hp. fold w1 in H. rewrite Hp in H.
  destruct (readers !! entryReader e) as [r|].
  2:{ injection H as <- <-. split; [exact Hfd2|].
      exists (EvPoll false :: EvPop (entryValue e) :: rev evp), false.
      split; [simpl; rewrite rev_involutive, <- !app_assoc; exact Htr2|].
      split; [|split; discriminate].
      destruct Hevp as [-> | ->]; simpl;
        [apply mergeTrace_pop|apply mergeTrace_pop_print]; constructor. }
  unfold bind at 1 in H.
  destruct (advance env r w2) as [ra w3] eqn:Hadv.
  apply advance_effect in Hadv as (Htr3 & Hfd3 & _ & Hres).
  destruct ra as [r'|e'| |]; try contradiction.
  - apply IH in H as (Hfd & evs & c & Htr & Hmt & Hc).
    split; [congruence|].
    exists (EvPoll false :: EvPop (entryValue e) :: rev evp ++ evs), c.
    split.
    { rewrite Htr, Htr3, Htr2. simpl.
      rewrite rev_app_distr, rev_involutive, <- !app_assoc. reflexivity. }
    split; [|exact Hc].
    destruct Hevp as [-> | ->]; simpl;
      [apply mergeTrace_pop|apply mergeTrace_pop_print]; exact Hmt.
  - injection H as <- <-. split; [congruence|].
    exists (EvPoll false :: EvPop (entryValue e) :: rev evp), false.
    split; [simpl; rewrite rev_involutive, <- !app_assoc; simpl; congruence|].
    split; [|split; [discriminate|congruence]].
    destruct Hevp as [-> | ->]; simpl;
      [apply mergeTrace_pop|apply mergeTrace_pop_print]; constructor.
Qed.

Lemma closeAll_effect (readers : list chunkReader) (w : World) :
  openFds (closeAll readers w) = openFds w ∖ fdSet readers
  /\ nextFd (closeAll readers w) = nextFd w
  /\ exists closes,
       trace (closeAll readers w) = closes ++ trace w
       /\ Forall closeEvent closes.
Proof.
  unfold closeAll, fdSet. revert w.
  induction readers as [|r readers IH]; intros w; simpl.
  - split; [set_solver|]. split; [reflexivity|]. exists []. auto.
  - destruct (IH (fileClose (file r) w)) as (Hfd & Hnext & closes & Htr & Hcl).
    rewrite Hfd, Hnext, Htr. simpl. split; [set_solver|]. split; [reflexivity|].
    exists (closes ++ [EvClose (file r)]). rewrite <- app_assoc. split; [reflexivity|].
    apply Forall_app. split; [exact Hcl|]. repeat constructor.
Qed.

Lemma newChunkReader_effect (env : Env) (m : chunkMeta) (w w' : World)
    (res : outcome chunkReader) :
  fdsBelow w ->
  newChunkReader env m w = (res, w') ->
  fdsBelow w'
  /\ (exists evs, trace w' = evs ++ trace w /\ Forall cursorEvent evs)
  /\ match res with
     | Ok cr => openFds w' = {[file cr]} ∪ openFds w /\ file cr ∉ openFds w
     | Err e => openFds w' = openFds w /\ e <> ErrCanceled
     | _ => False
     end.
Proof.
  intros Hbelow. unfold newChunkReader, osOpen, bind, io.
  destruct (io_fault env (clock w)).
  { intros [= <- <-]. simpl. split; [exact Hbelow|]. split; [exists []; auto|].
    split; [reflexivity|discriminate]. }
  simpl. destruct (disturb env (clock w) (files w) !! Path m) as [content|].
  2:{ intros [= <- <-]. simpl. split; [exact Hbelow|]. split; [exists []; auto|].
      split; [reflexivity|discriminate]. }
  simpl.
  match goal with |- context [advance env ?r ?w0] =>
    destruct (advance env r w0) as [ra w1] eqn:Hadv end.
  apply advance_effect in Hadv as (Htr & Hfd & Hnext & Hres). simpl in *.
  assert (Hfresh : nextFd w ∉ openFds w).
  { intros Hin. apply Hbelow in Hin. lia. }
  destruct ra as [r'|e| |]; try contradiction; intros [= <- <-].
  - split.
    { intros fd. rewrite Hfd, Hnext. intros Hin.
      apply elem_of_union in Hin as [Hin|Hin].
      - apply elem_of_singleton in Hin. lia.
      - apply Hbelow in Hin. lia. }
    split.
    { exists [EvOpen (Path m) (nextFd w)]. rewrite Htr. repeat constructor. }
    rewrite Hres, Hfd. auto.
  - split.
    { intros fd. simpl. rewrite Hfd, Hnext. intros Hin.
      apply elem_of_difference in Hin as [Hin _].
      apply elem_of_union in Hin as [Hin|Hin].
      - apply elem_of_singleton in Hin. lia.
      - apply Hbelow in Hin. lia. }
    split.
    { exists [EvClose (nextFd w); EvOpen (Path m) (nextFd w)]. simpl.
      rewrite Htr. repeat constructor. }
    simpl. rewrite Hfd. split; [set_solver|exact Hres].
Qed.

Lemma openReaders_effect (env : Env) (base : gset nat) (chunks : list chunkMeta) :
  forall readers w res w',
    fdsBelow w ->
    openFds w = base ∪ fdSet readers ->
    fdSet readers ## base ->
    openReaders env chunks readers w = (res, w') ->
    fdsBelow w'
    /\ (exists evs, trace w' = evs ++ trace w /\ Forall cursorEvent evs)
    /\ match res with
       | Ok readers' => openFds w' = base ∪ fdSet readers' /\ fdSet readers' ## base
       | Err e => openFds w' = base /\ e <> ErrCanceled
       | _ => False
       end.
Proof.
  induction chunks as [|m chunks IH]; intros readers w res w' Hbelow Hfds Hdisj; simpl.
  { intros [= <- <-]. split; [exact Hbelow|]. split; [exists []; auto|]. auto. }
  destruct (newChunkReader env m w) as [rc w1] eqn:Hnew.
  apply (newChunkReader_effect env m w w1 rc Hbelow) in Hnew
    as (Hbelow1 & (evs1 & Htr1 & Hev1) & Hres).
  destruct rc as [cr|e| |]; try contradiction.
  - destruct Hres as [Hfd1 Hfresh]. destruct (eof cr).
    + intros H. apply IH in H as (Hb & (evs & Htr & Hev) & Hr).
      * split; [exact Hb|]. split; [|exact Hr].
        exists (evs ++ EvClose (file cr) :: evs1). simpl in Htr.
        rewrite Htr, Htr1, <- app_assoc. split; [reflexivity|].
        apply Forall_app. split; [exact Hev|]. constructor; [exact I|exact Hev1].
      * intros fd. simpl. intros Hin. apply elem_of_difference in Hin as [Hin _].
        now apply Hbelow1.
      * simpl. rewrite Hfd1. set_solver.
      * exact Hdisj.
    + intros H. apply IH in H as (Hb & (evs & Htr & Hev) & Hr).
      * split; [exact Hb|]. split; [|exact Hr].
        exists (evs ++ evs1). rewrite Htr, Htr1, <- app_assoc. split; [reflexivity|].
        now apply Forall_app.
      * exact Hbelow1.
      * rewrite Hfd1, Hfds. unfold fdSet. rewrite fmap_app, list_to_set_app_L.
        simpl. set_solver.
      * unfold fdSet in *. rewrite fmap_app, list_to_set_app_L. simpl.
        rewrite Hfds in Hfresh. set_solver.
  - destruct Hres as [Hfd1 Hne]. intros [= <- <-].
    destruct (closeAll_effect readers w1) as (Hfd & Hnext & closes & Htr & Hcl).
    split.
    { intros fd. rewrite Hfd, Hnext. intros Hin.
      apply elem_of_difference in Hin as [Hin _]. now apply Hbelow1. }
    split.
    { exists (closes ++ evs1). rewrite Htr, Htr1, <- app_assoc. split; [reflexivity|].
      apply Forall_app. split; [|exact Hev1].
      eapply Forall_impl; [exact Hcl|]. now intros [].  }
    split; [|exact Hne]. rewrite Hfd, Hfd1, Hfds. set_solver.
Qed.

Lemma mergeChunks_effect (env : Env) (man : manifest) (verbose : bool)
    (logInterval : Z) (w w' : World) (res : outcome (Z * Z)) :
  fdsBelow w ->
  mergeChunks env man verbose logInterval w = (res, w') ->
  openFds w' = openFds w
  /\ exists closes evs opens c,
       trace w' = closes ++ rev evs ++ opens ++ EvMergeBegin :: trace w
       /\ Forall closeEvent closes
       /\ mergeTrace c evs
       /\ Forall cursorEvent opens
       /\ (c = true <-> res = Err ErrCanceled).
Proof.
  intros Hbelow. unfold mergeChunks. unfold bind at 1.
  destruct (manChunks man) as [|m0 chunks] eqn:Hchunks.
  { intros [= <- <-]. split; [reflexivity|].
    exists [], [], [], false. repeat split; try constructor; discriminate. }
  rewrite <- Hchunks. clear Hchunks. unfold bind at 1.
  destruct (openReaders env (manChunks man) [] (emit EvMergeBegin w))
    as [ro w1] eqn:Hopen.
  apply (openReaders_effect env (openFds w)) in Hopen
    as (Hbelow1 & (opens & Htr1 & Hev1) & Hres);
    [|exact Hbelow|unfold fdSet; simpl; set_solver|unfold fdSet; simpl; set_solver].
  simpl in Htr1.
  destruct ro as [readers|e| |]; try contradiction.
  2:{ destruct Hres as [Hfd Hne]. intros [= <- <-]. split; [exact Hfd|].
      exists [], [], opens, false. simpl.
      repeat split; try constructor; try discriminate; auto. congruence. }
  destruct Hres as [Hfd1 Hdisj].
  destruct readers as [|r0 readers0] eqn:Hreaders.
  { intros [= <- <-]. split; [rewrite Hfd1; unfold fdSet; simpl; set_solver|].
    exists [], [], opens, false. simpl.
    repeat split; try constructor; try discriminate; auto. }
  rewrite <- Hreaders in *. clear Hreaders. unfold defer.
  match goal with |- context [mergeLoop ?a ?b ?c ?d ?e ?f ?g ?h ?i ?j ?k ?l] =>
    destruct (mergeLoop a b c d e f g h i j k l) as [rl w2] eqn:Hloop end.
  apply mergeLoop_effect in Hloop as (Hfd2 & evs & c & Htr2 & Hmt & Hc).
  intros [= <- <-].
  destruct (closeAll_effect readers w2) as (Hfd3 & _ & closes & Htr3 & Hcl).
  split; [rewrite Hfd3, Hfd2, Hfd1; set_solver|].
  exists closes, evs, opens, c. rewrite Htr3, Htr2, Htr1. auto.
Qed.

(** a result of the tail of [runScheme] comes from a verification that
    passed and a merge that ran to its end *)
Lemma verifyAndMerge_Ok (env : Env) (scheme : string) (cfg : Config)
    (tempDir : string) (st : loopState) (w w' : World) (res : Result) :
  verifyAndMerge env scheme cfg tempDir st w = (Ok res, w') ->
  exists w0,
    verifyChunks env (man st) w = (Ok tt, w0)
    /\ mergeChunks env (man st) (Verbose cfg) (LogInterval cfg) w0
       = (Ok (Unique res, Duplicates res), w')
    /\ totalUniqueSum st = add64 (Unique res) (Duplicates res)
    /\ ChunkUnique res = totalUniqueSum st
    /\ Generated res = totalGenerated st.
Proof.
  unfold verifyAndMerge. intros H. ok_inv.
  repeat match goal with p : (Z * Z)%type |- _ => destruct p end.
  match goal with
  | Hm : mergeChunks _ _ _ _ _ = (Ok (?u, ?d), _) |- _ =>
      destruct (totalUniqueSum st =? add64 u d) eqn:E; simpl in H; [|discriminate]
  end.
  ok_inv. simpl. apply Z.eqb_eq in E.
  repeat match goal with u : unit |- _ => destruct u end. eauto 10.
Qed.

Lemma verifyAndMerge_merge_error (env : Env) (scheme : string) (cfg : Config)
    (tempDir : string) (st : loopState) (w w0 w1 : World) (e : error) :
  verifyChunks env (man st) w = (Ok tt, w0) ->
  mergeChunks env (man st) (Verbose cfg) (LogInterval cfg) w0 = (Err e, w1) ->
  verifyAndMerge env scheme cfg tempDir st w = (Err e, w1).
Proof.
  intros Hv Hm. unfold verifyAndMerge, bind. now rewrite Hv, Hm.
Qed.

(** C9. The merge loop polls the cancellation signal before every pop
    ([mergeTrace]); a poll that finds the context cancelled ends the loop
    before the next pop; [mergeChunks] then returns the cancellation
    error, having closed every cursor it opened; and the tail of
    [runScheme] turns an error of the merge into its own error, so that a
    [Result] only comes from a merge that ran to its end. *)
Theorem merge_cancellation (env : Env) :
  (forall man verbose logInterval w res w',
      fdsBelow w ->
      mergeChunks env man verbose logInterval w = (res, w') ->
      openFds w' = openFds w
      /\ exists closes evs opens c,
           trace w' = closes ++ rev evs ++ opens ++ EvMergeBegin :: trace w
           /\ Forall closeEvent closes
           /\ mergeTrace c evs
           /\ Forall cursorEvent opens
           /\ (c = true <-> res = Err ErrCanceled))
  /\ (forall fuel verbose logInterval e0 h0 readers prev hasPrev
        unique duplicates processed w,
        ctx_done env (clock w) = true ->
        mergeLoop env (S fuel) verbose logInterval (e0 :: h0) readers prev hasPrev
          unique duplicates processed w
        = (Err ErrCanceled, emit (EvPoll true) (tick env w)))
  /\ (forall scheme cfg tempDir st w w0 w1 e,
        verifyChunks env (man st) w = (Ok tt, w0) ->
        mergeChunks env (man st) (Verbose cfg) (LogInterval cfg) w0 = (Err e, w1) ->
        verifyAndMerge env scheme cfg tempDir st w = (Err e, w1))
  /\ (forall scheme cfg tempDir st w w' res,
        verifyAndMerge env scheme cfg tempDir st w = (Ok res, w') ->
        exists w0,
          mergeChunks env (man st) (Verbose cfg) (LogInterval cfg) w0
          = (Ok (Unique res, Duplicates res), w')).
Proof.
  split; [intros; eapply mergeChunks_effect; eauto|].
  split.
  { intros fuel verbose logInterval e0 h0 readers prev hasPrev
      unique duplicates processed w Hdone.
    simpl. unfold bind, ctxPoll. now rewrite Hdone. }
  split; [intros; eapply verifyAndMerge_merge_error; eauto|].
  intros scheme cfg tempDir st w w' res H.
  apply verifyAndMerge_Ok in H as (w0 & _ & Hm & _). eauto.
Qed.

Lemma initialFds_below (store : list (string * string)) : fdsBelow (worldWith store).
Proof. intros fd Hin. simpl in Hin. set_solver. Qed.

(** Cancellation at time 6, which is after the first pop: the merge of
    the two chunks stops at its second poll and closes both cursors. *)
Lemma merge_cancellation_witness :
  let env := cancelledFrom 6 (listHeap false) in
  mergeChunks env tieManifest false 0 tieWorld
  = (Err ErrCanceled, snd (mergeChunks env tieManifest false 0 tieWorld))
  /\ trace (snd (mergeChunks env tieManifest false 0 tieWorld))
     = [EvClose 4; EvClose 3; EvPoll true; EvPop "X"; EvPoll false;
        EvOpen "b.dat" 4; EvOpen "a.dat" 3; EvMergeBegin]%string
  /\ openFds (snd (mergeChunks env tieManifest false 0 tieWorld)) = openFds tieWorld.
Proof.
  intros env.
  split; [vm_compute; reflexivity|]. split; [vm_compute; reflexivity|].
  exact (proj1 (proj1 (merge_cancellation env) tieManifest false 0 tieWorld _ _
                  (initialFds_below _) (surjective_pairing _))).
Defined.

(** ** The merge over chunks in any order *)

Lemma openEntry_insert (readers : list chunkReader) (i : nat)
    (r : chunkReader) (h : list heapEntry) :
  i ∉ entryReader <$> h ->
  Forall (openEntry readers) h -> Forall (openEntry (<[i := r]> readers)) h.
Proof.
  induction h as [|e h IH]; intros Hi Hl; [constructor|].
  rewrite fmap_cons, not_elem_of_cons in Hi. destruct Hi as [Hne Hi].
  inversion Hl as [|? ? (r0 & rest & H0 & H1) Hl']; subst.
  constructor; [|now apply IH].
  exists r0, rest. rewrite list_lookup_insert_ne by congruence. tauto.
Qed.

Lemma popped_app (t1 t2 : list Event) :
  popped (t1 ++ t2) = popped t1 ++ popped t2.
Proof.
  induction t1 as [|ev t1 IH]; [reflexivity|].
  destruct ev; simpl; rewrite IH; reflexivity.
Qed.

Lemma popped_cursor (evs : list Event) :
  Forall cursorEvent evs -> popped evs = [].
Proof.
  induction 1 as [|ev evs Hev _ IH]; [reflexivity|].
  destruct ev; try contradiction; exact IH.
Qed.

Lemma popped_closeAll (readers : list chunkReader) (w : World) :
  popped (trace (closeAll readers w)) = popped (trace w).
Proof.
  unfold closeAll. revert w.
  induction readers as [|r readers IH]; intros w; simpl; [reflexivity|].
  now rewrite IH.
Qed.

Lemma popped_newChunkReader (env : Env) (m : chunkMeta) (w w' : World)
    (res : outcome chunkReader) :
  newChunkReader env m w = (res, w') -> popped (trace w') = popped (trace w).
Proof.
  unfold newChunkReader, osOpen, bind, io.
  destruct (io_fault env (clock w)); [now intros [= <- <-]|].
  simpl. destruct (disturb env (clock w) (files w) !! Path m) as [content|];
    [|now intros [= <- <-]].
  simpl.
  match goal with |- context [advance env ?r ?w0] =>
    destruct (advance env r w0) as [ra w1] eqn:Hadv end.
  apply advance_effect in Hadv as (Htr & _).
  destruct ra; intros [= <- <-]; simpl; now rewrite Htr.
Qed.

Lemma popped_openReaders (env : Env) (chunks : list chunkMeta) :
  forall readers w res w',
    openReaders env chunks readers w = (res, w') ->
    popped (trace w') = popped (trace w).
Proof.
  induction chunks as [|m chunks IH]; intros readers w res w'; simpl.
  { now intros [= <- <-]. }
  destruct (newChunkReader env m w) as [rc w1] eqn:Hnew.
  apply popped_newChunkReader in Hnew.
  destruct rc as [cr|e| |].
  - destruct (eof cr); intros H; apply IH in H; simpl in H; congruence.
  - intros [= <- <-]. now rewrite popped_closeAll.
  - now intros [= <- <-].
  - now intros [= <- <-].
Qed.

Section MergeAnyOrder.
Variable env : Env.
Hypothesis Hq : quiet env.
Variable inv : list heapEntry -> Prop.
Hypothesis Hheap : HeapOk (heapImpl env) inv.

(** One iteration: the entry popped carries a pending record, and what
    is pending afterwards is the rest. *)
Lemma merge_step_any (h : list heapEntry) (readers : list chunkReader) :
  openInv inv h readers -> h <> [] ->
  exists e h1 r r',
    heap_pop (heapImpl env) h = Some (e, h1)
    /\ readers !! entryReader e = Some r
    /\ (forall w, advance env r w = (Ok r', tick env w))
    /\ let readers' := <[entryReader e := r']> readers in
       let h2 := if eof r' then h1
                 else heap_push (heapImpl env) h1 (entryOf (entryReader e) r') in
       openInv inv h2 readers'
       /\ pendingRecords h readers ≡ₚ entryValue e :: pendingRecords h2 readers'
       /\ (pendingWork h2 readers' < pendingWork h readers)%nat.
Proof.
  intros (Hi & Hnd & Hlive) Hne.
  destruct (heap_pop_min _ _ Hheap h Hi Hne) as (e & h1 & Hpop & Hperm & Hi1 & _).
  assert (Hlive' : Forall (openEntry readers) (e :: h1)) by (now rewrite <- Hperm).
  assert (Hnd' : NoDup (entryReader <$> e :: h1)) by (now rewrite <- Hperm).
  rewrite fmap_cons in Hnd'. apply NoDup_cons in Hnd' as [Hfresh Hnd1].
  inversion Hlive' as [|? ? He Hl1]; subst.
  destruct He as (r & rest & Hr & Heof & Hv & Hs).
  destruct (advance_live env Hq r rest Heof Hs) as (r' & Hadv & _ & Hr').
  exists e, h1, r, r'. split; [exact Hpop|]. split; [exact Hr|]. split; [exact Hadv|].
  assert (Hpend : pendingRecords h readers
                  ≡ₚ (entryValue e :: rest) ++ pendingRecords h1 readers).
  { rewrite (pendingRecords_perm _ _ _ Hperm), pendingRecords_cons.
    unfold entryRecords, readerRecords. now rewrite Hr, Heof, Hs, Hv. }
  assert (Hwork : pendingWork h readers
                  = (S (String.length (scanner r)) + pendingWork h1 readers)%nat).
  { now rewrite (pendingWork_perm _ _ _ Hperm), pendingWork_cons, Hr. }
  assert (Hlt : (entryReader e < length readers)%nat)
    by (eapply lookup_lt_Some; eauto).
  destruct rest as [|v' rest'].
  - rewrite Hr'. simpl.
    rewrite pendingRecords_insert, pendingWork_insert by exact Hfresh.
    split; [|split; [exact Hpend|lia]].
    split; [exact Hi1|]. split; [exact Hnd1|]. now apply openEntry_insert.
  - destruct Hr' as (Heof' & Hv' & Hs' & Hlen). rewrite Heof'. simpl.
    set (e' := entryOf (entryReader e) r').
    set (readers' := <[entryReader e := r']> readers).
    pose proof (heap_push_perm _ _ Hheap h1 e' Hi1) as Hpush.
    assert (He' : openEntry readers' e').
    { exists r', rest'. unfold readers', e'. simpl.
      rewrite list_lookup_insert_eq by exact Hlt. repeat split; auto. }
    assert (Hpend' : pendingRecords (heap_push (heapImpl env) h1 e') readers'
                     ≡ₚ (v' :: rest') ++ pendingRecords h1 readers).
    { rewrite (pendingRecords_perm _ _ _ Hpush), pendingRecords_cons.
      unfold readers' at 2. rewrite pendingRecords_insert by exact Hfresh.
      unfold entryRecords, readerRecords, readers', e'. simpl.
      rewrite list_lookup_insert_eq by exact Hlt. now rewrite Heof', Hs', Hv'. }
    split; [|split].
    + split; [now apply (heap_push_inv _ _ Hheap)|]. split.
      * rewrite Hpush, fmap_cons. now apply NoDup_cons.
      * rewrite Hpush. constructor; [exact He'|].
        now apply openEntry_insert.
    + rewrite Hpend, Hpend'. reflexivity.
    + rewrite Hwork, (pendingWork_perm _ _ _ Hpush).
      assert (Hw1 : pendingWork (e' :: h1) readers'
                    = (S (String.length (scanner r')) + pendingWork h1 readers')%nat).
      { rewrite pendingWork_cons. unfold readers' at 1, e'. simpl.
        now rewrite list_lookup_insert_eq by exact Hlt. }
      rewrite Hw1. unfold readers'.
      rewrite pendingWork_insert by exact Hfresh. lia.
Qed.

Variables (verbose : bool) (logInterval : Z).

Lemma mergeLoop_unfold_popped (fuel : nat) (e0 : heapEntry) (h0 : list heapEntry)
    (readers : list chunkReader) (prev : string) (hasPrev : bool)
    (unique duplicates processed : Z) (w : World)
    (e : heapEntry) (h1 : list heapEntry) (r r' : chunkReader) :
  heap_pop (heapImpl env) (e0 :: h0) = Some (e, h1) ->
  readers !! entryReader e = Some r ->
  (forall w, advance env r w = (Ok r', tick env w)) ->
  let dup := hasPrev && String.eqb (entryValue e) prev in
  exists w1,
    popped (trace w1) = entryValue e :: popped (trace w)
    /\ mergeLoop env (S fuel) verbose logInterval (e0 :: h0) readers prev hasPrev
         unique duplicates processed w
       = mergeLoop env fuel verbose logInterval
           (if eof r' then h1
            else heap_push (heapImpl env) h1 (entryOf (entryReader e) r'))
           (<[entryReader e := r']> readers)
           (if dup then prev else entryValue e)
           (if dup then hasPrev else true)
           (if dup then unique else add64 unique 1)
           (if dup then add64 duplicates 1 else duplicates)
           (add64 processed 1) w1.
Proof.
  intros Hpop Hr Hadv dup. simpl. unfold bind at 1.
  rewrite (ctxPoll_quiet env Hq). rewrite Hpop. unfold bind at 1. unfold bind at 1.
  destruct (verbose && (0 <? logInterval)
            && (Z.rem (add64 processed 1) logInterval =? 0)); simpl;
    rewrite Hr; unfold bind at 1; rewrite Hadv;
    (eexists; split; [|reflexivity]); reflexivity.
Qed.

(** The loop pops every pending record once, counting each as unique or
    as a duplicate, and the first of a merge as unique. *)
Lemma mergeLoop_total (fuel : nat) :
  forall h readers prev hasPrev unique duplicates processed w,
    openInv inv h readers ->
    isInt64 unique -> isInt64 duplicates ->
    (pendingWork h readers < fuel)%nat ->
    let pending := pendingRecords h readers in
    exists (a b : nat) w',
      mergeLoop env fuel verbose logInterval h readers prev hasPrev
        unique duplicates processed w
      = (Ok (wrap64 (unique + Z.of_nat a), wrap64 (duplicates + Z.of_nat b)), w')
      /\ (a + b = length pending)%nat
      /\ (hasPrev = false -> pending <> [] -> (1 <= a)%nat)
      /\ popped (trace w') ≡ₚ pending ++ popped (trace w).
Proof.
  induction fuel as [|fuel IH];
    intros h readers prev hasPrev unique duplicates processed w
      Hinv Hu Hd Hfuel pending; [lia|].
  destruct h as [|e0 h0].
  - exists 0%nat, 0%nat, w. subst pending. simpl. unfold ret.
    rewrite !Z.add_0_r, !wrap64_small by assumption.
    split; [reflexivity|]. split; [reflexivity|].
    split; [intros _ H; now destruct H|reflexivity].
  - destruct (merge_step_any _ _ Hinv ltac:(discriminate))
      as (e & h1 & r & r' & Hpop & Hr & Hadv & Hinv' & Hperm & Hwork).
    destruct (mergeLoop_unfold_popped fuel e0 h0 readers prev hasPrev unique
                duplicates processed w e h1 r r' Hpop Hr Hadv) as (w1 & Htr & ->).
    set (h2 := if eof r' then h1
               else heap_push (heapImpl env) h1 (entryOf (entryReader e) r')) in *.
    set (readers' := <[entryReader e := r']> readers) in *.
    assert (Hlen : length pending = S (length (pendingRecords h2 readers')))
      by (subst pending; now rewrite Hperm).
    destruct (hasPrev && String.eqb (entryValue e) prev) eqn:Hdup.
    + apply andb_prop in Hdup as [-> Heq].
      destruct (IH h2 readers' prev true unique (add64 duplicates 1)
                  (add64 processed 1) w1 Hinv' Hu (wrap64_range _) ltac:(lia))
        as (a & b & w' & -> & Hab & _ & Hpops).
      exists a, (S b), w'. split; [|split; [rewrite Hlen, <- Hab; lia|split; [discriminate|]]].
      * unfold add64. rewrite wrap64_add_l. do 4 f_equal. lia.
      * rewrite Hpops, Htr. subst pending. rewrite Hperm.
        simpl. now rewrite Permutation_middle.
    + destruct (IH h2 readers' (entryValue e) true (add64 unique 1) duplicates
                  (add64 processed 1) w1 Hinv' (wrap64_range _) Hd ltac:(lia))
        as (a & b & w' & -> & Hab & _ & Hpops).
      exists (S a), b, w'. split; [|split; [rewrite Hlen, <- Hab; lia|split; [lia|]]].
      * unfold add64. rewrite wrap64_add_l. do 4 f_equal. lia.
      * rewrite Hpops, Htr. subst pending. rewrite Hperm.
        simpl. now rewrite Permutation_middle.
Qed.

Lemma initial_entries_open (readers : list chunkReader)
    (recss : list (list string)) :
  Forall2 liveReader readers recss ->
  Forall (openEntry readers) (imap entryOf readers).
Proof.
  intros Hlive. apply Forall_lookup. intros i e.
  rewrite list_lookup_imap.
  destruct (readers !! i) as [r|] eqn:E; [|discriminate]. intros [= <-].
  destruct (Forall2_lookup_l _ _ _ _ _ Hlive E) as (recs & Hrecs & He & rest & -> & Hs).
  exists r, rest. simpl. repeat split; auto.
Qed.

(** The merge of chunk files of which one at least holds a record: the
    readers are those of the files that hold records, every record of
    theirs is popped once and counted once. *)
Lemma mergeChunks_total (man : manifest) (w : World) (recss : list (list string)) :
  Forall2 (holdsRecords (files w)) (manChunks man) recss ->
  concat recss <> [] ->
  exists readers w1 (a b : nat) w',
    openReaders env (manChunks man) [] (emit EvMergeBegin w) = (Ok readers, w1)
    /\ Forall2 liveReader readers (filter (fun c => c <> []) recss)
    /\ mergeChunks env man verbose logInterval w
       = (Ok (wrap64 (Z.of_nat a), wrap64 (Z.of_nat b)), w')
    /\ (1 <= a)%nat
    /\ (a + b = length (concat recss))%nat
    /\ popped (trace w') ≡ₚ concat recss ++ popped (trace w).
Proof.
  intros Hfiles Hne. unfold mergeChunks. unfold bind at 1.
  destruct (openReaders_quiet env Hq (files w) _ _ Hfiles [] (emit EvMergeBegin w) eq_refl)
    as (readers & w1 & Hopen & Hfiles1 & Hlive).
  change ([] ++ readers) with readers in Hopen.
  exists readers, w1.
  pose proof (popped_openReaders _ _ _ _ _ _ Hopen) as Htr1. simpl in Htr1.
  destruct (manChunks man) as [|m0 chunks] eqn:Hchunks.
  { inversion Hfiles; subst. now destruct Hne. }
  unfold bind at 1. rewrite Hopen.
  assert (Hrecords : concat (readerRecords <$> readers) = concat recss).
  { rewrite <- (concat_filter_nonempty recss).
    clear -Hlive. induction Hlive as [|r recs rs rss Hr _ IH]; [reflexivity|].
    csimpl. now rewrite (liveReader_records _ _ Hr), IH. }
  assert (Hbody : forall A (x y : A),
             match readers with [] => x | _ :: _ => y end = y).
  { intros A x y. destruct readers; [now destruct Hne|reflexivity]. }
  rewrite Hbody. clear Hbody.
  set (h0 := heap_init (heapImpl env) (imap entryOf readers)).
  pose proof (heap_init_perm _ _ Hheap (imap entryOf readers)) as Hperm.
  fold h0 in Hperm.
  assert (Hinv : openInv inv h0 readers).
  { split; [apply (heap_init_inv _ _ Hheap)|]. split.
    - rewrite Hperm. apply initial_entries_NoDup.
    - rewrite Hperm. eapply initial_entries_open; exact Hlive. }
  assert (Hpending : pendingRecords h0 readers ≡ₚ concat recss).
  { rewrite (pendingRecords_perm _ _ _ Hperm). unfold pendingRecords.
    now rewrite initial_entries_records, Hrecords. }
  destruct (mergeLoop_total (mergeFuel readers) h0 readers ""%string false 0 0 0 w1 Hinv)
    as (a & b & w2 & Hloop & Hab & Ha & Hpops).
  - unfold isInt64. lia.
  - unfold isInt64. lia.
  - rewrite (pendingWork_perm _ _ _ Hperm), initial_entries_work.
    unfold mergeFuel. lia.
  - exists a, b. eexists. split; [reflexivity|]. split; [exact Hlive|].
    unfold defer. rewrite Hloop. simpl. split; [reflexivity|].
    split.
    { apply Ha; [reflexivity|]. intros H0. rewrite H0 in Hpending.
      apply Permutation_nil in Hpending. contradiction. }
    split; [now rewrite <- (Permutation_length Hpending)|].
    rewrite popped_closeAll, Hpops, Hpending, Htr1. reflexivity.
Qed.

End MergeAnyOrder.

(** ** C10: manifests without records *)

Lemma mergeChunks_no_chunks (env : Env) (man : manifest) (verbose : bool)
    (logInterval : Z) (w : World) :
  manChunks man = [] ->
  mergeChunks env man verbose logInterval w = (Err ErrNoChunks, emit EvMergeBegin w).
Proof. intros H. unfold mergeChunks. rewrite H. reflexivity. Qed.

Lemma holds_empty_all (store : gmap string string) (chunks : list chunkMeta) :
  Forall (fun m => holdsRecords store m []) chunks ->
  Forall2 (holdsRecords store) chunks (replicate (length chunks) []).
Proof. induction 1; constructor; auto. Qed.

Lemma filter_nonempty_replicate (n : nat) :
  filter (fun recs : list string => recs <> []) (replicate n []) = [].
Proof.
  induction n as [|n IH]; [reflexivity|]. simpl.
  now rewrite filter_cons_False by tauto.
Qed.

(** C10. [mergeChunks] returns an error and no counts when the manifest
    lists no chunk, and when every listed chunk file holds no record.
    When some chunk files hold no record and another does, whatever the
    order of the records in the files, cursors are kept for the files
    that hold records only, and the merge runs over these cursors to its
    end: every record of theirs is popped from the queue exactly once
    and no other value is, and the counts returned are the number of
    records counted unique, which is at least one, and the number
    counted duplicate, which add up to the number of records of the
    files that hold any. *)
Theorem mergeChunks_empty_inputs (env : Env) (man : manifest) (verbose : bool)
    (logInterval : Z) (w : World) :
  (manChunks man = [] ->
   mergeChunks env man verbose logInterval w
   = (Err ErrNoChunks, emit EvMergeBegin w))
  /\ (quiet env ->
      manChunks man <> [] ->
      Forall (fun m => holdsRecords (files w) m []) (manChunks man) ->
      exists w',
        mergeChunks env man verbose logInterval w = (Err ErrAllChunksEmpty, w'))
  /\ (quiet env ->
      heapCorrect (heapImpl env) ->
      forall chunks,
        Forall2 (holdsRecords (files w)) (manChunks man) chunks ->
        concat chunks <> [] ->
        let remaining := filter (fun c => c <> []) chunks in
        exists readers w1 (unique duplicates : nat) w',
          openReaders env (manChunks man) [] (emit EvMergeBegin w)
          = (Ok readers, w1)
          /\ Forall2 liveReader readers remaining
          /\ mergeChunks env man verbose logInterval w
             = (Ok (wrap64 (Z.of_nat unique), wrap64 (Z.of_nat duplicates)), w')
          /\ (1 <= unique)%nat
          /\ (unique + duplicates = length (concat remaining))%nat
          /\ popped (trace w') ≡ₚ concat remaining ++ popped (trace w)).
Proof.
  split; [apply mergeChunks_no_chunks|]. split.
  - intros Hq Hne Hall. apply holds_empty_all in Hall.
    destruct (openReaders_quiet env Hq (files w) _ _ Hall []
                (emit EvMergeBegin w) eq_refl)
      as (readers & w1 & Hopen & _ & Hlive).
    rewrite filter_nonempty_replicate in Hlive. inversion Hlive; subst.
    unfold mergeChunks. unfold bind at 1.
    destruct (manChunks man) as [|m0 chunks]; [congruence|].
    unfold bind. rewrite Hopen. eexists. reflexivity.
  - intros Hq [inv Hheap] chunks Hfiles Hne remaining. subst remaining.
    rewrite concat_filter_nonempty.
    exact (mergeChunks_total env Hq inv Hheap verbose logInterval man w chunks
             Hfiles Hne).
Qed.

Lemma gapChunks_held :
  Forall2 (holdsRecords (files gapWorld)) (manChunks gapManifest) gapChunks.
Proof.
  repeat constructor; eexists; (split; [reflexivity|vm_compute; reflexivity]).
Qed.

Lemma mergeChunks_empty_inputs_witness :
  exists readers w1 (unique duplicates : nat) w',
    openReaders (scriptedEnv [] (listHeap false)) (manChunks gapManifest) []
      (emit EvMergeBegin gapWorld) = (Ok readers, w1)
    /\ Forall2 liveReader readers [["X"; "Y"]; ["X"]]%string
    /\ mergeChunks (scriptedEnv [] (listHeap false)) gapManifest false 0 gapWorld
       = (Ok (wrap64 (Z.of_nat unique), wrap64 (Z.of_nat duplicates)), w')
    /\ (1 <= unique)%nat
    /\ (unique + duplicates = 3)%nat
    /\ popped (trace w') ≡ₚ ["X"; "Y"; "X"]%string ++ popped (trace gapWorld).
Proof.
  exact (proj2 (proj2 (mergeChunks_empty_inputs (scriptedEnv [] (listHeap false))
                         gapManifest false 0 gapWorld))
           (scriptedEnv_quiet _ _) (listHeap_correct _) gapChunks
           gapChunks_held ltac:(discriminate)).
Defined.

(** ** The chunk loop of [runScheme] *)

Lemma generateIDs_length (env : Env) (g : Generator) (n : nat) :
  forall chunkIDs w ids w',
    generateIDs env g n chunkIDs w = (Ok ids, w') ->
    length ids = (length chunkIDs + n)%nat.
Proof.
  induction n as [|n IH]; intros chunkIDs w ids w' H; simpl in H.
  - unfold ret in H. injection H as <- <-. lia.
  - unfold bind, generate in H. apply IH in H. rewrite length_app in H. simpl in H. lia.
Qed.

Lemma insertString_length (v : string) (l : list string) :
  length (insertString v l) = S (length l).
Proof.
  induction l as [|x l IH]; simpl; [reflexivity|].
  destruct (String.leb v x); simpl; lia.
Qed.

Lemma sortStrings_length (l : list string) : length (sortStrings l) = length l.
Proof.
  unfold sortStrings. induction l as [|x l IH]; simpl; [reflexivity|].
  rewrite insertString_length. lia.
Qed.

Lemma compact_length (prev : string) (l : list string) :
  (length (compact prev l) <= length l)%nat.
Proof.
  revert prev. induction l as [|v l IH]; intros prev; simpl; [lia|].
  destruct (String.eqb v prev); simpl; [specialize (IH prev)|specialize (IH v)]; lia.
Qed.

Lemma dedupeSorted_length (l : list string) :
  (length (dedupeSorted l) <= length l)%nat.
Proof.
  rewrite dedupeSorted_dedupeList. destruct l as [|v l]; simpl; [lia|].
  pose proof (compact_length v l). lia.
Qed.

Lemma sumUniqueCount_app (chunks : list chunkMeta) (m : chunkMeta) :
  sumUniqueCount (chunks ++ [m]) = sumUniqueCount chunks + UniqueCount m.
Proof.
  unfold sumUniqueCount. induction chunks as [|c chunks IH]; simpl; lia.
Qed.

Lemma sumOriginalCount_app (chunks : list chunkMeta) (m : chunkMeta) :
  sumOriginalCount (chunks ++ [m]) = sumOriginalCount chunks + OriginalCount m.
Proof.
  unfold sumOriginalCount. induction chunks as [|c chunks IH]; simpl; lia.
Qed.

Lemma minInt64_le (a b : Z) : minInt64 a b <= a /\ minInt64 a b <= b.
Proof. unfold minInt64. destruct (a <? b) eqn:E; lia. Qed.

(** When the chunk loop returns, it has generated the whole scale. *)
Lemma chunkLoop_Ok (env : Env) (scheme : string) (cfg : Config)
    (gen : Generator) (tempDir : string) (fuel : nat) :
  Scale cfg < 2 ^ 63 ->
  forall st w st' w',
    loopInv cfg st ->
    chunkLoop env fuel scheme cfg gen tempDir st w = (Ok st', w') ->
    loopInv cfg st' /\ totalGenerated st' = Scale cfg.
Proof.
  intros Hscale. induction fuel as [|fuel IH]; intros st w st' w' Hinv H; simpl in H.
  { discriminate. }
  destruct (totalGenerated st <? Scale cfg) eqn:Hlt.
  2:{ unfold ret in H. injection H as <- <-. split; [exact Hinv|].
      destruct Hinv as [Hg _]. lia. }
  apply Z.ltb_lt in Hlt. destruct Hinv as (Hg & Hu & Hsu & Hso).
  bind_inv H. destruct a; [unfold fail in H; discriminate|].
  set (chunkTarget := minInt64 (ChunkSize cfg) (sub64 (Scale cfg) (totalGenerated st))) in *.
  bind_inv H.
  destruct (chunkTarget >? maxInt); [unfold fail in H; discriminate|].
  destruct (chunkTarget <? 0) eqn:Hneg; [discriminate|].
  apply Z.ltb_ge in Hneg.
  bind_inv H. rename a0 into chunkIDs.
  apply generateIDs_length in Hc1. simpl in Hc1.
  set (unique := dedupeSorted (sortStrings chunkIDs)) in *.
  assert (Hlen : Z.of_nat (length unique) <= chunkTarget).
  { pose proof (dedupeSorted_length (sortStrings chunkIDs)) as Hd.
    rewrite sortStrings_length in Hd. fold unique in Hd. lia. }
  assert (Hsub : sub64 (Scale cfg) (totalGenerated st) = Scale cfg - totalGenerated st).
  { apply wrap64_small. unfold isInt64. lia. }
  assert (Htarget : chunkTarget <= Scale cfg - totalGenerated st).
  { unfold chunkTarget. rewrite Hsub. apply minInt64_le. }
  bind_inv H. bind_inv H.
  destruct (negb _); [unfold fail in H; discriminate|].
  bind_inv H. bind_inv H. bind_inv H.
  apply IH in H; [exact H|]. unfold loopInv, appendChunk. simpl.
  unfold add64. rewrite !wrap64_small by (unfold isInt64; lia).
  rewrite sumUniqueCount_app, sumOriginalCount_app. simpl.
  repeat split; lia.
Qed.

Lemma initialLoopState_inv (scheme : string) (cfg : Config) :
  0 <= Scale cfg -> loopInv cfg (initialLoopState scheme cfg).
Proof. intros H. unfold loopInv. simpl. lia. Qed.

(** A result of [runScheme] comes from a chunk loop that returned and
    from the tail run on the state the loop left. *)
Lemma runScheme_Ok (env : Env) (fuel : nat) (scheme : string) (cfg : Config)
    (w w' : World) (res : Result) :
  runScheme env fuel scheme cfg w = (Ok res, w') ->
  exists gen tempDir st w1 w2 w3,
    generatorFor env scheme = Ok gen
    /\ chunkLoop env fuel scheme cfg gen tempDir (initialLoopState scheme cfg) w1
       = (Ok st, w2)
    /\ verifyAndMerge env scheme cfg tempDir st w2 = (Ok res, w3).
Proof.
  unfold runScheme. destruct (generatorFor env scheme) as [gen|e| |];
    try discriminate. intros H.
  bind_inv H. rename a into baseDir. bind_inv H. rename a into tempDir.
  apply defer_inv in H as (w3 & H & ->).
  bind_inv H. bind_inv H. rename a0 into st.
  exists gen, tempDir, st. eauto 10.
Qed.

(** ** C2: the consistency check *)

(** C2. For every scheme run that returns a result, the sum of the
    locally-unique counts of its chunks, which the result reports as
    [ChunkUnique], equals the unique count of the merge plus its
    duplicate count (in [int64] arithmetic); and when the merge returns
    counts that violate this equation, the tail of [runScheme] returns
    the error [ErrInconsistent] instead of a result. *)
Theorem chunk_unique_sum_consistent (env : Env) :
  (forall fuel scheme cfg w res w',
      0 <= Scale cfg < 2 ^ 63 ->
      runScheme env fuel scheme cfg w = (Ok res, w') ->
      ChunkUnique res = add64 (Unique res) (Duplicates res)
      /\ exists gen tempDir st w1 w2,
           chunkLoop env fuel scheme cfg gen tempDir (initialLoopState scheme cfg) w1
           = (Ok st, w2)
           /\ ChunkUnique res = sumUniqueCount (manChunks (man st)))
  /\ (forall scheme cfg tempDir st w w0 unique duplicates w1,
        verifyChunks env (man st) w = (Ok tt, w0) ->
        mergeChunks env (man st) (Verbose cfg) (LogInterval cfg) w0
        = (Ok (unique, duplicates), w1) ->
        totalUniqueSum st <> add64 unique duplicates ->
        verifyAndMerge env scheme cfg tempDir st w
        = (Err (ErrInconsistent (totalUniqueSum st) unique duplicates), w1)).
Proof.
  split.
  - intros fuel scheme cfg w res w' Hscale H.
    apply runScheme_Ok in H as (gen & tempDir & st & w1 & w2 & w3 & _ & Hloop & Htail).
    apply verifyAndMerge_Ok in Htail as (w0 & _ & _ & Hsum & Hcu & _).
    split; [congruence|].
    exists gen, tempDir, st, w1, w2. split; [exact Hloop|].
    apply chunkLoop_Ok in Hloop as [(_ & _ & Hu & _) _];
      [congruence|lia|apply initialLoopState_inv; lia].
  - intros scheme cfg tempDir st w w0 unique duplicates w1 Hv Hm Hne.
    unfold verifyAndMerge, bind. rewrite Hv, Hm.
    apply Z.eqb_neq in Hne. now rewrite Hne.
Qed.

Lemma scenarioRun_result : fst scenarioRun = Ok scenarioResult.
Proof. vm_compute. reflexivity. Qed.

Lemma scenarioRun_eq : scenarioRun = (Ok scenarioResult, snd scenarioRun).
Proof. rewrite <- scenarioRun_result. apply surjective_pairing. Qed.

Lemma chunk_unique_sum_consistent_witness :
  exists res w',
    scenarioRun = (Ok res, w')
    /\ ChunkUnique res = 7
    /\ ChunkUnique res = add64 (Unique res) (Duplicates res).
Proof.
  exists scenarioResult, (snd scenarioRun).
  split; [exact scenarioRun_eq|]. split; [reflexivity|].
  exact (proj1 (proj1 (chunk_unique_sum_consistent _) 11%nat "ulid"%string
                  (scriptedConfig "ulid" 10 4) initialWorld scenarioResult
                  (snd scenarioRun) ltac:(simpl; lia)
                  scenarioRun_eq)).
Defined.

(** ** The steps of a run never exhaust the fuel *)

Lemma finite_bind_step {A B} (c : M A) (k : A -> M B) (w : World) :
  fst (c w) <> OutOfFuel ->
  (forall a w1, c w = (Ok a, w1) -> fst (k a w1) <> OutOfFuel) ->
  fst (bind c k w) <> OutOfFuel.
Proof.
  unfold bind. destruct (c w) as [[a|e| |] w1]; simpl; intros Hc Hk;
    try discriminate; [now apply Hk|congruence].
Qed.

Lemma finite_bind {A B} (c : M A) (k : A -> M B) :
  finite c -> (forall a, finite (k a)) -> finite (bind c k).
Proof.
  intros Hc Hk w. apply finite_bind_step; [apply Hc|]. intros a w1 _. apply Hk.
Qed.

Lemma finite_ret {A} (a : A) : finite (ret a).
Proof. intros w. discriminate. Qed.

Lemma finite_fail {A} (e : error) : finite (@fail A e).
Proof. intros w. discriminate. Qed.

Lemma finite_io (env : Env) (op path : string) : finite (io env op path).
Proof. intros w. unfold io. destruct (io_fault env (clock w)); discriminate. Qed.

Lemma finite_defer {A} (cleanup : World -> World) (body : M A) :
  finite body -> finite (defer cleanup body).
Proof.
  intros Hb w. unfold defer. specialize (Hb w). now destruct (body w).
Qed.

Create HintDb finite.
#[local] Hint Resolve finite_bind finite_ret finite_fail finite_io finite_defer : finite.

Lemma finite_generate (env : Env) (g : Generator) : finite (generate env g).
Proof. intros w. discriminate. Qed.

Lemma finite_ctxPoll (env : Env) : finite (ctxPoll env).
Proof. intros w. discriminate. Qed.

Lemma finite_virtualMemory (env : Env) : finite (virtualMemory env).
Proof. intros w. unfold virtualMemory. destruct (mem_available env (clock w)); discriminate. Qed.

Lemma finite_fileWrite (env : Env) (path bytes : string) :
  finite (fileWrite env path bytes).
Proof. unfold fileWrite. apply finite_bind; [apply finite_io|]. intros _ w. discriminate. Qed.

Lemma finite_writeValues (env : Env) (path : string) (values : list string) :
  finite (writeValues env path values).
Proof.
  induction values as [|v rest IH]; simpl; auto using finite_fileWrite with finite.
Qed.

Lemma finite_writeChunkFile (env : Env) (path : string) (values : list string) :
  finite (writeChunkFile env path values).
Proof.
  unfold writeChunkFile, osMkdirAll, osCreate.
  apply finite_bind.
  { apply finite_bind; [apply finite_io|]. intros _ w. discriminate. }
  intros _. apply finite_bind.
  { apply finite_bind; [apply finite_io|]. intros _ w. discriminate. }
  intros f. apply finite_defer.
  apply finite_bind; [apply finite_writeValues|]. intros _.
  apply finite_bind; [apply finite_io|]. intros _.
  apply finite_bind; [apply finite_io|]. intros _. apply finite_ret.
Qed.

Lemma finite_hashFile (env : Env) (path : string) : finite (hashFile env path).
Proof.
  unfold hashFile, osOpen.
  apply finite_bind; [apply finite_bind; [apply finite_io|]|].
  - intros _ w. destruct (files w !! path); discriminate.
  - intros [f content]. auto with finite.
Qed.

Lemma finite_osStat (env : Env) (path : string) : finite (osStat env path).
Proof.
  unfold osStat. apply finite_bind; [apply finite_io|].
  intros _ w. destruct (files w !! path); discriminate.
Qed.

Lemma finite_osWriteFile (env : Env) (path data : string) :
  finite (osWriteFile env path data).
Proof. unfold osWriteFile. apply finite_bind; [apply finite_io|]. intros _ w. discriminate. Qed.

Lemma finite_osRename (env : Env) (src dst : string) : finite (osRename env src dst).
Proof.
  unfold osRename. apply finite_bind; [apply finite_io|].
  intros _ w. destruct (files w !! src); discriminate.
Qed.

Lemma finite_saveManifest (env : Env) (dir : string) (m : manifest) :
  finite (saveManifest env dir m).
Proof.
  unfold saveManifest. destruct (jsonMarshal env m);
    auto 10 using finite_osWriteFile, finite_osRename with finite.
Qed.

Lemma finite_ensureMemory (env : Env) (cfg : Config) (chunkTarget : Z) :
  finite (ensureMemory env cfg chunkTarget).
Proof.
  unfold ensureMemory. destruct (_ && _); [apply finite_ret|].
  apply finite_bind; [apply finite_virtualMemory|].
  intros available. destruct (F64.ltb _ _); auto with finite.
Qed.

Lemma finite_generateIDs (env : Env) (g : Generator) (n : nat) :
  forall chunkIDs, finite (generateIDs env g n chunkIDs).
Proof.
  induction n as [|n IH]; intros chunkIDs; simpl; auto using finite_generate with finite.
Qed.

#[local] Hint Resolve finite_ctxPoll finite_ensureMemory finite_generateIDs
  finite_writeChunkFile finite_hashFile finite_osStat finite_saveManifest : finite.

(** With a positive chunk size the chunk loop ends within [Scale]
    iterations. *)
Lemma chunkLoop_finite (env : Env) (scheme : string) (cfg : Config)
    (gen : Generator) (tempDir : string) (fuel : nat) :
  Scale cfg < 2 ^ 63 -> 0 < ChunkSize cfg ->
  forall st w,
    loopInv cfg st ->
    (Z.to_nat (Scale cfg - totalGenerated st) < fuel)%nat ->
    fst (chunkLoop env fuel scheme cfg gen tempDir st w) <> OutOfFuel.
Proof.
  intros Hscale Hsize. induction fuel as [|fuel IH]; intros st w Hinv Hfuel; [lia|].
  simpl. destruct (totalGenerated st <? Scale cfg) eqn:Hlt; [|discriminate].
  apply Z.ltb_lt in Hlt. destruct Hinv as (Hg & Hu & Hsu & Hso).
  apply finite_bind_step; [apply finite_ctxPoll|]. intros done w1 _.
  destruct done; [discriminate|].
  set (chunkTarget := minInt64 (ChunkSize cfg) (sub64 (Scale cfg) (totalGenerated st))).
  assert (Hsub : sub64 (Scale cfg) (totalGenerated st) = Scale cfg - totalGenerated st).
  { apply wrap64_small. unfold isInt64. lia. }
  assert (Htarget : 0 < chunkTarget <= Scale cfg - totalGenerated st).
  { unfold chunkTarget, minInt64. rewrite Hsub. destruct (_ <? _) eqn:E; lia. }
  apply finite_bind_step; [apply finite_ensureMemory|]. intros _ w2 _.
  destruct (chunkTarget >? maxInt); [discriminate|].
  destruct (chunkTarget <? 0); [discriminate|].
  apply finite_bind_step; [apply finite_generateIDs|]. intros chunkIDs w3 Hgen.
  apply generateIDs_length in Hgen. simpl in Hgen.
  set (unique := dedupeSorted (sortStrings chunkIDs)).
  assert (Hlen : Z.of_nat (length unique) <= chunkTarget).
  { pose proof (dedupeSorted_length (sortStrings chunkIDs)) as Hd.
    rewrite sortStrings_length in Hd. fold unique in Hd. lia. }
  apply finite_bind_step; [apply finite_writeChunkFile|]. intros _ w4 _.
  apply finite_bind_step; [apply finite_hashFile|]. intros fileHash w5 _.
  destruct (negb _); [discriminate|].
  apply finite_bind_step; [apply finite_osStat|]. intros size w6 _.
  apply finite_bind_step; [apply finite_saveManifest|]. intros _ w7 _.
  apply finite_bind_step.
  { destruct (Verbose cfg); [|discriminate].
    destruct (LogInterval cfg =? 0); [discriminate|].
    destruct (_ =? 0); discriminate. }
  intros _ w8 _. apply IH.
  - unfold loopInv, appendChunk. simpl.
    unfold add64. rewrite !wrap64_small by (unfold isInt64; lia).
    rewrite sumUniqueCount_app, sumOriginalCount_app. simpl.
    repeat split; lia.
  - simpl. unfold add64. rewrite wrap64_small by (unfold isInt64; lia). lia.
Qed.

(** ** C6: the chunk loop generates exactly the scale *)

(** C6. For a scale S > 0 and a chunk size C with 0 < C <= S, a scheme
    run that returns a result reports a generated count equal to S; the
    chunk loop, which takes chunks of min(C, S - generated so far), ends
    within S iterations. *)
Theorem runScheme_generates_scale (env : Env) (fuel : nat) (scheme : string)
    (cfg : Config) (w : World) :
  0 < Scale cfg < 2 ^ 63 ->
  0 < ChunkSize cfg <= Scale cfg ->
  (forall res w',
      runScheme env fuel scheme cfg w = (Ok res, w') ->
      Generated res = Scale cfg)
  /\ (forall gen tempDir w1,
        (Z.to_nat (Scale cfg) < fuel)%nat ->
        fst (chunkLoop env fuel scheme cfg gen tempDir
               (initialLoopState scheme cfg) w1) <> OutOfFuel).
Proof.
  intros Hscale Hsize. split.
  - intros res w' H.
    apply runScheme_Ok in H as (gen & tempDir & st & w1 & w2 & w3 & _ & Hloop & Htail).
    apply verifyAndMerge_Ok in Htail as (w0 & _ & _ & _ & _ & Hgen).
    apply chunkLoop_Ok in Hloop as [_ Hall];
      [congruence|lia|apply initialLoopState_inv; lia].
  - intros gen tempDir w1 Hfuel. apply chunkLoop_finite; try lia.
    + apply initialLoopState_inv. lia.
    + simpl. rewrite Z.sub_0_r. exact Hfuel.
Qed.

Lemma runScheme_generates_scale_witness :
  exists res w', scenarioRun = (Ok res, w') /\ Generated res = 10.
Proof.
  exists scenarioResult, (snd scenarioRun). split; [exact scenarioRun_eq|].
  exact (proj1 (runScheme_generates_scale _ 11%nat "ulid"%string
                  (scriptedConfig "ulid" 10 4) initialWorld
                  ltac:(simpl; lia) ltac:(simpl; lia))
           scenarioResult (snd scenarioRun) scenarioRun_eq).
Defined.

(** ** [os.MkdirTemp] *)

Lemma osMkdirTemp_inv (env : Env) (base pattern : string) (w w' : World)
    (r : outcome string) :
  osMkdirTemp env base pattern w = (r, w') ->
  (hasSlash pattern = true /\ r = Err (ErrIO "mkdirtemp" pattern) /\ w' = w)
  \/ (hasSlash pattern = false /\ io_fault env (clock w) = true
      /\ r = Err (ErrIO "mkdirtemp" base) /\ w' = tick env w)
  \/ (hasSlash pattern = false /\ io_fault env (clock w) = false
      /\ exists name,
           r = Ok name /\ w' = emit (EvMkdirTemp name) (tick env w)).
Proof.
  unfold osMkdirTemp. destruct (hasSlash pattern).
  { intros [= <- <-]. left. auto. }
  destruct (prefixAndSuffix pattern) as [prefix suffix]. unfold bind, io.
  destruct (io_fault env (clock w)); intros [= <- <-]; right; [left|right]; eauto 6.
Qed.

Lemma osRemoveAll_trace (env : Env) (dir : string) (w : World) :
  trace (osRemoveAll env dir w) = EvRemoveAll dir :: trace w
  /\ genCalls (osRemoveAll env dir w) = genCalls w.
Proof.
  unfold osRemoveAll.
  destruct (String.eqb dir "" || endsWithDot dir); split; reflexivity.
Qed.

(** ** Events of the steps of a run *)

Lemma extends_refl (Q : Event -> Prop) (t : list Event) : extends Q t t.
Proof. exists []. auto. Qed.

Lemma extends_cons (Q : Event -> Prop) (t0 t : list Event) (ev : Event) :
  Q ev -> extends Q t0 t -> extends Q t0 (ev :: t).
Proof. intros Hq (evs & -> & Hall). exists (ev :: evs). auto. Qed.

Lemma extends_trans (Q : Event -> Prop) (t0 t1 t2 : list Event) :
  extends Q t0 t1 -> extends Q t1 t2 -> extends Q t0 t2.
Proof.
  intros (evs1 & -> & H1) (evs2 & -> & H2). exists (evs2 ++ evs1).
  rewrite app_assoc. split; [reflexivity|]. now apply Forall_app.
Qed.

Lemma extends_absent (Q : Event -> Prop) (t0 : list Event) (evs : list Event)
    (ev : Event) :
  extends Q t0 (evs ++ t0) -> ~ Q ev -> ev ∉ evs.
Proof.
  intros (evs' & Heq & Hall) Hq Hin. apply app_inv_tail in Heq as ->.
  rewrite Forall_forall in Hall. auto.
Qed.

Section Emits.
Variable env : Env.
Variable Q : Event -> Prop.

Lemma emitsOnly_ret {A} (a : A) : emitsOnly Q (ret a).
Proof. intros w r w' [= <- <-]. apply extends_refl. Qed.

Lemma emitsOnly_fail {A} (e : error) : emitsOnly Q (@fail A e).
Proof. intros w r w' [= <- <-]. apply extends_refl. Qed.

Lemma emitsOnly_bind {A B} (c : M A) (k : A -> M B) :
  emitsOnly Q c -> (forall a, emitsOnly Q (k a)) -> emitsOnly Q (bind c k).
Proof.
  intros Hc Hk w r w'. unfold bind. destruct (c w) as [ra w1] eqn:E.
  specialize (Hc _ _ _ E). destruct ra as [a|e| |].
  - intros H. eapply extends_trans; [exact Hc|]. eapply Hk; eauto.
  - now intros [= <- <-].
  - now intros [= <- <-].
  - now intros [= <- <-].
Qed.

Lemma emitsOnly_defer {A} (cleanup : World -> World) (body : M A) :
  (forall w, extends Q (trace w) (trace (cleanup w))) ->
  emitsOnly Q body -> emitsOnly Q (defer cleanup body).
Proof.
  intros Hcl Hb w r w' H. apply defer_inv in H as (w1 & H & ->).
  eapply extends_trans; [eapply Hb; eauto|apply Hcl].
Qed.

Lemma emitsOnly_io (op path : string) : emitsOnly Q (io env op path).
Proof.
  intros w r w'. unfold io. destruct (io_fault env (clock w));
    intros [= <- <-]; apply extends_refl.
Qed.

Lemma emitsOnly_fileWrite (path bytes : string) :
  emitsOnly Q (fileWrite env path bytes).
Proof.
  unfold fileWrite. apply emitsOnly_bind; [apply emitsOnly_io|].
  intros _ w r w' [= <- <-]. apply extends_refl.
Qed.

Lemma emitsOnly_writeValues (path : string) (values : list string) :
  emitsOnly Q (writeValues env path values).
Proof.
  induction values as [|v rest IH]; simpl; [apply emitsOnly_ret|].
  repeat (apply emitsOnly_bind; [apply emitsOnly_fileWrite|intros _]). exact IH.
Qed.

Lemma emitsOnly_osStat (path : string) : emitsOnly Q (osStat env path).
Proof.
  unfold osStat. apply emitsOnly_bind; [apply emitsOnly_io|].
  intros _ w r w'. destruct (files w !! path); intros [= <- <-]; apply extends_refl.
Qed.

Lemma emitsOnly_osGetwd : emitsOnly Q (osGetwd env).
Proof.
  intros w r w'. unfold osGetwd. destruct (getwd env (clock w));
    intros [= <- <-]; apply extends_refl.
Qed.

Hypothesis Q_close : forall fd, Q (EvClose fd).
Hypothesis Q_open : forall path fd, Q (EvOpen path fd).
Hypothesis Q_create : forall path fd, Q (EvCreate path fd).
Hypothesis Q_mkdir : forall dir, Q (EvMkdirAll dir).

Lemma emitsOnly_osMkdirAll (dir : string) : emitsOnly Q (osMkdirAll env dir).
Proof.
  unfold osMkdirAll. apply emitsOnly_bind; [apply emitsOnly_io|].
  intros _ w r w' [= <- <-]. apply extends_cons; [apply Q_mkdir|apply extends_refl].
Qed.

Lemma extends_fileClose (fd : nat) (w : World) :
  extends Q (trace w) (trace (fileClose fd w)).
Proof. apply extends_cons; [apply Q_close|apply extends_refl]. Qed.

Lemma emitsOnly_writeChunkFile (path : string) (values : list string) :
  emitsOnly Q (writeChunkFile env path values).
Proof.
  unfold writeChunkFile, osCreate.
  apply emitsOnly_bind; [apply emitsOnly_osMkdirAll|]. intros _.
  apply emitsOnly_bind.
  { apply emitsOnly_bind; [apply emitsOnly_io|].
    intros _ w r w' [= <- <-]. apply extends_cons; [apply Q_create|apply extends_refl]. }
  intros f. apply emitsOnly_defer; [apply extends_fileClose|].
  apply emitsOnly_bind; [apply emitsOnly_writeValues|]. intros _.
  repeat (apply emitsOnly_bind; [apply emitsOnly_io|intros _]).
  apply emitsOnly_ret.
Qed.

Lemma emitsOnly_hashFile (path : string) : emitsOnly Q (hashFile env path).
Proof.
  unfold hashFile, osOpen. apply emitsOnly_bind.
  { apply emitsOnly_bind; [apply emitsOnly_io|].
    intros _ w r w'. destruct (files w !! path); intros [= <- <-].
    - apply extends_cons; [apply Q_open|apply extends_refl].
    - apply extends_refl. }
  intros [f content]. apply emitsOnly_defer; [apply extends_fileClose|].
  apply emitsOnly_bind; [apply emitsOnly_io|]. intros _. apply emitsOnly_ret.
Qed.

Lemma emitsOnly_verifyChunkList (chunks : list chunkMeta) :
  emitsOnly Q (verifyChunkList env chunks).
Proof.
  induction chunks as [|ch rest IH]; simpl; [apply emitsOnly_ret|].
  intros w r w'. destruct (hashFile env (Path ch) w) as [rh w1] eqn:E.
  apply emitsOnly_hashFile in E. destruct rh as [hash|e| |].
  - destruct (String.eqb hash (Hash ch)).
    + intros H. eapply extends_trans; [exact E|]. eapply IH; eauto.
    + now intros [= <- <-].
  - now intros [= <- <-].
  - now intros [= <- <-].
  - now intros [= <- <-].
Qed.

End Emits.

(** ** Nothing before the verification gate enters the merge *)

Section NoMerge.
Variable env : Env.

Ltac quiet_event := unfold notMergeBegin; discriminate.

Ltac emits_nm :=
  first
    [ apply emitsOnly_ret
    | apply emitsOnly_fail
    | apply emitsOnly_io
    | apply emitsOnly_osGetwd
    | apply emitsOnly_osMkdirAll; intros; quiet_event
    | apply emitsOnly_writeChunkFile; intros; quiet_event
    | apply emitsOnly_hashFile; intros; quiet_event
    | apply emitsOnly_osStat ].

Lemma nm_ctxPoll : emitsOnly notMergeBegin (ctxPoll env).
Proof.
  intros w r w' [= <- <-]. apply extends_cons; [quiet_event|apply extends_refl].
Qed.

Lemma nm_generate (g : Generator) : emitsOnly notMergeBegin (generate env g).
Proof.
  intros w r w' [= <- <-]. apply extends_cons; [quiet_event|apply extends_refl].
Qed.

Lemma nm_generateIDs (g : Generator) (n : nat) :
  forall chunkIDs, emitsOnly notMergeBegin (generateIDs env g n chunkIDs).
Proof.
  induction n as [|n IH]; intros chunkIDs; simpl; [apply emitsOnly_ret|].
  apply emitsOnly_bind; [apply nm_generate|]. intros id. apply IH.
Qed.

Lemma nm_virtualMemory : emitsOnly notMergeBegin (virtualMemory env).
Proof.
  intros w r w'. unfold virtualMemory. destruct (mem_available env (clock w));
    intros [= <- <-]; (apply extends_cons; [quiet_event|apply extends_refl]).
Qed.

Lemma nm_ensureMemory (cfg : Config) (chunkTarget : Z) :
  emitsOnly notMergeBegin (ensureMemory env cfg chunkTarget).
Proof.
  unfold ensureMemory. destruct (_ && _); [apply emitsOnly_ret|].
  apply emitsOnly_bind; [apply nm_virtualMemory|]. intros available.
  destruct (F64.ltb _ _); emits_nm.
Qed.

Lemma nm_ensureDisk (path : string) (estimatedBytes : Z) (safety : F64.t) :
  emitsOnly notMergeBegin (ensureDisk env path estimatedBytes safety).
Proof.
  unfold ensureDisk. apply emitsOnly_bind.
  - intros w r w'. unfold diskUsage. destruct (disk_free env (clock w));
      intros [= <- <-]; (apply extends_cons; [quiet_event|apply extends_refl]).
  - intros free. destruct (F64.ltb _ _); emits_nm.
Qed.

Lemma nm_osWriteFile (path data : string) :
  emitsOnly notMergeBegin (osWriteFile env path data).
Proof.
  unfold osWriteFile. apply emitsOnly_bind; [apply emitsOnly_io|].
  intros _ w r w' [= <- <-]. apply extends_cons; [quiet_event|apply extends_refl].
Qed.

Lemma nm_osRename (src dst : string) : emitsOnly notMergeBegin (osRename env src dst).
Proof.
  unfold osRename. apply emitsOnly_bind; [apply emitsOnly_io|].
  intros _ w r w'. destruct (files w !! src); intros [= <- <-];
    [apply extends_cons; [quiet_event|]|]; apply extends_refl.
Qed.

Lemma nm_saveManifest (dir : string) (m : manifest) :
  emitsOnly notMergeBegin (saveManifest env dir m).
Proof.
  unfold saveManifest. destruct (jsonMarshal env m); [|apply emitsOnly_fail].
  apply emitsOnly_bind; [apply nm_osWriteFile|]. intros _.
  apply emitsOnly_bind; [apply nm_osRename|]. intros _. apply nm_osWriteFile.
Qed.

Lemma nm_osMkdirTemp (base pattern : string) :
  emitsOnly notMergeBegin (osMkdirTemp env base pattern).
Proof.
  intros w r w' H.
  apply osMkdirTemp_inv in H
    as [(_ & _ & ->)|[(_ & _ & _ & ->)|(_ & _ & name & _ & ->)]];
    [| |apply extends_cons; [quiet_event|]]; apply extends_refl.
Qed.

Lemma nm_osRemoveAll (dir : string) (w : World) :
  extends notMergeBegin (trace w) (trace (osRemoveAll env dir w)).
Proof.
  rewrite (proj1 (osRemoveAll_trace env dir w)).
  apply extends_cons; [quiet_event|apply extends_refl].
Qed.

Lemma nm_verifyChunks (m : manifest) : emitsOnly notMergeBegin (verifyChunks env m).
Proof. apply emitsOnly_verifyChunkList; intros; quiet_event. Qed.

Lemma nm_chunkLoop (scheme : string) (cfg : Config) (gen : Generator)
    (tempDir : string) (fuel : nat) :
  forall st, emitsOnly notMergeBegin (chunkLoop env fuel scheme cfg gen tempDir st).
Proof.
  induction fuel as [|fuel IH]; intros st; simpl.
  { intros w r w' [= <- <-]. apply extends_refl. }
  destruct (totalGenerated st <? Scale cfg); [|apply emitsOnly_ret].
  apply emitsOnly_bind; [apply nm_ctxPoll|]. intros done.
  destruct done; [apply emitsOnly_fail|].
  apply emitsOnly_bind; [apply nm_ensureMemory|]. intros _.
  destruct (_ >? maxInt); [apply emitsOnly_fail|].
  destruct (_ <? 0). { intros w r w' [= <- <-]. apply extends_refl. }
  apply emitsOnly_bind; [apply nm_generateIDs|]. intros chunkIDs.
  apply emitsOnly_bind; [emits_nm|]. intros _.
  apply emitsOnly_bind; [emits_nm|]. intros fileHash.
  destruct (negb _); [apply emitsOnly_fail|].
  apply emitsOnly_bind; [emits_nm|]. intros size.
  apply emitsOnly_bind; [apply nm_saveManifest|]. intros _.
  apply emitsOnly_bind; [|intros _; apply IH].
  destruct (Verbose cfg); [|apply emitsOnly_ret].
  destruct (LogInterval cfg =? 0). { intros w r w' [= <- <-]. apply extends_refl. }
  destruct (_ =? 0); [|apply emitsOnly_ret].
  intros w r w' [= <- <-]. apply extends_cons; [quiet_event|apply extends_refl].
Qed.

End NoMerge.

(** * Further properties of the package *)

(** ** The chunk producer: [sort.Strings] followed by [dedupeSorted] *)

Lemma compact_idempotent (prev : string) (l : list string) :
  compact prev (compact prev l) = compact prev l.
Proof.
  revert prev. induction l as [|v l IH]; intros prev; simpl; [reflexivity|].
  destruct (String.eqb v prev) eqn:E; [apply IH|].
  simpl. rewrite E. now rewrite IH.
Qed.

Lemma compact_sublist (prev : string) (l : list string) :
  compact prev l `sublist_of` l.
Proof.
  revert prev. induction l as [|v l IH]; intros prev; simpl; [constructor|].
  destruct (String.eqb v prev).
  - apply sublist_cons. apply IH.
  - apply sublist_skip. apply IH.
Qed.

(** [dedupeSorted] asks nothing of its input: on any slice it drops the
    values equal to their predecessor and nothing else, so it keeps the
    order of what it keeps, and a second pass changes nothing. *)
Theorem dedupeSorted_any_input (values : list string) :
  dedupeSorted values `sublist_of` values
  /\ adjacentDistinct (dedupeSorted values)
  /\ dedupeSorted (dedupeSorted values) = dedupeSorted values
  /\ (adjacentDistinct values -> dedupeSorted values = values).
Proof.
  rewrite !dedupeSorted_dedupeList.
  destruct values as [|v0 l]; simpl.
  { repeat split; auto; constructor. }
  split; [apply sublist_skip, compact_sublist|].
  split; [apply compact_adjacentDistinct|].
  split; [now rewrite compact_idempotent|].
  intros Hadj. f_equal. revert v0 Hadj.
  induction l as [|x l IH]; intros v0 Hadj; simpl; [reflexivity|].
  destruct Hadj as [Hne Hadj].
  destruct (String.eqb_spec x v0) as [->|_]; [congruence|].
  f_equal. now apply IH.
Qed.

Lemma dedupeSorted_any_input_witness :
  dedupeSorted ["b"; "a"; "b"]%string = ["b"; "a"; "b"]%string.
Proof.
  apply (proj2 (proj2 (proj2 (dedupeSorted_any_input ["b"; "a"; "b"]%string)))).
  simpl. repeat split; discriminate.
Defined.

Lemma sorted_lt_NoDup (l : list string) : Sorted GoString.lt l -> NoDup l.
Proof.
  induction l as [|v l IH]; intros Hs; [constructor|].
  pose proof (sorted_lt_head _ _ Hs) as Hall. inversion Hs; subst.
  constructor; [|now apply IH].
  intros Hin. rewrite Forall_forall in Hall.
  now apply (GoStringFacts.lt_irrefl v), Hall.
Qed.

Lemma NoDup_length_distinct (l k : list string) :
  NoDup k -> (forall x, x ∈ k <-> x ∈ l) -> length k = distinctCount l.
Proof.
  intros Hnd Hsame. unfold distinctCount. apply Permutation_length.
  apply NoDup_Permutation; [exact Hnd|apply NoDup_remove_dups|].
  intros x. now rewrite elem_of_remove_dups.
Qed.

Lemma dedupeSorted_strict (values : list string) :
  sortedStrings values ->
  Sorted GoString.lt (dedupeSorted values)
  /\ NoDup (dedupeSorted values)
  /\ length (dedupeSorted values) = distinctCount values.
Proof.
  intros Hs. rewrite dedupeSorted_dedupeList.
  assert (Hlt : Sorted GoString.lt (dedupeList values)).
  { destruct values as [|v0 l]; simpl; [constructor|].
    apply sorted_distinct_lt;
      [now apply compact_sorted|apply compact_adjacentDistinct]. }
  split; [exact Hlt|]. split; [now apply sorted_lt_NoDup|].
  apply NoDup_length_distinct; [now apply sorted_lt_NoDup|].
  intros x. destruct values as [|v0 l]; simpl; [reflexivity|].
  apply compact_elem.
Qed.

(** On a sorted slice [dedupeSorted] leaves a strictly increasing slice
    without any repeated value, whose length is the number of distinct
    values of the input. *)
Theorem dedupeSorted_counts_distinct (values : list string) :
  sortedStrings values ->
  Sorted GoString.lt (dedupeSorted values)
  /\ NoDup (dedupeSorted values)
  /\ length (dedupeSorted values) = distinctCount values.
Proof.
  exact (dedupeSorted_strict values).
Qed.

Lemma dedupeSorted_counts_distinct_witness :
  length (dedupeSorted ["a"; "a"; "b"; "c"; "c"]%string) = 3%nat.
Proof.
  assert (Hs : sortedStrings ["a"; "a"; "b"; "c"; "c"]%string).
  { unfold sortedStrings. repeat constructor. }
  exact (proj2 (proj2 (dedupeSorted_counts_distinct _ Hs))).
Defined.

Lemma insertString_perm (v : string) (l : list string) :
  insertString v l ≡ₚ v :: l.
Proof.
  induction l as [|x l IH]; simpl; [reflexivity|].
  destruct (String.leb v x); [reflexivity|].
  rewrite IH. apply perm_swap.
Qed.

Lemma insertString_sorted (v : string) (l : list string) :
  sortedStrings l -> sortedStrings (insertString v l).
Proof.
  unfold sortedStrings. induction 1 as [|x l Hs IH Hhd]; simpl.
  - repeat constructor.
  - destruct (String.leb v x) eqn:E.
    + constructor; [now constructor|]. now constructor.
    + apply leb_false_le in E. constructor; [exact IH|].
      destruct l as [|y l]; simpl.
      * now constructor.
      * destruct (String.leb v y); constructor; auto. now inversion Hhd.
Qed.

Lemma sortStrings_perm (l : list string) : sortStrings l ≡ₚ l.
Proof.
  unfold sortStrings. induction l as [|x l IH]; simpl; [reflexivity|].
  now rewrite insertString_perm, IH.
Qed.

Lemma sortStrings_sorted (l : list string) : sortedStrings (sortStrings l).
Proof.
  unfold sortStrings. induction l as [|x l IH]; simpl; [constructor|].
  now apply insertString_sorted.
Qed.

Lemma chunkOf_spec (chunkIDs : list string) :
  let unique := dedupeSorted (sortStrings chunkIDs) in
  Sorted GoString.lt unique
  /\ (forall x, x ∈ unique <-> x ∈ chunkIDs)
  /\ length unique = distinctCount chunkIDs.
Proof.
  intros unique. subst unique.
  destruct (dedupeSorted_strict _ (sortStrings_sorted chunkIDs))
    as (Hlt & Hnd & Hlen).
  split; [exact Hlt|]. split.
  - intros x. rewrite dedupeSorted_dedupeList.
    rewrite <- (sortStrings_perm chunkIDs) at 2.
    destruct (sortStrings chunkIDs) as [|v0 l]; simpl; [reflexivity|].
    apply compact_elem.
  - rewrite Hlen. apply distinctCount_perm, sortStrings_perm.
Qed.

(** The chunk [runScheme] persists for a batch of identifiers is strictly
    increasing, holds exactly the identifiers of the batch, and its
    length, the locally-unique count, is the number of distinct
    identifiers of the batch. *)
Theorem chunk_of_batch (chunkIDs : list string) :
  let unique := dedupeSorted (sortStrings chunkIDs) in
  Sorted GoString.lt unique
  /\ (forall x, x ∈ unique <-> x ∈ chunkIDs)
  /\ length unique = distinctCount chunkIDs.
Proof.
  exact (chunkOf_spec chunkIDs).
Qed.

(** ** [Run]: configuration and results *)

Lemma Run_scale_error (env : Env) (cfg : Config) (w : World) :
  Scale cfg <= 0 -> Run env cfg w = (Err ErrScale, w).
Proof.
  intros Hs. unfold Run.
  assert (E : forall c : Config, Scale c = Scale cfg -> (Scale c <=? 0) = true).
  { intros c ->. now apply Z.leb_le. }
  destruct (Schemes cfg); rewrite E; reflexivity.
Qed.

(** A scale that is not positive ends [Run] at once: the error is
    returned and nothing outside has been touched, not even the context
    polled. *)
Theorem Run_rejects_scale (env : Env) (cfg : Config) (w : World) :
  Scale cfg <= 0 -> Run env cfg w = (Err ErrScale, w).
Proof. exact (Run_scale_error env cfg w). Qed.

Lemma Run_rejects_scale_witness :
  Run (scriptedEnv [] (listHeap false)) (scriptedConfig "ulid" 0 4) initialWorld
  = (Err ErrScale, initialWorld).
Proof.
  apply Run_rejects_scale. simpl. lia.
Defined.

Lemma Run_chunk_size_default (env : Env) (cfg : Config) (w : World) :
  ChunkSize cfg <= 0 \/ ChunkSize cfg > Scale cfg ->
  Run env cfg w = Run env (withChunkSize (minInt64 (Scale cfg) 1000000) cfg) w.
Proof.
  intros Hbad. unfold Run.
  assert (Hn : forall c,
             normalize env (withChunkSize (minInt64 (Scale cfg) 1000000) c)
             = normalize env (withChunkSize (ChunkSize cfg) c)
             \/ Scale c <> Scale cfg).
  { intros c. destruct (Z.eq_dec (Scale c) (Scale cfg)) as [E|E]; [left|now right].
    unfold normalize, withChunkSize. simpl. rewrite E. f_equal.
    assert (Hb : (ChunkSize cfg <=? 0) || (ChunkSize cfg >? Scale cfg) = true).
    { apply orb_true_iff. destruct Hbad; [left; lia|right; lia]. }
    rewrite Hb. unfold minInt64.
    destruct (Scale cfg <? 1000000) eqn:E1.
    - destruct (Scale cfg <=? 0) eqn:E2; simpl; [reflexivity|].
      replace (Scale cfg >? Scale cfg) with false by lia. reflexivity.
    - simpl. replace (1000000 >? Scale cfg) with false by lia. reflexivity. }
  destruct (Schemes cfg) as [|s l] eqn:Hs; simpl; rewrite ?Hs; simpl.
  - destruct (Scale cfg <=? 0); [reflexivity|].
    destruct (Hn (withSchemes defaultSchemes cfg)) as [E|E]; [|now destruct E].
    unfold withChunkSize, withSchemes in *. simpl in *.
    unfold normalize in *. simpl in *. now injection E as ->.
  - destruct (Scale cfg <=? 0); [reflexivity|].
    destruct (Hn cfg) as [E|E]; [|now destruct E].
    unfold withChunkSize in *.
    unfold normalize in *. simpl in *. rewrite Hs. now injection E as ->.
Qed.

(** A chunk size that is not positive or exceeds the scale is no error:
    [Run] behaves exactly as with the chunk size min(scale, 1000000). *)
Theorem Run_replaces_chunk_size (env : Env) (cfg : Config) (w : World) :
  ChunkSize cfg <= 0 \/ ChunkSize cfg > Scale cfg ->
  Run env cfg w = Run env (withChunkSize (minInt64 (Scale cfg) 1000000) cfg) w.
Proof. exact (Run_chunk_size_default env cfg w). Qed.

Lemma Run_replaces_chunk_size_witness :
  Run (scriptedEnv scenarioIds (listHeap false)) (scriptedConfig "ulid" 10 0)
    initialWorld
  = Run (scriptedEnv scenarioIds (listHeap false))
      (withChunkSize (minInt64 10 1000000) (scriptedConfig "ulid" 10 0))
      initialWorld.
Proof.
  apply (Run_replaces_chunk_size (scriptedEnv scenarioIds (listHeap false))
           (scriptedConfig "ulid" 10 0) initialWorld).
  left. simpl. lia.
Defined.

Lemma runSchemes_Ok (env : Env) (cfg : Config) (schemes : list string) :
  forall rs w results w',
    runSchemes env schemes cfg rs w = (Ok results, w') ->
    exists new,
      results = rs ++ new /\ Forall2 (resultOf env cfg) schemes new.
Proof.
  induction schemes as [|s schemes IH]; intros rs w results w' H; simpl in H.
  - unfold ret in H. injection H as <- <-. exists []. rewrite app_nil_r. auto.
  - bind_inv H. destruct a; [unfold fail in H; discriminate|].
    bind_inv H. apply IH in H as (new & -> & Hall).
    exists (a :: new). rewrite <- app_assoc. split; [reflexivity|].
    constructor; [|exact Hall]. now exists w0, w1.
Qed.

Lemma Run_Ok (env : Env) (cfg : Config) (w w' : World) (results : list Result) :
  Run env cfg w = (Ok results, w') ->
  0 < Scale cfg
  /\ exists cfg',
       Scale cfg' = Scale cfg
       /\ ChunkSize cfg' = effectiveChunkSize cfg
       /\ Forall2 (resultOf env cfg') (effectiveSchemes cfg) results.
Proof.
  unfold Run, effectiveSchemes, effectiveChunkSize.
  destruct (Schemes cfg) as [|s l] eqn:Hs; cbv zeta.
  - change (Scale (withSchemes defaultSchemes cfg)) with (Scale cfg).
    destruct (Scale cfg <=? 0) eqn:E; [discriminate|]. intros H.
    apply runSchemes_Ok in H as (new & -> & Hall). split; [lia|].
    eexists. split; [|split; [|exact Hall]]; reflexivity.
  - destruct (Scale cfg <=? 0) eqn:E; [discriminate|]. intros H.
    apply runSchemes_Ok in H as (new & -> & Hall). split; [lia|].
    eexists. split; [|split; [|simpl in Hall; rewrite Hs in Hall; exact Hall]];
      reflexivity.
Qed.

Lemma verifyAndMerge_result (env : Env) (scheme : string) (cfg : Config)
    (tempDir : string) (st : loopState) (w w' : World) (res : Result) :
  verifyAndMerge env scheme cfg tempDir st w = (Ok res, w') ->
  Scheme res = scheme
  /\ Chunks res = Z.of_nat (length (manChunks (man st)))
  /\ OutputDir res = tempDir
  /\ ManifestPath res = pathJoin tempDir "manifest.json".
Proof.
  unfold verifyAndMerge. intros H. ok_inv.
  repeat match goal with p : (Z * Z)%type |- _ => destruct p end.
  destruct (negb _); simpl in H; [discriminate|]. ok_inv. simpl. auto.
Qed.

(** [Run] returns one result per scheme, in the order of the list of
    schemes (the three default schemes when the list is empty), each
    carrying the name of its scheme. *)
Theorem Run_one_result_per_scheme (env : Env) (cfg : Config) (w w' : World)
    (results : list Result) :
  Run env cfg w = (Ok results, w') ->
  Scheme <$> results = effectiveSchemes cfg.
Proof.
  intros H. apply Run_Ok in H as (_ & cfg' & _ & _ & Hall).
  induction Hall as [|s r schemes results (w1 & w2 & Hr) _ IH]; [reflexivity|].
  rewrite fmap_cons, IH. f_equal.
  apply runScheme_Ok in Hr as (gen & tempDir & st & wa & wb & wc & _ & _ & Htail).
  now apply verifyAndMerge_result in Htail as (-> & _).
Qed.

Lemma scenario_Run_result :
  fst (Run (scriptedEnv scenarioIds (listHeap false)) (scriptedConfig "ulid" 10 4)
         initialWorld)
  = Ok [scenarioResult].
Proof. vm_compute. reflexivity. Qed.

Lemma Run_one_result_per_scheme_witness :
  Scheme <$> [scenarioResult] = ["ulid"]%string.
Proof.
  exact (Run_one_result_per_scheme _ (scriptedConfig "ulid" 10 4) initialWorld _ _
           (eq_trans (surjective_pairing _)
              (f_equal (fun r => (r, _)) scenario_Run_result))).
Defined.

Lemma chunkLoop_chunksFull (env : Env) (scheme : string) (cfg : Config)
    (gen : Generator) (tempDir : string) (fuel : nat) :
  Scale cfg < 2 ^ 63 -> 0 < ChunkSize cfg ->
  forall st w st' w',
    loopInv cfg st -> chunksFull cfg st ->
    chunkLoop env fuel scheme cfg gen tempDir st w = (Ok st', w') ->
    chunksFull cfg st'.
Proof.
  intros Hscale Hsize. induction fuel as [|fuel IH];
    intros st w st' w' Hinv Hfull H; simpl in H.
  { discriminate. }
  destruct (totalGenerated st <? Scale cfg) eqn:Hlt.
  2:{ unfold ret in H. now injection H as <- <-. }
  apply Z.ltb_lt in Hlt. destruct Hinv as (Hg & Hu & Hsu & Hso).
  bind_inv H. destruct a; [unfold fail in H; discriminate|].
  set (chunkTarget := minInt64 (ChunkSize cfg) (sub64 (Scale cfg) (totalGenerated st))) in *.
  bind_inv H.
  destruct (chunkTarget >? maxInt); [unfold fail in H; discriminate|].
  destruct (chunkTarget <? 0) eqn:Hneg; [discriminate|].
  apply Z.ltb_ge in Hneg.
  bind_inv H. rename a0 into chunkIDs.
  apply generateIDs_length in Hc1. simpl in Hc1.
  set (unique := dedupeSorted (sortStrings chunkIDs)) in *.
  assert (Hlen : Z.of_nat (length unique) <= chunkTarget).
  { pose proof (dedupeSorted_length (sortStrings chunkIDs)) as Hd.
    rewrite sortStrings_length in Hd. fold unique in Hd. lia. }
  assert (Hsub : sub64 (Scale cfg) (totalGenerated st) = Scale cfg - totalGenerated st).
  { apply wrap64_small. unfold isInt64. lia. }
  assert (Htarget : chunkTarget
                    = Z.min (ChunkSize cfg) (Scale cfg - totalGenerated st)).
  { unfold chunkTarget, minInt64. rewrite Hsub. destruct (_ <? _) eqn:E; lia. }
  bind_inv H. bind_inv H.
  destruct (negb _); [unfold fail in H; discriminate|].
  bind_inv H. bind_inv H. bind_inv H.
  apply IH in H; [exact H| |].
  - unfold loopInv, appendChunk. simpl.
    unfold add64. rewrite !wrap64_small by (unfold isInt64; lia).
    rewrite sumUniqueCount_app, sumOriginalCount_app. simpl.
    repeat split; lia.
  - destruct Hfull as [Htg Hn]. unfold chunksFull, appendChunk. simpl.
    rewrite length_app. simpl.
    unfold add64. rewrite !wrap64_small by (unfold isInt64; lia).
    split; [|right]; nia.
Qed.

Lemma runScheme_numbers (env : Env) (fuel : nat) (scheme : string)
    (cfg : Config) (w w' : World) (res : Result) :
  0 < Scale cfg < 2 ^ 63 ->
  0 < ChunkSize cfg ->
  runScheme env fuel scheme cfg w = (Ok res, w') ->
  Generated res = Scale cfg
  /\ Chunks res = (Scale cfg + ChunkSize cfg - 1) / ChunkSize cfg
  /\ ChunkUnique res <= Generated res.
Proof.
  intros Hscale Hsize H.
  apply runScheme_Ok in H as (gen & tempDir & st & w1 & w2 & w3 & _ & Hloop & Htail).
  pose proof (verifyAndMerge_result _ _ _ _ _ _ _ _ Htail) as (_ & Hchunks & _).
  apply verifyAndMerge_Ok in Htail as (w0 & _ & _ & _ & Hcu & Hgen).
  assert (Hinit : loopInv cfg (initialLoopState scheme cfg))
    by (apply initialLoopState_inv; lia).
  assert (Hfull0 : chunksFull cfg (initialLoopState scheme cfg)).
  { unfold chunksFull. simpl. split; [lia|now left]. }
  pose proof (chunkLoop_chunksFull env scheme cfg gen tempDir fuel
                ltac:(lia) Hsize _ _ _ _ Hinit Hfull0 Hloop) as [Htg Hn].
  apply chunkLoop_Ok in Hloop as [(Hg & Hu & _) Hall]; [|lia|exact Hinit].
  split; [congruence|]. split; [|lia].
  rewrite Hchunks. set (n := Z.of_nat (length (manChunks (man st)))) in *.
  apply (Z.div_unique _ _ n (Scale cfg + ChunkSize cfg - 1 - ChunkSize cfg * n));
    [|lia].
  left. nia.
Qed.

(** A result of [runScheme] for a scale S > 0 and a chunk size C > 0
    reports S generated identifiers in ceil(S / C) chunks, and a sum of
    locally-unique counts that does not exceed S. *)
Theorem runScheme_result_numbers (env : Env) (fuel : nat) (scheme : string)
    (cfg : Config) (w w' : World) (res : Result) :
  0 < Scale cfg < 2 ^ 63 ->
  0 < ChunkSize cfg ->
  runScheme env fuel scheme cfg w = (Ok res, w') ->
  Generated res = Scale cfg
  /\ Chunks res = (Scale cfg + ChunkSize cfg - 1) / ChunkSize cfg
  /\ ChunkUnique res <= Generated res.
Proof.
  exact (runScheme_numbers env fuel scheme cfg w w' res).
Qed.

Lemma runScheme_result_numbers_witness :
  Generated scenarioResult = 10
  /\ Chunks scenarioResult = (10 + 4 - 1) / 4
  /\ ChunkUnique scenarioResult <= Generated scenarioResult.
Proof.
  exact (runScheme_result_numbers _ 11%nat "ulid"%string
           (scriptedConfig "ulid" 10 4) initialWorld (snd scenarioRun)
           scenarioResult ltac:(simpl; lia) ltac:(simpl; lia) scenarioRun_eq).
Defined.

Lemma effectiveChunkSize_pos (cfg : Config) :
  0 < Scale cfg -> 0 < effectiveChunkSize cfg <= Scale cfg.
Proof.
  intros Hs. unfold effectiveChunkSize, minInt64.
  destruct ((ChunkSize cfg <=? 0) || (ChunkSize cfg >? Scale cfg)) eqn:E.
  - destruct (Scale cfg <? 1000000) eqn:E1; lia.
  - apply orb_false_iff in E as [E1 E2]. lia.
Qed.

(** Every result [Run] returns reports the whole scale as generated,
    whatever chunk size was asked for, in ceil(scale / chunk size) chunks
    for the chunk size [Run] works with, and counts that satisfy the
    consistency equation of [runScheme]. *)
Theorem Run_result_numbers (env : Env) (cfg : Config) (w w' : World)
    (results : list Result) :
  Scale cfg < 2 ^ 63 ->
  Run env cfg w = (Ok results, w') ->
  Forall (fun res =>
            Generated res = Scale cfg
            /\ Chunks res
               = (Scale cfg + effectiveChunkSize cfg - 1) / effectiveChunkSize cfg
            /\ ChunkUnique res = add64 (Unique res) (Duplicates res)
            /\ ChunkUnique res <= Generated res) results.
Proof.
  intros Hfit H. apply Run_Ok in H as (Hpos & cfg' & Hs & Hc & Hall).
  pose proof (effectiveChunkSize_pos cfg Hpos) as Hsize.
  rewrite <- Hs, <- Hc in *.
  induction Hall as [|s r schemes results (w1 & w2 & Hr) _ IH]; constructor; [|exact IH].
  assert (H1 : 0 < Scale cfg' < 2 ^ 63) by lia.
  assert (H2 : 0 < ChunkSize cfg') by lia.
  destruct (runScheme_numbers _ _ _ _ _ _ _ H1 H2 Hr) as (Hg & Hn & Hle).
  repeat split; auto.
  apply runScheme_Ok in Hr as (gen & tempDir & st & wa & wb & wc & _ & _ & Htail).
  apply verifyAndMerge_Ok in Htail as (w0 & _ & _ & Hsum & Hcu & _). congruence.
Qed.

Lemma Run_result_numbers_witness :
  Forall (fun res =>
            Generated res = 10
            /\ Chunks res = (10 + 4 - 1) / 4
            /\ ChunkUnique res = add64 (Unique res) (Duplicates res)
            /\ ChunkUnique res <= Generated res) [scenarioResult].
Proof.
  exact (Run_result_numbers _ (scriptedConfig "ulid" 10 4) initialWorld _ _
           ltac:(simpl; lia)
           (eq_trans (surjective_pairing _)
              (f_equal (fun r => (r, _)) scenario_Run_result))).
Defined.

Lemma bind_assoc {A B C} (c : M A) (k : A -> M B) (k' : B -> M C) (w : World) :
  bind (bind c k) k' w = bind c (fun a => bind (k a) k') w.
Proof. unfold bind. destruct (c w) as [[a| | |] w1]; reflexivity. Qed.

Lemma bind_ext {A B} (c : M A) (k1 k2 : A -> M B) (w : World) :
  (forall a w1, k1 a w1 = k2 a w1) -> bind c k1 w = bind c k2 w.
Proof. intros H. unfold bind. destruct (c w) as [[a| | |] w1]; auto. Qed.

Lemma runSchemes_app (env : Env) (cfg : Config) (l1 l2 : list string) :
  forall rs w,
    runSchemes env (l1 ++ l2) cfg rs w
    = bind (runSchemes env l1 cfg rs) (fun rs' => runSchemes env l2 cfg rs') w.
Proof.
  induction l1 as [|s l1 IH]; intros rs w; simpl; [reflexivity|].
  rewrite bind_assoc. apply bind_ext. intros done w1.
  destruct done; [reflexivity|].
  rewrite bind_assoc. apply bind_ext. intros res w2. apply IH.
Qed.

Lemma runSchemes_unknown_scheme (env : Env) (cfg : Config)
    (good rest : list string) (bad : string) (rs rs' : list Result)
    (w w1 : World) (e : error) :
  runSchemes env good cfg rs w = (Ok rs', w1) ->
  ctx_done env (clock w1) = false ->
  generatorFor env bad = Err e ->
  runSchemes env (good ++ bad :: rest) cfg rs w
  = (Err e, emit (EvPoll false) (tick env w1)).
Proof.
  intros Hgood Hctx Hbad. rewrite runSchemes_app. unfold bind at 1. rewrite Hgood.
  simpl. unfold bind at 1, ctxPoll. rewrite Hctx.
  unfold bind, runScheme. now rewrite Hbad.
Qed.

(** A scheme name [generatorFor] does not know is found out only when
    its turn comes: the schemes listed before it have run by then, and
    their results are dropped with the error. *)
Theorem unknown_scheme_found_late (env : Env) (cfg : Config)
    (good rest : list string) (bad : string) (rs rs' : list Result)
    (w w1 : World) (e : error) :
  runSchemes env good cfg rs w = (Ok rs', w1) ->
  ctx_done env (clock w1) = false ->
  generatorFor env bad = Err e ->
  runSchemes env (good ++ bad :: rest) cfg rs w
  = (Err e, emit (EvPoll false) (tick env w1)).
Proof. exact (runSchemes_unknown_scheme env cfg good rest bad rs rs' w w1 e). Qed.

Lemma scenario_runSchemes :
  fst (runSchemes (scriptedEnv scenarioIds (listHeap false)) ["ulid"]%string
         (scriptedConfig "ulid" 10 4) [] initialWorld)
  = Ok [scenarioResult].
Proof. vm_compute. reflexivity. Qed.

Lemma unknown_scheme_found_late_witness :
  runSchemes (scriptedEnv scenarioIds (listHeap false))
    (["ulid"%string] ++ "uuid"%string :: [])%list (scriptedConfig "ulid" 10 4) []
    initialWorld
  = (Err (ErrUnknownScheme "uuid"),
     emit (EvPoll false)
       (tick (scriptedEnv scenarioIds (listHeap false))
          (snd (runSchemes (scriptedEnv scenarioIds (listHeap false))
                  ["ulid"]%string (scriptedConfig "ulid" 10 4) [] initialWorld)))).
Proof.
  apply (unknown_scheme_found_late (scriptedEnv scenarioIds (listHeap false))
           (scriptedConfig "ulid" 10 4) ["ulid"]%string [] "uuid" []
           [scenarioResult] initialWorld).
  - exact (eq_trans (surjective_pairing _)
             (f_equal (fun r => (r, _)) scenario_runSchemes)).
  - reflexivity.
  - reflexivity.
Defined.

(** ** [verifyChunks] *)

Lemma hashFile_calm (env : Env) (path : string) (w : World) :
  calmStorage env ->
  exists w',
    files w' = files w
    /\ hashFile env path w
       = (match files w !! path with
          | Some content => Ok (hexEncode (sha256 env content))
          | None => Err (ErrNotExist path)
          end, w').
Proof.
  intros [Hd Hf]. unfold hashFile, osOpen, defer, bind, io.
  rewrite Hf. simpl. rewrite Hd.
  destruct (files w !! path) as [content|]; simpl.
  - rewrite Hf. eexists. split; [|reflexivity]. simpl. now rewrite Hd.
  - eexists. split; [|reflexivity]. simpl. now rewrite Hd.
Qed.

Lemma verifyChunks_calm (env : Env) (m : manifest) (w w' : World)
    (r : outcome unit) :
  calmStorage env ->
  verifyChunks env m w = (r, w') ->
  files w' = files w
  /\ match r with
     | Ok _ => Forall (chunkIntact env (files w)) (manChunks m)
     | Err e =>
         exists before ch after,
           manChunks m = before ++ ch :: after
           /\ Forall (chunkIntact env (files w)) before
           /\ verifyFault env (files w) ch e
     | _ => False
     end.
Proof.
  intros Hcalm. unfold verifyChunks. generalize (manChunks m) as chunks.
  intros chunks. revert w. induction chunks as [|ch chunks IH]; intros w; simpl.
  { intros [= <- <-]. auto. }
  destruct (hashFile_calm env (Path ch) w Hcalm) as (w1 & Hfiles & ->).
  destruct (files w !! Path ch) as [content|] eqn:Hfile.
  - destruct (String.eqb_spec (hexEncode (sha256 env content)) (Hash ch)) as [Heq|Hne].
    + intros H. apply IH in H as [Hf Hr]. rewrite Hfiles in *. split; [exact Hf|].
      assert (Hch : chunkIntact env (files w) ch) by (exists content; auto).
      destruct r as [u|e| |]; auto.
      destruct Hr as (before & c & after & -> & Hb & He).
      exists (ch :: before), c, after. auto.
    + intros [= <- <-]. split; [exact Hfiles|].
      exists [], ch, chunks. repeat split; auto.
      unfold verifyFault. rewrite Hfile. auto.
  - intros [= <- <-]. split; [exact Hfiles|].
    exists [], ch, chunks. repeat split; auto.
    unfold verifyFault. now rewrite Hfile.
Qed.

(** With storage left alone and no failing operation, [verifyChunks]
    succeeds exactly on a manifest all of whose chunk files are there
    and hash to the recorded hashes; otherwise it returns the error for
    the first chunk record, in manifest order, that is not intact.  It
    changes no file. *)
Theorem verifyChunks_decides (env : Env) (m : manifest) (w w' : World)
    (r : outcome unit) :
  calmStorage env ->
  verifyChunks env m w = (r, w') ->
  files w' = files w
  /\ match r with
     | Ok _ => Forall (chunkIntact env (files w)) (manChunks m)
     | Err e =>
         exists before ch after,
           manChunks m = before ++ ch :: after
           /\ Forall (chunkIntact env (files w)) before
           /\ verifyFault env (files w) ch e
     | _ => False
     end.
Proof. exact (verifyChunks_calm env m w w' r). Qed.

Lemma scriptedEnv_calm (ids : list string) (H : HeapImpl) :
  calmStorage (scriptedEnv ids H).
Proof. split; reflexivity. Qed.

Lemma tie_verify_fails :
  fst (verifyChunks (scriptedEnv [] (listHeap false)) tieManifest tieWorld)
  = Err (ErrVerifyMismatch "a.dat" "" (hexEncode (chunkBytes ["X"; "Y"]%string))).
Proof. vm_compute. reflexivity. Qed.

Lemma verifyChunks_decides_witness :
  exists before ch after,
    manChunks tieManifest = before ++ ch :: after
    /\ Forall (chunkIntact (scriptedEnv [] (listHeap false)) (files tieWorld)) before
    /\ verifyFault (scriptedEnv [] (listHeap false)) (files tieWorld) ch
         (ErrVerifyMismatch "a.dat" "" (hexEncode (chunkBytes ["X"; "Y"]%string))).
Proof.
  exact (proj2 (verifyChunks_decides (scriptedEnv [] (listHeap false))
                  tieManifest tieWorld _ _ (scriptedEnv_calm _ _)
                  (eq_trans (surjective_pairing _)
                     (f_equal (fun r => (r, _)) tie_verify_fails)))).
Defined.

(** ** The verification gate of [runScheme] *)

Lemma bind_split {A B} (c : M A) (k : A -> M B) (w w' : World) (r : outcome B) :
  bind c k w = (r, w') ->
  (exists a w1, c w = (Ok a, w1) /\ k a w1 = (r, w'))
  \/ (exists ra, c w = (ra, w') /\ forall a, ra <> Ok a).
Proof.
  unfold bind. destruct (c w) as [[a|e| |] w1] eqn:E; intros H.
  - left. eauto.
  - right. injection H as <- <-. eexists. split; [reflexivity|discriminate].
  - right. injection H as <- <-. eexists. split; [reflexivity|discriminate].
  - right. injection H as <- <-. eexists. split; [reflexivity|discriminate].
Qed.

Lemma runScheme_gate (env : Env) (fuel : nat) (scheme : string) (cfg : Config)
    (w w' : World) (r : outcome Result) :
  runScheme env fuel scheme cfg w = (r, w') ->
  extends notMergeBegin (trace w) (trace w')
  \/ exists gen tempDir st w1 w2 w3,
       chunkLoop env fuel scheme cfg gen tempDir (initialLoopState scheme cfg) w1
       = (Ok st, w2)
       /\ verifyChunks env (man st) w2 = (Ok tt, w3).
Proof.
  unfold runScheme. destruct (generatorFor env scheme) as [gen|e| |].
  2-4: intros [= <- <-]; left; apply extends_refl.
  intros H.
  assert (Hbase : emitsOnly notMergeBegin
            (if String.eqb (TempDir cfg) ""
             then let* cwd := osGetwd env in
                  osMkdirAll env (pathJoin cwd "tmp") ;; ret (pathJoin cwd "tmp")
             else ret (TempDir cfg))).
  { destruct (String.eqb (TempDir cfg) ""); [|apply emitsOnly_ret].
    apply emitsOnly_bind; [apply emitsOnly_osGetwd|]. intros cwd.
    apply emitsOnly_bind; [|intros _; apply emitsOnly_ret].
    apply emitsOnly_osMkdirAll. intros. discriminate. }
  apply bind_split in H as [(baseDir & w1 & Hc1 & H)|(ra & Hc1 & _)].
  2:{ left. eapply Hbase; eauto. }
  apply Hbase in Hc1.
  apply bind_split in H as [(tempDir & w2 & Hc2 & H)|(ra & Hc2 & _)].
  2:{ left. eapply extends_trans; [exact Hc1|]. eapply nm_osMkdirTemp; eauto. }
  apply nm_osMkdirTemp in Hc2.
  pose proof (extends_trans _ _ _ _ Hc1 Hc2) as Hext. clear Hc1 Hc2.
  apply defer_inv in H as (w3 & H & ->).
  assert (Hclean : forall wx,
             extends notMergeBegin (trace w) (trace wx) ->
             extends notMergeBegin (trace w)
               (trace ((if KeepTempData cfg then id
                        else osRemoveAll env tempDir) wx))).
  { intros wx Hx. destruct (KeepTempData cfg); [exact Hx|].
    eapply extends_trans; [exact Hx|apply nm_osRemoveAll]. }
  apply bind_split in H as [(u & w4 & Hc4 & H)|(ra & Hc4 & _)].
  2:{ left. apply Hclean. eapply extends_trans; [exact Hext|].
      eapply nm_ensureDisk; eauto. }
  apply nm_ensureDisk in Hc4.
  pose proof (extends_trans _ _ _ _ Hext Hc4) as Hext4. clear Hext Hc4.
  apply bind_split in H as [(st & w5 & Hc5 & H)|(ra & Hc5 & _)].
  2:{ left. apply Hclean. eapply extends_trans; [exact Hext4|].
      eapply nm_chunkLoop; eauto. }
  pose proof (nm_chunkLoop _ _ _ _ _ _ _ _ _ _ Hc5) as Hloop.
  unfold verifyAndMerge in H.
  apply bind_split in H as [(u' & w6 & Hc6 & H)|(ra & Hc6 & _)].
  - right. destruct u'. exists gen, tempDir, st, w4, w5, w6. auto.
  - left. apply Hclean. eapply extends_trans; [exact Hext4|].
    eapply extends_trans; [exact Hloop|]. eapply nm_verifyChunks; eauto.
Qed.


Lemma existsb_isMergeBegin (evs : list Event) :
  existsb isMergeBegin evs = true -> EvMergeBegin ∈ evs.
Proof.
  induction evs as [|ev evs IH]; simpl; [discriminate|].
  destruct ev; simpl; try (intros H; right; now apply IH).
  intros _. left.
Qed.

Lemma scenario_enters_merge :
  existsb isMergeBegin (trace (snd scenarioRun)) = true.
Proof. vm_compute. reflexivity. Qed.


(** When [verifyChunks] fails, the tail of [runScheme] returns its error
    in the very world the verification ended in: [mergeChunks] has not
    been entered and no cursor has been opened for it. *)
Theorem verification_failure_aborts (env : Env) (scheme : string) (cfg : Config)
    (tempDir : string) (st : loopState) (w w1 : World) (e : error) :
  verifyChunks env (man st) w = (Err e, w1) ->
  verifyAndMerge env scheme cfg tempDir st w = (Err e, w1)
  /\ extends notMergeBegin (trace w) (trace w1).
Proof.
  intros Hv. split.
  - unfold verifyAndMerge, bind. now rewrite Hv.
  - eapply nm_verifyChunks; eauto.
Qed.

Lemma verification_failure_aborts_witness :
  verifyAndMerge (scriptedEnv [] (listHeap false)) "ulid"
    (scriptedConfig "ulid" 10 4) "/tmp"
    {| man := tieManifest; totalGenerated := 3; totalUniqueSum := 3;
       chunkIndex := 2 |} tieWorld
  = (Err (ErrVerifyMismatch "a.dat" "" (hexEncode (chunkBytes ["X"; "Y"]%string))),
     snd (verifyChunks (scriptedEnv [] (listHeap false)) tieManifest tieWorld)).
Proof.
  exact (proj1 (verification_failure_aborts (scriptedEnv [] (listHeap false))
                  "ulid" (scriptedConfig "ulid" 10 4) "/tmp"
                  {| man := tieManifest; totalGenerated := 3; totalUniqueSum := 3;
                     chunkIndex := 2 |} tieWorld _ _
                  (eq_trans (surjective_pairing _)
                     (f_equal (fun r => (r, _)) tie_verify_fails)))).
Defined.

(** ** The errors of the steps of a run *)

Lemma raises_weaken {A} (P Q : error -> Prop) (c : M A) :
  (forall e, P e -> Q e) -> raises P c -> raises Q c.
Proof. intros HPQ Hc w e w' H. eauto. Qed.

Lemma raises_ret {A} (P : error -> Prop) (a : A) : raises P (ret a).
Proof. intros w e w' [=]. Qed.

Lemma raises_fail {A} (P : error -> Prop) (e : error) :
  P e -> raises P (@fail A e).
Proof. intros He w e' w' [= <- _]. exact He. Qed.

Lemma raises_bind {A B} (P : error -> Prop) (c : M A) (k : A -> M B) :
  raises P c -> (forall a, raises P (k a)) -> raises P (bind c k).
Proof.
  intros Hc Hk w e w' H. unfold bind in H.
  destruct (c w) as [[a|e1| |] w1] eqn:E; try discriminate.
  - eapply Hk; eauto.
  - injection H as <- <-. eapply Hc; eauto.
Qed.

Lemma raises_defer {A} (P : error -> Prop) (f : World -> World) (c : M A) :
  raises P c -> raises P (defer f c).
Proof.
  intros Hc w e w' H. unfold defer in H.
  destruct (c w) as [r w1] eqn:E. injection H as -> _. eapply Hc; eauto.
Qed.

Lemma raises_step {A} (P : error -> Prop) (a : A) (f : World -> World) :
  raises P (fun w => (Ok a, f w)).
Proof. intros w e w' [=]. Qed.

Lemma raises_panic {A} (P : error -> Prop) : raises P (fun w => (@Panic A, w)).
Proof. intros w e w' [=]. Qed.

Lemma raises_out_of_fuel {A} (P : error -> Prop) :
  raises P (fun w => (@OutOfFuel A, w)).
Proof. intros w e w' [=]. Qed.

Section Raises.
Variable env : Env.
Variable P : error -> Prop.

Lemma raises_io (op path : string) : P (ErrIO op path) -> raises P (io env op path).
Proof.
  intros HP w e w'. unfold io. destruct (io_fault env (clock w)); intros [=].
  now subst.
Qed.

Lemma raises_ctxPoll : raises P (ctxPoll env).
Proof. intros w e w' [=]. Qed.

Lemma raises_generate (g : Generator) : raises P (generate env g).
Proof. intros w e w' [=]. Qed.

Lemma raises_printf : raises P printf.
Proof. intros w e w' [=]. Qed.

Lemma raises_generateIDs (g : Generator) (n : nat) :
  forall ids, raises P (generateIDs env g n ids).
Proof.
  induction n as [|n IH]; intros ids; simpl; [apply raises_ret|].
  apply raises_bind; [apply raises_generate|]. intros id. apply IH.
Qed.

Lemma raises_osGetwd : P ErrGetwd -> raises P (osGetwd env).
Proof.
  intros HP w e w'. unfold osGetwd. destruct (getwd env (clock w)); intros [=].
  now subst.
Qed.

Lemma raises_diskUsage (path : string) : P ErrReadDisk -> raises P (diskUsage env path).
Proof.
  intros HP w e w'. unfold diskUsage. destruct (disk_free env (clock w)); intros [=].
  now subst.
Qed.

Lemma raises_virtualMemory : P ErrReadMemory -> raises P (virtualMemory env).
Proof.
  intros HP w e w'. unfold virtualMemory.
  destruct (mem_available env (clock w)); intros [=]. now subst.
Qed.

Hypothesis P_io : forall op path, P (ErrIO op path).

Lemma raises_osMkdirAll (dir : string) : raises P (osMkdirAll env dir).
Proof. apply raises_bind; [now apply raises_io|]. intros _. apply raises_step. Qed.

Lemma raises_osMkdirTemp (base pattern : string) :
  raises P (osMkdirTemp env base pattern).
Proof.
  intros w e w' H.
  apply osMkdirTemp_inv in H
    as [(_ & H & _)|[(_ & _ & H & _)|(_ & _ & name & H & _)]];
    try discriminate; injection H as ->; apply P_io.
Qed.

Lemma raises_osCreate (path : string) : raises P (osCreate env path).
Proof.
  apply raises_bind; [now apply raises_io|]. intros _ w e w'.
  destruct (allocFd w). intros [=].
Qed.

Lemma raises_fileWrite (path bytes : string) : raises P (fileWrite env path bytes).
Proof. apply raises_bind; [now apply raises_io|]. intros _. apply raises_step. Qed.

Lemma raises_osWriteFile (path data : string) : raises P (osWriteFile env path data).
Proof. apply raises_bind; [now apply raises_io|]. intros _. apply raises_step. Qed.

Lemma raises_writeValues (path : string) (values : list string) :
  raises P (writeValues env path values).
Proof.
  induction values as [|v values IH]; simpl; [apply raises_ret|].
  apply raises_bind; [apply raises_fileWrite|]. intros _.
  apply raises_bind; [apply raises_fileWrite|]. intros _. exact IH.
Qed.

Lemma raises_writeChunkFile (path : string) (values : list string) :
  raises P (writeChunkFile env path values).
Proof.
  apply raises_bind; [apply raises_osMkdirAll|]. intros _.
  apply raises_bind; [apply raises_osCreate|]. intros f.
  apply raises_defer.
  apply raises_bind; [apply raises_writeValues|]. intros _.
  apply raises_bind; [now apply raises_io|]. intros _.
  apply raises_bind; [now apply raises_io|]. intros _. apply raises_ret.
Qed.

Hypothesis P_not_exist : forall path, P (ErrNotExist path).

Lemma raises_osOpen (path : string) : raises P (osOpen env path).
Proof.
  apply raises_bind; [now apply raises_io|]. intros _ w e w'.
  destruct (files w !! path); [destruct (allocFd w); intros [=]|].
  intros [= <- _]. apply P_not_exist.
Qed.

Lemma raises_osStat (path : string) : raises P (osStat env path).
Proof.
  apply raises_bind; [now apply raises_io|]. intros _ w e w'.
  destruct (files w !! path); intros [=]. subst. apply P_not_exist.
Qed.

Lemma raises_osRename (src dst : string) : raises P (osRename env src dst).
Proof.
  apply raises_bind; [now apply raises_io|]. intros _ w e w'.
  destruct (files w !! src); intros [=]. subst. apply P_not_exist.
Qed.

Lemma raises_hashFile (path : string) : raises P (hashFile env path).
Proof.
  apply raises_bind; [apply raises_osOpen|]. intros [f content].
  apply raises_defer.
  apply raises_bind; [now apply raises_io|]. intros _. apply raises_ret.
Qed.

Lemma raises_saveManifest (dir : string) (m : manifest) :
  raises P (saveManifest env dir m).
Proof.
  unfold saveManifest. destruct (jsonMarshal env m); [|now apply raises_fail].
  apply raises_bind; [apply raises_osWriteFile|]. intros _.
  apply raises_bind; [apply raises_osRename|]. intros _.
  apply raises_osWriteFile.
Qed.

Hypothesis P_too_long : P ErrTooLong.

Lemma raises_advance (r : chunkReader) : raises P (advance env r).
Proof.
  unfold advance. destruct (eof r); [apply raises_ret|].
  apply raises_bind; [now apply raises_io|]. intros _.
  destruct (scanLine (scanner r)) eqn:E; try apply raises_ret.
  apply scanLine_error in E as ->. now apply raises_fail.
Qed.

Lemma raises_newChunkReader (m : chunkMeta) : raises P (newChunkReader env m).
Proof.
  apply raises_bind; [apply raises_osOpen|]. intros [f content] w e w' H.
  cbv beta zeta in H.
  destruct (advance env _ w) as [[a|e1| |] w1] eqn:E; try discriminate.
  injection H as <- _. eapply raises_advance; eauto.
Qed.

Lemma raises_openReaders (chunks : list chunkMeta) :
  forall readers, raises P (openReaders env chunks readers).
Proof.
  induction chunks as [|m chunks IH]; intros readers; simpl; [apply raises_ret|].
  intros w e w' H.
  destruct (newChunkReader env m w) as [[cr|e1| |] w1] eqn:E; try discriminate.
  - destruct (eof cr); eapply IH; eauto.
  - injection H as <- _. eapply raises_newChunkReader; eauto.
Qed.

Hypothesis P_canceled : P ErrCanceled.

Lemma raises_mergeLoop (verbose : bool) (logInterval : Z) (fuel : nat) :
  forall h readers prevValue hasPrev unique duplicates processed,
    raises P (mergeLoop env fuel verbose logInterval h readers prevValue hasPrev
                unique duplicates processed).
Proof.
  induction fuel as [|fuel IH]; intros h readers prevValue hasPrev u d p; simpl.
  { apply raises_out_of_fuel. }
  destruct h as [|x h]; [apply raises_ret|].
  apply raises_bind; [apply raises_ctxPoll|]. intros done.
  destruct done; [now apply raises_fail|].
  destruct (heap_pop _ _) as [[entry h1]|]; [|apply raises_panic].
  apply raises_bind; [apply raises_step|]. intros _.
  apply raises_bind.
  { destruct (_ && _); [apply raises_printf|apply raises_ret]. }
  intros _. destruct (readers !! _); [|apply raises_panic].
  apply raises_bind; [apply raises_advance|]. intros r'. apply IH.
Qed.

Lemma raises_mergeChunks (m : manifest) (verbose : bool) (logInterval : Z) :
  P ErrNoChunks -> P ErrAllChunksEmpty ->
  raises P (mergeChunks env m verbose logInterval).
Proof.
  intros H1 H2. apply raises_bind; [apply raises_step|]. intros _.
  destruct (manChunks m); [now apply raises_fail|].
  apply raises_bind; [apply raises_openReaders|]. intros readers.
  destruct readers; [now apply raises_fail|].
  apply raises_defer. apply raises_mergeLoop.
Qed.

End Raises.

Lemma raises_verifyChunks (env : Env) (m : manifest) :
  raises (fun e => (exists path cause, e = ErrHashChunk path cause
                                       /\ storageError cause
                                       /\ cause <> ErrTooLong)
                   \/ exists path expected got,
                        e = ErrVerifyMismatch path expected got
                        /\ expected <> got)
    (verifyChunks env m).
Proof.
  unfold verifyChunks. induction (manChunks m) as [|ch chunks IH]; simpl.
  { apply raises_ret. }
  intros w e w' H.
  destruct (hashFile env (Path ch) w) as [[hash|e1| |] w1] eqn:E; try discriminate.
  - destruct (String.eqb hash (Hash ch)) eqn:Eh; [eapply IH; eauto|].
    injection H as <- _. right. do 3 eexists. split; [reflexivity|].
    apply String.eqb_neq in Eh. congruence.
  - injection H as <- _. left. do 2 eexists. split; [reflexivity|].
    eapply (raises_hashFile env
              (fun e => storageError e /\ e <> ErrTooLong)) in E; auto;
      intros; split; simpl; auto; discriminate.
Qed.

(** ** The shape of a scheme run *)

Lemma runScheme_shape (env : Env) (fuel : nat) (scheme : string) (cfg : Config)
    (gen : Generator) (w : World) :
  generatorFor env scheme = Ok gen ->
  runScheme env fuel scheme cfg w
  = bind (schemeDir env scheme cfg)
      (fun tempDir =>
         defer (cleanup env cfg tempDir)
           (schemeBody env fuel scheme cfg gen tempDir)) w.
Proof.
  intros Hgen. unfold runScheme. rewrite Hgen.
  unfold schemeDir. rewrite bind_assoc. reflexivity.
Qed.

Lemma trace_cleanup (env : Env) (cfg : Config) (tempDir : string) (w : World) :
  trace (cleanup env cfg tempDir w) = cleanupEvents cfg tempDir ++ trace w.
Proof.
  unfold cleanup, cleanupEvents. destruct (KeepTempData cfg); [reflexivity|].
  apply osRemoveAll_trace.
Qed.

Lemma genCalls_cleanup (env : Env) (cfg : Config) (tempDir : string) (w : World) :
  genCalls (cleanup env cfg tempDir w) = genCalls w.
Proof.
  unfold cleanup. destruct (KeepTempData cfg); [reflexivity|].
  apply osRemoveAll_trace.
Qed.

Lemma raises_schemeDir (env : Env) (scheme : string) (cfg : Config)
    (P : error -> Prop) :
  P ErrGetwd -> (forall op path, P (ErrIO op path)) ->
  raises P (schemeDir env scheme cfg).
Proof.
  intros H1 H2. apply raises_bind; [|intros; now apply raises_osMkdirTemp].
  destruct (String.eqb _ _); [|apply raises_ret].
  apply raises_bind; [now apply raises_osGetwd|]. intros cwd.
  apply raises_bind; [now apply raises_osMkdirAll|]. intros _. apply raises_ret.
Qed.

Lemma bind_raises_inv {A B} (P : error -> Prop) (c : M A) (k : A -> M B)
    (w w' : World) (e : error) :
  raises P c -> ~ P e -> bind c k w = (Err e, w') ->
  exists a w1, c w = (Ok a, w1) /\ k a w1 = (Err e, w').
Proof.
  intros Hc He H. unfold bind in H.
  destruct (c w) as [[a|e1| |] w1] eqn:E; try discriminate; [eauto|].
  injection H as <- <-. destruct He. eapply Hc; eauto.
Qed.

(** ** The memory guard *)

Lemma ensureMemory_short (env : Env) (cfg : Config) (n m : Z) (w w' : World) :
  ensureMemory env cfg n w = (Err (ErrInsufficientMemory m), w') ->
  m = n /\ trace w' = EvVirtualMemory :: trace w /\ genCalls w' = genCalls w.
Proof.
  unfold ensureMemory. destruct (_ && _); [discriminate|].
  unfold bind, virtualMemory.
  destruct (mem_available env (clock w)); [|discriminate].
  destruct (F64.ltb _ _); [|discriminate].
  intros [= <- <-]. auto.
Qed.

Lemma raises_ensureDisk (env : Env) (P : error -> Prop) (path : string)
    (bytes : Z) (safety : F64.t) :
  P ErrReadDisk -> P (ErrInsufficientDisk path) ->
  raises P (ensureDisk env path bytes safety).
Proof.
  intros H1 H2. apply raises_bind; [now apply raises_diskUsage|]. intros free.
  cbv zeta. destruct (F64.ltb _ _); [now apply raises_fail|apply raises_ret].
Qed.

Lemma raises_verifyAndMerge (env : Env) (P : error -> Prop) (scheme : string)
    (cfg : Config) (tempDir : string) (st : loopState) :
  (forall e, storageError e -> P e) ->
  (forall path cause, P (ErrHashChunk path cause)) ->
  (forall path expected got, P (ErrVerifyMismatch path expected got)) ->
  P ErrCanceled -> P ErrNoChunks -> P ErrAllChunksEmpty ->
  (forall s u d, P (ErrInconsistent s u d)) ->
  raises P (verifyAndMerge env scheme cfg tempDir st).
Proof.
  intros Hs Hh Hv Hc Hn He Hi. apply raises_bind.
  { eapply raises_weaken; [|apply raises_verifyChunks].
    intros e [(path & cause & -> & _)|(path & ex & got & -> & _)]; auto. }
  intros _. apply raises_bind.
  { apply raises_mergeChunks; auto; intros; apply Hs; exact I. }
  intros [unique duplicates].
  destruct (negb _); [apply raises_fail; auto|apply raises_ret].
Qed.

Lemma chunkLoop_short (env : Env) (scheme : string) (cfg : Config)
    (gen : Generator) (tempDir : string) (fuel : nat) :
  forall st w n w',
    chunkLoop env fuel scheme cfg gen tempDir st w
    = (Err (ErrInsufficientMemory n), w') ->
    exists t, trace w' = EvVirtualMemory :: EvPoll false :: t.
Proof.
  induction fuel as [|fuel IH]; intros st w n w'; simpl; [discriminate|].
  destruct (totalGenerated st <? Scale cfg); [|discriminate].
  unfold bind at 1. unfold ctxPoll at 1.
  destruct (ctx_done env (clock w)); [discriminate|].
  set (w1 := emit (EvPoll false) (tick env w)).
  unfold bind at 1.
  destruct (ensureMemory env cfg _ w1) as [[[]|e| |] w2] eqn:Emem;
    try discriminate.
  2:{ intros [= -> <-]. apply ensureMemory_short in Emem as (_ & -> & _).
      now exists (trace w). }
  destruct (_ >? maxInt); [discriminate|].
  destruct (_ <? 0); [discriminate|].
  intros H.
  assert (Hno : ~ notShortOfMemory (ErrInsufficientMemory n)) by (simpl; tauto).
  apply (bind_raises_inv notShortOfMemory) in H as (chunkIDs & w3 & _ & H);
    [|apply raises_generateIDs|exact Hno].
  apply (bind_raises_inv notShortOfMemory) in H as (u & w4 & _ & H);
    [|apply raises_writeChunkFile; intros; exact I|exact Hno].
  apply (bind_raises_inv notShortOfMemory) in H as (fileHash & w5 & _ & H);
    [|apply raises_hashFile; intros; exact I|exact Hno].
  destruct (negb _); [discriminate|].
  apply (bind_raises_inv notShortOfMemory) in H as (size & w6 & _ & H);
    [|apply raises_osStat; intros; exact I|exact Hno].
  apply (bind_raises_inv notShortOfMemory) in H as (u1 & w7 & _ & H);
    [|apply raises_saveManifest; intros; exact I|exact Hno].
  apply (bind_raises_inv notShortOfMemory) in H as (u2 & w8 & _ & H);
    [|..|exact Hno].
  2:{ destruct (Verbose cfg); [|apply raises_ret].
      destruct (_ =? 0); [apply raises_panic|].
      destruct (_ =? 0); [apply raises_printf|apply raises_ret]. }
  eapply IH; eauto.
Qed.

(** A scheme run that ends in the error of the memory guard has done
    nothing since the failing reading of the available memory except to
    remove its directory: the reading follows the poll that opens the
    iteration, so no identifier of the refused chunk was generated. *)
Theorem memory_guard_blocks_generation (env : Env) (fuel : nat) (scheme : string)
    (cfg : Config) (w w' : World) (n : Z) :
  runScheme env fuel scheme cfg w = (Err (ErrInsufficientMemory n), w') ->
  exists tempDir t,
    trace w' = cleanupEvents cfg tempDir ++ EvVirtualMemory :: EvPoll false :: t.
Proof.
  intros H.
  assert (Hno : ~ notShortOfMemory (ErrInsufficientMemory n)) by (simpl; tauto).
  destruct (generatorFor env scheme) as [gen|e| |] eqn:Hgen.
  2-4: unfold runScheme in H; rewrite Hgen in H; try discriminate.
  2:{ injection H as -> _. unfold generatorFor in Hgen.
      repeat (destruct (_ || _) || destruct (String.eqb _ _)); discriminate. }
  rewrite (runScheme_shape _ _ _ _ _ _ Hgen) in H.
  apply (bind_raises_inv notShortOfMemory) in H as (tempDir & w1 & _ & H);
    [|apply raises_schemeDir; intros; exact I|exact Hno].
  apply defer_inv in H as (w2 & H & ->). exists tempDir.
  rewrite trace_cleanup. unfold schemeBody in H.
  apply (bind_raises_inv notShortOfMemory) in H as (u & w3 & _ & H);
    [|apply raises_ensureDisk; exact I|exact Hno].
  unfold bind in H.
  destruct (chunkLoop env fuel scheme cfg gen tempDir _ w3) as [[st|e| |] w4] eqn:E;
    try discriminate.
  - exfalso. apply Hno.
    eapply (raises_verifyAndMerge env notShortOfMemory); eauto;
      intros; try exact I. now destruct e.
  - injection H as -> ->.
    apply chunkLoop_short in E as [t Ht]. exists t. now rewrite Ht.
Qed.

Lemma scarceMemoryRun_fails : fst scarceMemoryRun = Err (ErrInsufficientMemory 4).
Proof. vm_compute. reflexivity. Qed.

Lemma memory_guard_blocks_generation_witness :
  exists tempDir t,
    trace (snd scarceMemoryRun)
    = cleanupEvents (removingConfig "ulid" 10 4) tempDir
      ++ EvVirtualMemory :: EvPoll false :: t.
Proof.
  exact (memory_guard_blocks_generation _ 11%nat "ulid"%string
           (removingConfig "ulid" 10 4) initialWorld (snd scarceMemoryRun) 4
           (eq_trans (surjective_pairing _)
              (f_equal (fun r => (r, _)) scarceMemoryRun_fails))).
Defined.

(** ** The disk guard *)

Lemma raises_ensureMemory (env : Env) (P : error -> Prop) (cfg : Config) (n : Z) :
  P ErrReadMemory -> P (ErrInsufficientMemory n) ->
  raises P (ensureMemory env cfg n).
Proof.
  intros H1 H2. unfold ensureMemory. destruct (_ && _); [apply raises_ret|].
  apply raises_bind; [now apply raises_virtualMemory|]. intros available.
  cbv zeta. destruct (F64.ltb _ _); [now apply raises_fail|apply raises_ret].
Qed.

Lemma raises_chunkLoop (env : Env) (P : error -> Prop) (scheme : string)
    (cfg : Config) (gen : Generator) (tempDir : string) (fuel : nat) :
  P ErrCanceled -> P ErrReadMemory -> (forall n, P (ErrInsufficientMemory n)) ->
  (forall n, P (ErrChunkTooLarge n)) ->
  (forall a b, P (ErrChunkHashMismatch a b)) ->
  (forall e, storageError e -> P e) ->
  forall st, raises P (chunkLoop env fuel scheme cfg gen tempDir st).
Proof.
  intros Hc Hr Hm Hl Hh Hs.
  assert (Hio : forall op path, P (ErrIO op path)) by (intros; apply Hs; exact I).
  assert (Hne : forall path, P (ErrNotExist path)) by (intros; apply Hs; exact I).
  induction fuel as [|fuel IH]; intros st; simpl; [apply raises_out_of_fuel|].
  destruct (totalGenerated st <? Scale cfg); [|apply raises_ret].
  apply raises_bind; [apply raises_ctxPoll|]. intros done.
  destruct done; [now apply raises_fail|].
  apply raises_bind; [now apply raises_ensureMemory|]. intros _.
  destruct (_ >? maxInt); [now apply raises_fail|].
  destruct (_ <? 0); [apply raises_panic|].
  apply raises_bind; [apply raises_generateIDs|]. intros chunkIDs.
  apply raises_bind; [now apply raises_writeChunkFile|]. intros _.
  apply raises_bind; [now apply raises_hashFile|]. intros fileHash.
  destruct (negb _); [now apply raises_fail|].
  apply raises_bind; [now apply raises_osStat|]. intros size.
  apply raises_bind; [now apply raises_saveManifest|]. intros _.
  apply raises_bind; [|intros _; apply IH].
  destruct (Verbose cfg); [|apply raises_ret].
  destruct (_ =? 0); [apply raises_panic|].
  destruct (_ =? 0); [apply raises_printf|apply raises_ret].
Qed.

Lemma schemeDir_Ok (env : Env) (scheme : string) (cfg : Config) (w w1 : World)
    (tempDir : string) :
  schemeDir env scheme cfg w = (Ok tempDir, w1) ->
  genCalls w1 = genCalls w
  /\ exists t, trace w1 = EvMkdirTemp tempDir :: t.
Proof.
  unfold schemeDir. intros H. bind_inv H. rename a into baseDir.
  assert (Hg : genCalls w0 = genCalls w).
  { destruct (String.eqb _ _); [|now injection Hc as _ ->].
    unfold bind, osGetwd, osMkdirAll, bind, io in Hc.
    destruct (getwd env (clock w)); [|discriminate].
    destruct (io_fault env _); [discriminate|]. now injection Hc as _ <-. }
  apply osMkdirTemp_inv in H
    as [(_ & H & _)|[(_ & _ & H & _)|(_ & _ & name & H & ->)]];
    try discriminate. injection H as <-.
  split; [exact Hg|]. eexists. reflexivity.
Qed.

(** A scheme run that ends in the error of the disk guard has created
    its directory, read the free space and removed the directory again
    (unless the data is kept): no memory was checked, no identifier
    generated and no chunk written. *)
Theorem disk_guard_blocks_run (env : Env) (fuel : nat) (scheme : string)
    (cfg : Config) (w w' : World) (path : string) :
  runScheme env fuel scheme cfg w = (Err (ErrInsufficientDisk path), w') ->
  genCalls w' = genCalls w
  /\ exists t,
       trace w' = cleanupEvents cfg path ++ EvDiskUsage path :: EvMkdirTemp path :: t.
Proof.
  intros H.
  assert (Hno : ~ notShortOfDisk (ErrInsufficientDisk path)) by (simpl; tauto).
  destruct (generatorFor env scheme) as [gen|e| |] eqn:Hgen.
  2-4: unfold runScheme in H; rewrite Hgen in H; try discriminate.
  2:{ injection H as -> _. unfold generatorFor in Hgen.
      repeat (destruct (_ || _) || destruct (String.eqb _ _)); discriminate. }
  rewrite (runScheme_shape _ _ _ _ _ _ Hgen) in H.
  apply (bind_raises_inv notShortOfDisk) in H as (tempDir & w1 & Hdir & H);
    [|apply raises_schemeDir; intros; exact I|exact Hno].
  apply schemeDir_Ok in Hdir as [Hg [t Ht]].
  apply defer_inv in H as (w2 & H & ->).
  rewrite trace_cleanup, genCalls_cleanup. unfold schemeBody in H.
  unfold bind at 1 in H.
  destruct (ensureDisk env tempDir _ _ w1) as [[[]|e| |] w3] eqn:Edisk;
    try discriminate.
  - exfalso. apply Hno. revert H.
    apply (raises_bind notShortOfDisk).
    + apply raises_chunkLoop; intros; try exact I. now destruct e.
    + intros st. apply raises_verifyAndMerge; intros; try exact I. now destruct e.
  - injection H as -> ->. unfold ensureDisk, bind, diskUsage in Edisk.
    destruct (disk_free env (clock w1)); [|discriminate].
    destruct (F64.ltb _ _); [|discriminate].
    injection Edisk as <- <-. simpl. split; [exact Hg|].
    exists t. now rewrite Ht.
Qed.

Lemma scarceDiskRun_fails :
  fst scarceDiskRun = Err (ErrInsufficientDisk "/tmp/uidstress-ulid-0001").
Proof. vm_compute. reflexivity. Qed.

Lemma disk_guard_blocks_run_witness :
  genCalls (snd scarceDiskRun) = genCalls initialWorld
  /\ exists t,
       trace (snd scarceDiskRun)
       = cleanupEvents (removingConfig "ulid" 10 4) "/tmp/uidstress-ulid-0001"
         ++ EvDiskUsage "/tmp/uidstress-ulid-0001"
            :: EvMkdirTemp "/tmp/uidstress-ulid-0001" :: t.
Proof.
  exact (disk_guard_blocks_run _ 11%nat "ulid"%string
           (removingConfig "ulid" 10 4) initialWorld (snd scarceDiskRun)
           "/tmp/uidstress-ulid-0001"
           (eq_trans (surjective_pairing _)
              (f_equal (fun r => (r, _)) scarceDiskRun_fails))).
Defined.

(** ** The names of the files of a run *)

Lemma list_of_append (a b : string) :
  list_ascii_of_string (a +:+ b) = list_ascii_of_string a ++ list_ascii_of_string b.
Proof. induction a as [|c a IH]; simpl; [reflexivity|]. now rewrite IH. Qed.

Lemma list_of_inj (a b : string) :
  list_ascii_of_string a = list_ascii_of_string b -> a = b.
Proof.
  intros H. rewrite <- (string_of_list_ascii_of_string a), H.
  apply string_of_list_ascii_of_string.
Qed.

Lemma append_inv_head (a b c : string) : a +:+ b = a +:+ c -> b = c.
Proof.
  intros H. apply list_of_inj. apply (f_equal list_ascii_of_string) in H.
  rewrite !list_of_append in H. now apply app_inv_head in H.
Qed.

Lemma append_inv_tail (a b c : string) : a +:+ c = b +:+ c -> a = b.
Proof.
  intros H. apply list_of_inj. apply (f_equal list_ascii_of_string) in H.
  rewrite !list_of_append in H. now apply app_inv_tail in H.
Qed.

Lemma append_last_ne (a b : string) (x y : Ascii.ascii) :
  x <> y -> a +:+ String x "" <> b +:+ String y "".
Proof.
  intros Hne H. apply (f_equal list_ascii_of_string) in H.
  rewrite !list_of_append in H. simpl in H.
  apply app_inj_tail in H as [_ H]. contradiction.
Qed.

Lemma string_of_uint_nil (d : Decimal.uint) :
  NilEmpty.string_of_uint d = "" -> d = Decimal.Nil.
Proof. destruct d; simpl; congruence. Qed.

Lemma string_of_uint_inj (d d' : Decimal.uint) :
  NilEmpty.string_of_uint d = NilEmpty.string_of_uint d' -> d = d'.
Proof.
  intros H. apply (f_equal NilEmpty.uint_of_string) in H.
  rewrite !NilEmpty.usu in H. congruence.
Qed.

Lemma to_uint_norm (n : N) : Decimal.unorm (N.to_uint n) = N.to_uint n.
Proof. rewrite <- DecimalN.Unsigned.to_of. now rewrite DecimalN.Unsigned.of_to. Qed.

Lemma pad_zeros (k : nat) (d : Decimal.uint) :
  string_of_list_ascii (repeat "0"%char k) +:+ NilEmpty.string_of_uint d
  = NilEmpty.string_of_uint (Nat.iter k Decimal.D0 d).
Proof.
  induction k as [|k IH]; [reflexivity|].
  change (String "0" (string_of_list_ascii (repeat "0"%char k)) +:+ NilEmpty.string_of_uint d
          = String "0" (NilEmpty.string_of_uint (Nat.iter k Decimal.D0 d))).
  now rewrite append_cons, IH.
Qed.

Lemma fmt05d_digits (n : Z) :
  exists k, fmt05d n = NilEmpty.string_of_uint (Nat.iter k Decimal.D0 (N.to_uint (Z.to_N n))).
Proof.
  unfold fmt05d.
  destruct (String.eqb_spec (NilEmpty.string_of_uint (N.to_uint (Z.to_N n))) "") as [E|E].
  - apply string_of_uint_nil in E. exfalso.
    apply (DecimalFacts.unorm_nonnil (N.to_uint (Z.to_N n))). now rewrite to_uint_norm.
  - eexists. apply pad_zeros.
Qed.

Lemma fmt05d_inj (i j : Z) : 0 <= i -> 0 <= j -> fmt05d i = fmt05d j -> i = j.
Proof.
  intros Hi Hj H.
  destruct (fmt05d_digits i) as [k Hk], (fmt05d_digits j) as [k' Hk'].
  rewrite Hk, Hk' in H. apply string_of_uint_inj in H.
  apply (f_equal Decimal.unorm) in H. rewrite !DecimalFacts.unorm_iter_D0, !to_uint_norm in H.
  apply DecimalN.Unsigned.to_uint_inj in H. lia.
Qed.

Lemma chunkFileName_inj (scheme : string) (i j : Z) :
  0 <= i -> 0 <= j -> chunkFileName scheme i = chunkFileName scheme j -> i = j.
Proof.
  unfold chunkFileName. intros Hi Hj H.
  apply append_inv_head in H. apply append_inv_head in H.
  apply append_inv_tail in H. now apply fmt05d_inj.
Qed.

(** *** [filepath.Clean] and [filepath.Join] *)

Lemma hasSlash_append (a b : string) :
  hasSlash (a +:+ b) = hasSlash a || hasSlash b.
Proof.
  induction a as [|c a IH]; [reflexivity|].
  rewrite append_cons. simpl. rewrite IH. apply orb_assoc.
Qed.

Lemma splitSlash_nonempty (s : string) : splitSlash s <> [].
Proof.
  induction s as [|c s IH]; simpl; [discriminate|].
  destruct (isSlash c); [discriminate|]. now destruct (splitSlash s).
Qed.

Lemma splitSlash_noslash (a : string) : hasSlash a = false -> splitSlash a = [a].
Proof.
  induction a as [|c a IH]; [reflexivity|]. simpl.
  intros H. apply orb_false_iff in H as [Hc Ha]. rewrite Hc, (IH Ha). reflexivity.
Qed.

Lemma splitSlash_append (x y : string) :
  splitSlash (x +:+ "/" +:+ y) = splitSlash x ++ splitSlash y.
Proof.
  induction x as [|c x IH].
  - rewrite append_nil_l. reflexivity.
  - rewrite append_cons. simpl. rewrite IH. destruct (isSlash c); [reflexivity|].
    pose proof (splitSlash_nonempty x). now destruct (splitSlash x).
Qed.

Lemma splitSlash_elems (p : string) :
  Forall (fun e => hasSlash e = false) (splitSlash p).
Proof.
  induction p as [|c p IH]; simpl; [repeat constructor|].
  destruct (isSlash c) eqn:Hc; [constructor; [reflexivity|exact IH]|].
  destruct (splitSlash p) as [|e es]; [repeat constructor; simpl; now rewrite Hc|].
  inversion IH; subst. constructor; [simpl; now rewrite Hc|assumption].
Qed.

Lemma splitSlash_join (s : list string) :
  s <> [] -> Forall (fun e => hasSlash e = false) s -> splitSlash (joinSlash s) = s.
Proof.
  induction s as [|e s IH]; [congruence|]. intros _ Hall.
  inversion Hall as [|? ? He Hs]; subst. destruct s as [|e' s'].
  - simpl. now apply splitSlash_noslash.
  - change (joinSlash (e :: e' :: s')) with (e +:+ "/" +:+ joinSlash (e' :: s')).
    rewrite splitSlash_append, (splitSlash_noslash e He), IH by (auto; discriminate).
    reflexivity.
Qed.

Lemma isRooted_append (x y : string) :
  x <> ""%string -> isRooted (x +:+ y) = isRooted x.
Proof. destruct x; [congruence|reflexivity]. Qed.

Lemma isRooted_noslash (e : string) : hasSlash e = false -> isRooted e = false.
Proof. destruct e as [|c e]; [reflexivity|]. simpl. now intros [? ?]%orb_false_iff. Qed.

Lemma cleanStep_proper (rooted : bool) (kept : list string) (a : string) :
  properName a -> cleanStep rooted kept a = a :: kept.
Proof.
  intros (H1 & H2 & H3 & _). unfold cleanStep.
  apply String.eqb_neq in H1, H2, H3. now rewrite H1, H2, H3.
Qed.

Lemma cleanStep_normal (rooted : bool) (kept : list string) (elem : string) :
  hasSlash elem = false ->
  normalKept rooted kept -> normalKept rooted (cleanStep rooted kept elem).
Proof.
  intros Hs (n & tops & -> & Htops & Hn). unfold cleanStep.
  destruct (String.eqb_spec elem "") as [->|H1]; simpl; [exists n, tops; auto|].
  destruct (String.eqb_spec elem ".") as [->|H2]; simpl; [exists n, tops; auto|].
  destruct (String.eqb_spec elem "..") as [->|H3].
  - destruct tops as [|top tops']; simpl.
    + destruct n as [|n]; simpl.
      * destruct rooted; [exists 0%nat, []; auto|].
        exists 1%nat, []. repeat split; auto. discriminate.
      * exists (S (S n)), []. repeat split; auto. intros Hr. now specialize (Hn Hr).
    + inversion Htops as [|? ? (_ & _ & Ht & _) Htops']; subst.
      apply String.eqb_neq in Ht. rewrite Ht. exists n, tops'. auto.
  - exists n, (elem :: tops). repeat split; auto. constructor; [|exact Htops].
    repeat split; auto.
Qed.

Lemma fold_cleanStep_normal (rooted : bool) (elems : list string) :
  Forall (fun e => hasSlash e = false) elems ->
  forall kept, normalKept rooted kept ->
               normalKept rooted (fold_left (cleanStep rooted) elems kept).
Proof.
  induction 1 as [|e elems He _ IH]; intros kept Hk; simpl; [exact Hk|].
  apply IH. now apply cleanStep_normal.
Qed.

Lemma fold_cleanStep_proper (rooted : bool) (tops : list string) :
  Forall properName tops ->
  forall kept, fold_left (cleanStep rooted) tops kept = rev tops ++ kept.
Proof.
  induction 1 as [|a tops Ha _ IH]; intros kept; simpl; [reflexivity|].
  rewrite cleanStep_proper by exact Ha. rewrite IH, <- app_assoc. reflexivity.
Qed.

Lemma fold_cleanStep_dots (n : nat) :
  forall m, fold_left (cleanStep false) (replicate n ".."%string) (replicate m ".."%string)
            = replicate (n + m) ".."%string.
Proof.
  induction n as [|n IH]; intros m; [reflexivity|].
  destruct m as [|m].
  - replace (S n + 0)%nat with (n + 1)%nat by lia. exact (IH 1%nat).
  - replace (S n + S m)%nat with (n + S (S m))%nat by lia. exact (IH (S (S m))).
Qed.

Lemma rev_replicate {A} (n : nat) (x : A) : rev (replicate n x) = replicate n x.
Proof.
  induction n as [|n IH]; [reflexivity|]. simpl. rewrite IH.
  clear IH. induction n as [|n IH]; [reflexivity|]. simpl. now rewrite IH.
Qed.

Lemma cleanElems_normal (p : string) :
  normalKept (isRooted p) (rev (cleanElems p)).
Proof.
  unfold cleanElems. rewrite rev_involutive.
  apply fold_cleanStep_normal; [apply splitSlash_elems|].
  exists 0%nat, []. repeat split; auto.
Qed.

Lemma properName_noslash (l : list string) :
  Forall properName l -> Forall (fun e => hasSlash e = false) l.
Proof. intros H. eapply Forall_impl; [exact H|]. now intros a (_ & _ & _ & Ha). Qed.

Lemma joinSlash_nil (s : list string) :
  Forall (fun e => e <> ""%string) s -> joinSlash s = ""%string -> s = [].
Proof.
  destruct s as [|e s]; [reflexivity|]. intros Hall H.
  inversion Hall; subst. destruct s as [|e' s'].
  - simpl in H. congruence.
  - change (e +:+ "/" +:+ joinSlash (e' :: s') = "") in H.
    destruct e; [congruence|discriminate].
Qed.

Lemma joinSlash_rooted (s : list string) :
  Forall (fun e => e <> ""%string /\ hasSlash e = false) s ->
  isRooted (joinSlash s) = false.
Proof.
  destruct s as [|e s]; [reflexivity|]. intros Hall.
  inversion Hall as [|? ? [Hne Hs] _]; subst. destruct s as [|e' s'].
  - simpl. now apply isRooted_noslash.
  - change (isRooted (e +:+ "/" +:+ joinSlash (e' :: s')) = false).
    rewrite isRooted_append by exact Hne. now apply isRooted_noslash.
Qed.

(** [filepath.Clean] returns a path it leaves alone *)
Lemma clean_elems (p : string) :
  cleanElems (clean p) = cleanElems p /\ isRooted (clean p) = isRooted p.
Proof.
  destruct (cleanElems_normal p) as (n & tops & Hk & Htops & Hn).
  assert (Hs : cleanElems p = replicate n ".."%string ++ rev tops).
  { rewrite <- (rev_involutive (cleanElems p)), Hk, rev_app_distr.
    now rewrite rev_replicate. }
  assert (Hrev : Forall properName (rev tops)) by (now apply Forall_rev).
  assert (Hno : Forall (fun e => hasSlash e = false) (cleanElems p)).
  { rewrite Hs. apply Forall_app. split; [|now apply properName_noslash].
    apply Forall_forall. intros x Hx. apply elem_of_replicate in Hx as [-> _].
    reflexivity. }
  assert (Hne : Forall (fun e => e <> ""%string /\ hasSlash e = false) (cleanElems p)).
  { rewrite Hs. apply Forall_app. split.
    - apply Forall_forall. intros x Hx. apply elem_of_replicate in Hx as [-> _].
      split; [discriminate|reflexivity].
    - eapply Forall_impl; [exact Hrev|]. now intros a (H1 & _ & _ & H4). }
  assert (Hfold : forall r, (r = true -> n = 0%nat) ->
            rev (fold_left (cleanStep r) (cleanElems p) []) = cleanElems p).
  { intros r Hr. rewrite Hs, fold_left_app.
    assert (Hd : fold_left (cleanStep r) (replicate n ".."%string) []
                 = replicate n ".."%string).
    { destruct r; [rewrite (Hr eq_refl); reflexivity|].
      replace n with (n + 0)%nat at 2 by lia. exact (fold_cleanStep_dots n 0). }
    rewrite Hd, fold_cleanStep_proper by exact Hrev.
    rewrite rev_app_distr, rev_involutive, rev_replicate. reflexivity. }
  unfold clean. destruct (isRooted p) eqn:Hroot.
  - split; [|reflexivity]. unfold cleanElems at 1.
    change (isRooted ("/" +:+ joinSlash (cleanElems p))) with true.
    change ("/" +:+ joinSlash (cleanElems p))
      with ("" +:+ "/" +:+ joinSlash (cleanElems p)).
    rewrite splitSlash_append.
    change (splitSlash "") with [""%string].
    rewrite fold_left_app.
    change (fold_left (cleanStep true) [""%string] []) with (@nil string).
    destruct (cleanElems p) as [|e s] eqn:E.
    + reflexivity.
    + rewrite splitSlash_join by (auto; discriminate).
      apply Hfold. exact Hn.
  - destruct (String.eqb_spec (joinSlash (cleanElems p)) "") as [Hj|Hj].
    + apply joinSlash_nil in Hj; [|eapply Forall_impl; [exact Hne|]; now intros a [? _]].
      rewrite Hj. split; reflexivity.
    + assert (Hnil : cleanElems p <> []) by (intros E; rewrite E in Hj; now apply Hj).
      split; [|now apply joinSlash_rooted].
      unfold cleanElems at 1. rewrite joinSlash_rooted by exact Hne.
      rewrite splitSlash_join by assumption. apply Hfold. discriminate.
Qed.

Lemma cleanElems_snoc (dir a : string) :
  dir <> ""%string -> properName a ->
  cleanElems (dir +:+ "/" +:+ a) = cleanElems dir ++ [a]
  /\ isRooted (dir +:+ "/" +:+ a) = isRooted dir.
Proof.
  intros Hdir Ha. assert (Hr : isRooted (dir +:+ "/" +:+ a) = isRooted dir)
    by (now apply isRooted_append).
  split; [|exact Hr]. unfold cleanElems. rewrite Hr, splitSlash_append.
  destruct Ha as (H1 & H2 & H3 & H4). rewrite (splitSlash_noslash a H4).
  rewrite fold_left_app. simpl.
  rewrite cleanStep_proper by (repeat split; auto). reflexivity.
Qed.

Lemma joinSlash_snoc (s : list string) (a : string) :
  joinSlash (s ++ [a])
  = (match s with [] => ""%string | _ :: _ => joinSlash s +:+ "/" end) +:+ a.
Proof.
  induction s as [|e s IH]; [reflexivity|].
  destruct s as [|e' s'].
  - simpl. now rewrite append_assoc.
  - change (joinSlash ((e :: e' :: s') ++ [a]))
      with (e +:+ "/" +:+ joinSlash ((e' :: s') ++ [a])).
    rewrite IH.
    change (joinSlash (e :: e' :: s')) with (e +:+ "/" +:+ joinSlash (e' :: s')).
    now rewrite !append_assoc.
Qed.

Lemma underElems_snoc (d : list string) (a : string) :
  a <> ".."%string -> underElems d (d ++ [a]) = true.
Proof.
  intros Ha. induction d as [|x d IH]; simpl.
  - apply String.eqb_neq in Ha. now rewrite Ha.
  - now rewrite String.eqb_refl, IH.
Qed.

(** What [filepath.Join] makes of a directory and a name in it: the name
    behind a prefix that depends on the directory alone. *)
Lemma pathJoin_proper (dir : string) :
  exists P, forall a, properName a -> pathJoin dir a = P +:+ a.
Proof.
  unfold pathJoin. destruct (String.eqb_spec dir "") as [->|Hdir]; simpl.
  - exists ""%string. intros a Ha. destruct Ha as (H1 & H2 & H3 & H4).
    apply String.eqb_neq in H1 as H1'. rewrite H1'. simpl.
    unfold clean, cleanElems. rewrite (isRooted_noslash a H4), (splitSlash_noslash a H4).
    simpl. rewrite cleanStep_proper by (repeat split; auto). simpl.
    now rewrite H1'.
  - exists ((if isRooted dir then "/" else "")
            +:+ match cleanElems dir with
                | [] => ""
                | _ :: _ => joinSlash (cleanElems dir) +:+ "/"
                end)%string.
    intros a Ha. destruct (cleanElems_snoc dir a Hdir Ha) as [He Hr].
    unfold clean. rewrite He, Hr, joinSlash_snoc.
    destruct (isRooted dir); [now rewrite append_assoc|].
    rewrite append_nil_l.
    destruct (String.eqb_spec
                (match cleanElems dir with
                 | [] => ""
                 | _ :: _ => joinSlash (cleanElems dir) +:+ "/"
                 end +:+ a) "") as [E|_]; [|reflexivity].
    destruct Ha as (H1 & _). exfalso.
    destruct (cleanElems dir) as [|e s].
    + now rewrite append_nil_l in E.
    + destruct (joinSlash (e :: s)); discriminate.
Qed.

Lemma pathJoin_under (dir a : string) :
  dir <> ""%string -> properName a -> underDir dir (pathJoin dir a) = true.
Proof.
  intros Hdir Ha. unfold pathJoin. apply String.eqb_neq in Hdir as Hd. rewrite Hd.
  simpl. unfold underDir.
  destruct (clean_elems (dir +:+ "/" +:+ a)) as [-> ->].
  destruct (cleanElems_snoc dir a Hdir Ha) as [-> ->].
  rewrite Bool.eqb_reflx. simpl. apply underElems_snoc. apply Ha.
Qed.

Lemma pathJoin_inj (dir a b : string) :
  properName a -> properName b -> pathJoin dir a = pathJoin dir b -> a = b.
Proof.
  intros Ha Hb. destruct (pathJoin_proper dir) as [P HP].
  rewrite (HP a Ha), (HP b Hb). apply append_inv_head.
Qed.

Lemma string_of_uint_noslash (d : Decimal.uint) :
  hasSlash (NilEmpty.string_of_uint d) = false.
Proof. induction d; simpl; auto. Qed.

Lemma fmt05d_noslash (n : Z) : hasSlash (fmt05d n) = false.
Proof. destruct (fmt05d_digits n) as [k ->]. apply string_of_uint_noslash. Qed.

Lemma append_last_char (a : string) (x : ascii) (s : string) :
  a +:+ String x "" = s ->
  s <> ""%string
  /\ (forall y, x <> y -> s <> String y "")
  /\ (forall b y, x <> y -> s <> b +:+ String y "").
Proof.
  intros <-. split; [destruct a; discriminate|]. split.
  - intros y Hxy H. change (String y "") with ("" +:+ String y "") in H.
    now apply append_last_ne in H.
  - intros b y Hxy H. now apply append_last_ne in H.
Qed.

Lemma chunkFileName_proper (scheme : string) (i : Z) :
  hasSlash scheme = false -> properName (chunkFileName scheme i).
Proof.
  intros Hs. unfold chunkFileName.
  assert (E : (scheme +:+ "-chunk-" +:+ fmt05d i +:+ ".da") +:+ String "t" ""
              = scheme +:+ "-chunk-" +:+ fmt05d i +:+ ".dat").
  { now rewrite !append_assoc. }
  apply append_last_char in E as (H1 & H2 & H3).
  split; [exact H1|]. split; [|split].
  - apply (H2 "."%char). discriminate.
  - apply (H3 "."%string "."%char). discriminate.
  - rewrite !hasSlash_append, Hs, fmt05d_noslash. reflexivity.
Qed.

Lemma manifest_names_proper :
  properName "manifest.json" /\ properName "manifest.json.tmp"
  /\ properName "manifest.json.sha256".
Proof. repeat split; try discriminate; reflexivity. Qed.

Lemma chunk_path_not_manifest (scheme tempDir : string) (i : Z) :
  hasSlash scheme = false ->
  ~ manifestPaths tempDir (pathJoin tempDir (chunkFileName scheme i)).
Proof.
  intros Hs. pose proof (chunkFileName_proper scheme i Hs) as Hc.
  destruct manifest_names_proper as (Hm1 & Hm2 & Hm3).
  unfold manifestPaths, chunkFileName in *.
  intros [H|[H|H]]; apply pathJoin_inj in H; auto; rewrite <- !append_assoc in H.
  - change ".dat"%string with (".da" +:+ String "t" "")%string in H.
    change "manifest.json.tmp"%string
      with ("manifest.json.tm" +:+ String "p" "")%string in H.
    rewrite <- !append_assoc in H. now apply append_last_ne in H.
  - change ".dat"%string with (".da" +:+ String "t" "")%string in H.
    change "manifest.json"%string
      with ("manifest.jso" +:+ String "n" "")%string in H.
    rewrite <- !append_assoc in H. now apply append_last_ne in H.
  - change ".dat"%string with (".da" +:+ String "t" "")%string in H.
    change "manifest.json.sha256"%string
      with ("manifest.json.sha25" +:+ String "6" "")%string in H.
    rewrite <- !append_assoc in H. now apply append_last_ne in H.
Qed.

Lemma chunk_path_inj (scheme tempDir : string) (i j : Z) :
  hasSlash scheme = false -> 0 <= i -> 0 <= j ->
  pathJoin tempDir (chunkFileName scheme i) = pathJoin tempDir (chunkFileName scheme j) ->
  i = j.
Proof.
  intros Hs Hi Hj H.
  apply pathJoin_inj in H; try now apply chunkFileName_proper.
  now apply chunkFileName_inj in H.
Qed.

(** ** The directory of a run *)

Lemma joinPath_nonempty (dir name : string) : joinPath dir name <> ""%string.
Proof.
  unfold joinPath. destruct (endsWithSlash dir) eqn:E.
  - destruct dir; [discriminate|discriminate].
  - destruct dir; discriminate.
Qed.

Lemma schemeDir_name (env : Env) (scheme : string) (cfg : Config) (w w1 : World)
    (tempDir : string) :
  schemeDir env scheme cfg w = (Ok tempDir, w1) ->
  tempDir <> ""%string /\ hasSlash scheme = false.
Proof.
  unfold schemeDir. intros H. bind_inv H. rename a into baseDir.
  unfold osMkdirTemp in H.
  destruct (hasSlash ("uidstress-" +:+ scheme +:+ "-")) eqn:Hp; [discriminate|].
  destruct (prefixAndSuffix _) as [prefix suffix]. unfold bind, io in H.
  destruct (io_fault env _); [discriminate|]. injection H as <- _. split.
  - intros E. apply (joinPath_nonempty
                       (if String.eqb baseDir "" then osTempDir env else baseDir) prefix).
    destruct (joinPath _ prefix); [reflexivity|discriminate].
  - rewrite !hasSlash_append in Hp. apply orb_false_iff in Hp as [_ Hp].
    now apply orb_false_iff in Hp as [Hp _].
Qed.

(** ** The deferred removal of the directory *)

Lemma osRemoveAll_files (env : Env) (dir path : string) (w : World) :
  dir <> ""%string -> endsWithDot dir = false -> io_fault env (clock w) = false ->
  underDir dir path = true ->
  files (osRemoveAll env dir w) !! path = None.
Proof.
  intros Hd Hdot Hf Hp. unfold osRemoveAll.
  apply String.eqb_neq in Hd. rewrite Hd, Hdot, Hf. simpl.
  apply map_lookup_filter_None. right. intros content _. simpl.
  rewrite Hp. discriminate.
Qed.

(** whatever [os.RemoveAll] returns, it leaves the files outside the
    directory alone, and what it leaves of the others is as it was *)
Lemma osRemoveAll_keeps (env : Env) (dir : string) (w : World) :
  (forall path, underDir dir path = false ->
     files (osRemoveAll env dir w) !! path
     = disturb env (clock w) (files w) !! path)
  /\ (forall path content,
        files (osRemoveAll env dir w) !! path = Some content ->
        disturb env (clock w) (files w) !! path = Some content).
Proof.
  unfold osRemoveAll.
  destruct (String.eqb dir "" || endsWithDot dir); simpl; [split; auto|].
  split.
  - intros path Hp.
    destruct (disturb env (clock w) (files w) !! path) as [content|] eqn:E.
    + apply map_lookup_filter_Some. split; [exact E|]. simpl. now rewrite Hp.
    + apply map_lookup_filter_None. now left.
  - intros path content H. now apply map_lookup_filter_Some in H as [H _].
Qed.


Lemma removing_schemeDir :
  schemeDir (scriptedEnv scenarioIds (listHeap false)) "ulid"
    (removingConfig "ulid" 10 4) initialWorld
  = (Ok "/tmp/uidstress-ulid-0001",
     snd (schemeDir (scriptedEnv scenarioIds (listHeap false)) "ulid"
            (removingConfig "ulid" 10 4) initialWorld)).
Proof. vm_compute. reflexivity. Qed.



(** ** The files a step writes *)

Lemma touches_weaken {A} (S S' : string -> Prop) (c : M A) :
  (forall p, S p -> S' p) -> touches S c -> touches S' c.
Proof.
  intros HS Hc w r w' H. apply Hc in H as [Hg Hf]. split; [exact Hg|].
  intros p Hp. apply Hf. auto.
Qed.

Lemma touches_ret {A} (S : string -> Prop) (a : A) : touches S (ret a).
Proof. intros w r w' [= <- <-]. auto. Qed.

Lemma touches_fail {A} (S : string -> Prop) (e : error) : touches S (@fail A e).
Proof. intros w r w' [= <- <-]. auto. Qed.

Lemma touches_panic {A} (S : string -> Prop) : touches S (fun w => (@Panic A, w)).
Proof. intros w r w' [= <- <-]. auto. Qed.

Lemma touches_emit {A} (S : string -> Prop) (a : A) (ev : Event) :
  touches S (fun w => (Ok a, emit ev w)).
Proof. intros w r w' [= <- <-]. auto. Qed.

Lemma touches_bind {A B} (S : string -> Prop) (c : M A) (k : A -> M B) :
  touches S c -> (forall a, touches S (k a)) -> touches S (bind c k).
Proof.
  intros Hc Hk w r w' H. unfold bind in H.
  destruct (c w) as [[a|e| |] w1] eqn:E.
  - apply Hc in E as [Hg Hf]. apply Hk in H as [Hg' Hf'].
    split; [congruence|]. intros p Hp. rewrite Hf', Hf; auto.
  - injection H as <- <-. eapply Hc; eauto.
  - injection H as <- <-. eapply Hc; eauto.
  - injection H as <- <-. eapply Hc; eauto.
Qed.

Lemma touches_close {A} (S : string -> Prop) (fd : nat) (c : M A) :
  touches S c -> touches S (defer (fileClose fd) c).
Proof.
  intros Hc w r w' H. apply defer_inv in H as (w1 & H & ->).
  apply Hc in H. exact H.
Qed.

Section Touches.
Variable env : Env.
Hypothesis undisturbed : forall t f, disturb env t f = f.

Lemma touches_io (S : string -> Prop) (op path : string) :
  touches S (io env op path).
Proof.
  intros w r w' H. unfold io in H.
  destruct (io_fault env (clock w)); injection H as <- <-; simpl;
    rewrite undisturbed; auto.
Qed.

Lemma touches_ctxPoll (S : string -> Prop) : touches S (ctxPoll env).
Proof. intros w r w' [= <- <-]. simpl. rewrite undisturbed. auto. Qed.

Lemma touches_virtualMemory (S : string -> Prop) : touches S (virtualMemory env).
Proof.
  intros w r w' H. unfold virtualMemory in H.
  destruct (mem_available env (clock w)); injection H as <- <-; simpl;
    rewrite undisturbed; auto.
Qed.

Lemma touches_ensureMemory (S : string -> Prop) (cfg : Config) (n : Z) :
  touches S (ensureMemory env cfg n).
Proof.
  unfold ensureMemory. destruct (_ && _); [apply touches_ret|].
  apply touches_bind; [apply touches_virtualMemory|]. intros available.
  cbv zeta. destruct (F64.ltb _ _); [apply touches_fail|apply touches_ret].
Qed.

Lemma touches_osMkdirAll (S : string -> Prop) (dir : string) :
  touches S (osMkdirAll env dir).
Proof. apply touches_bind; [apply touches_io|]. intros _. apply touches_emit. Qed.

Lemma touches_osCreate (path : string) : touches (eq path) (osCreate env path).
Proof.
  apply touches_bind; [apply touches_io|]. intros _ w r w' [= <- <-]. simpl.
  split; [reflexivity|]. intros p Hp. now apply lookup_insert_ne.
Qed.

Lemma touches_fileWrite (path bytes : string) :
  touches (eq path) (fileWrite env path bytes).
Proof.
  apply touches_bind; [apply touches_io|]. intros _ w r w' [= <- <-]. simpl.
  split; [reflexivity|]. intros p Hp. now apply lookup_insert_ne.
Qed.

Lemma touches_osWriteFile (path data : string) :
  touches (eq path) (osWriteFile env path data).
Proof.
  apply touches_bind; [apply touches_io|]. intros _ w r w' [= <- <-]. simpl.
  split; [reflexivity|]. intros p Hp. now apply lookup_insert_ne.
Qed.

Lemma touches_osRename (src dst : string) :
  touches (fun p => p = src \/ p = dst) (osRename env src dst).
Proof.
  apply touches_bind; [apply touches_io|]. intros _ w r w' H.
  destruct (files w !! src); injection H as <- <-; simpl; [|auto].
  split; [reflexivity|]. intros p Hp.
  rewrite lookup_insert_ne by (intros ->; tauto).
  apply lookup_delete_ne. intros ->. tauto.
Qed.

Lemma touches_osOpen (S : string -> Prop) (path : string) :
  touches S (osOpen env path).
Proof.
  apply touches_bind; [apply touches_io|]. intros _ w r w' H.
  destruct (files w !! path); injection H as <- <-; simpl; auto.
Qed.

Lemma touches_osStat (S : string -> Prop) (path : string) :
  touches S (osStat env path).
Proof.
  apply touches_bind; [apply touches_io|]. intros _ w r w' H.
  destruct (files w !! path); injection H as <- <-; simpl; auto.
Qed.

Lemma touches_writeValues (path : string) (values : list string) :
  touches (eq path) (writeValues env path values).
Proof.
  induction values as [|v values IH]; simpl; [apply touches_ret|].
  apply touches_bind; [apply touches_fileWrite|]. intros _.
  apply touches_bind; [apply touches_fileWrite|]. intros _. exact IH.
Qed.

Lemma touches_writeChunkFile (path : string) (values : list string) :
  touches (eq path) (writeChunkFile env path values).
Proof.
  apply touches_bind; [apply touches_osMkdirAll|]. intros _.
  apply touches_bind; [apply touches_osCreate|]. intros f.
  apply touches_close.
  apply touches_bind; [apply touches_writeValues|]. intros _.
  apply touches_bind; [apply touches_io|]. intros _.
  apply touches_bind; [apply touches_io|]. intros _. apply touches_ret.
Qed.

Lemma touches_hashFile (S : string -> Prop) (path : string) :
  touches S (hashFile env path).
Proof.
  apply touches_bind; [apply touches_osOpen|]. intros [f content].
  apply touches_close.
  apply touches_bind; [apply touches_io|]. intros _. apply touches_ret.
Qed.

Lemma touches_saveManifest (dir : string) (m : manifest) :
  touches (manifestPaths dir) (saveManifest env dir m).
Proof.
  unfold saveManifest. destruct (jsonMarshal env m); [|apply touches_fail].
  apply touches_bind.
  { eapply touches_weaken; [|apply touches_osWriteFile].
    intros p <-. left. reflexivity. }
  intros _. apply touches_bind.
  { eapply touches_weaken; [|apply touches_osRename].
    intros p [->| ->]; [left|right; left]; reflexivity. }
  intros _. eapply touches_weaken; [|apply touches_osWriteFile].
  intros p <-. right. right. reflexivity.
Qed.

Lemma generateIDs_generated (g : Generator) (n : nat) :
  forall ids w,
    exists w',
      generateIDs env g n ids w
      = (Ok (ids ++ generated env g (genCalls w) n), w')
      /\ files w' = files w
      /\ genCalls w' = (genCalls w + n)%nat.
Proof.
  induction n as [|n IH]; intros ids w; simpl.
  - exists w. unfold generated. simpl. rewrite app_nil_r, Nat.add_0_r. auto.
  - unfold bind, generate.
    match goal with |- context [generateIDs env g n ?ids' ?w1] =>
      destruct (IH ids' w1) as (w' & -> & Hf & Hg) end.
    exists w'. simpl in Hf, Hg. rewrite undisturbed in Hf.
    unfold generated in *. simpl. rewrite <- app_assoc. simpl.
    repeat split; [exact Hf|lia].
Qed.

End Touches.

(** ** One iteration of the chunk loop *)

Lemma chunkLoop_unroll (env : Env) (scheme : string) (cfg : Config)
    (gen : Generator) (tempDir : string) (fuel : nat) (st st' : loopState)
    (w w' : World) :
  chunkLoop env (S fuel) scheme cfg gen tempDir st w = (Ok st', w') ->
  (Scale cfg <= totalGenerated st /\ st' = st /\ w' = w)
  \/ (totalGenerated st < Scale cfg
      /\ let chunkTarget :=
           minInt64 (ChunkSize cfg) (sub64 (Scale cfg) (totalGenerated st)) in
         0 <= chunkTarget <= maxInt
         /\ exists w1 w2 chunkIDs w3 w4 w5 size w6 w7 w8,
              ctxPoll env w = (Ok false, w1)
              /\ ensureMemory env cfg chunkTarget w1 = (Ok tt, w2)
              /\ generateIDs env gen (Z.to_nat chunkTarget) [] w2 = (Ok chunkIDs, w3)
              /\ let unique := chunkOf chunkIDs in
                 let chunkPath :=
                   pathJoin tempDir (chunkFileName scheme (chunkIndex st)) in
                 let man' :=
                   appendChunk (man st)
                     {| Index := chunkIndex st; Path := chunkPath;
                        UniqueCount := Z.of_nat (length unique);
                        OriginalCount := chunkTarget;
                        Hash := hashStrings env unique; SizeBytes := size |} in
                 writeChunkFile env chunkPath unique w3 = (Ok tt, w4)
                 /\ hashFile env chunkPath w4 = (Ok (hashStrings env unique), w5)
                 /\ osStat env chunkPath w5 = (Ok size, w6)
                 /\ saveManifest env tempDir man' w6 = (Ok tt, w7)
                 /\ files w8 = files w7 /\ genCalls w8 = genCalls w7
                 /\ chunkLoop env fuel scheme cfg gen tempDir
                      {| man := man';
                         totalGenerated := add64 (totalGenerated st) chunkTarget;
                         totalUniqueSum :=
                           add64 (totalUniqueSum st) (Z.of_nat (length unique));
                         chunkIndex := add64 (chunkIndex st) 1 |} w8
                    = (Ok st', w')).
Proof.
  simpl. intros H.
  destruct (totalGenerated st <? Scale cfg) eqn:Hlt.
  2:{ left. injection H as <- <-. apply Z.ltb_ge in Hlt. auto. }
  right. apply Z.ltb_lt in Hlt. split; [exact Hlt|]. cbv zeta.
  bind_inv H. destruct a; [discriminate|]. rename w0 into w1.
  bind_inv H. destruct a. rename w0 into w2.
  destruct (_ >? maxInt) eqn:Hmax; [discriminate|].
  destruct (_ <? 0) eqn:Hneg; [discriminate|].
  split; [lia|].
  bind_inv H. rename a into chunkIDs, w0 into w3.
  bind_inv H. destruct a. rename w0 into w4.
  bind_inv H. rename a into fileHash, w0 into w5.
  destruct (String.eqb_spec fileHash
              (hashStrings env (dedupeSorted (sortStrings chunkIDs)))) as [->|Hne];
    [|discriminate]. simpl in H.
  bind_inv H. rename a into size, w0 into w6.
  bind_inv H. destruct a. rename w0 into w7.
  bind_inv H. rename w0 into w8.
  exists w1, w2, chunkIDs, w3, w4, w5, size, w6, w7, w8.
  repeat (split; [assumption|]).
  assert (Hlog : files w8 = files w7 /\ genCalls w8 = genCalls w7).
  { destruct (Verbose cfg); [|now injection Hc6 as _ <-].
    destruct (_ =? 0); [discriminate|].
    destruct (_ =? 0); now injection Hc6 as _ <-. }
  destruct Hlog. auto.
Qed.

(** ** The chunks in storage while the loop runs *)

Lemma generated_app (env : Env) (g : Generator) (from n m : nat) :
  generated env g from n ++ generated env g (from + n) m
  = generated env g from (n + m).
Proof. unfold generated. now rewrite seq_app, fmap_app. Qed.

Section Pipeline.
Variable env : Env.
Hypothesis undisturbed : forall t f, disturb env t f = f.
Variables (scheme : string) (cfg : Config) (gen : Generator) (tempDir : string).
Variable g0 : nat.
Hypothesis Hscale : Scale cfg < 2 ^ 63.
Hypothesis Hsize : 0 < ChunkSize cfg.
Hypothesis Hslash : hasSlash scheme = false.

Lemma chunkLoop_pipeline (fuel : nat) :
  forall st w st' w' batches,
    loopInv cfg st ->
    pipelineInv env scheme gen tempDir g0 st w batches ->
    chunkLoop env fuel scheme cfg gen tempDir st w = (Ok st', w') ->
    exists batches',
      pipelineInv env scheme gen tempDir g0 st' w' batches'
      /\ loopInv cfg st' /\ totalGenerated st' = Scale cfg.
Proof.
  induction fuel as [|fuel IH]; intros st w st' w' batches Hinv Hpi H.
  { discriminate. }
  apply chunkLoop_unroll in H as [(Hge & -> & ->)|(Hlt & H)].
  { exists batches. split; [exact Hpi|]. split; [exact Hinv|].
    destruct Hinv as [Hg _]. lia. }
  cbv zeta in H.
  set (chunkTarget := minInt64 (ChunkSize cfg) (sub64 (Scale cfg) (totalGenerated st))) in *.
  destruct H as (Hrange & w1 & w2 & chunkIDs & w3 & w4 & w5 & size & w6 & w7 & w8
                 & Hpoll & Hmem & Hgen & Hwrite & Hhash & Hstat & Hsave
                 & Hf8 & Hg8 & Hloop).
  set (unique := chunkOf chunkIDs) in *.
  set (chunkPath := pathJoin tempDir (chunkFileName scheme (chunkIndex st))) in *.
  destruct Hinv as (Hg & Hu & Hsu & Hso).
  destruct Hpi as [Hchunks Hpaths Hindex Hids Hcalls Htotal Hcount].
  assert (Hsub : sub64 (Scale cfg) (totalGenerated st) = Scale cfg - totalGenerated st).
  { apply wrap64_small. unfold isInt64. lia. }
  assert (Htarget : 1 <= chunkTarget <= Scale cfg - totalGenerated st).
  { unfold chunkTarget. rewrite Hsub. unfold minInt64.
    destruct (_ <? _) eqn:E; lia. }
  apply (touches_ctxPoll env undisturbed noPath) in Hpoll as [Hg1 Hf1].
  apply (touches_ensureMemory env undisturbed noPath) in Hmem as [Hg2 Hf2].
  destruct (generateIDs_generated env undisturbed gen (Z.to_nat chunkTarget) [] w2)
    as (w3' & Hgen' & Hf3 & Hg3).
  rewrite Hgen in Hgen'. injection Hgen' as Hids3 <-. simpl in Hids3.
  pose proof (writeChunkFile_Ok env undisturbed _ _ _ _ _ Hwrite) as Hfile.
  apply (touches_writeChunkFile env undisturbed) in Hwrite as [Hg4 Hf4].
  apply (touches_hashFile env undisturbed noPath) in Hhash as [Hg5 Hf5].
  apply (touches_osStat env undisturbed noPath) in Hstat as [Hg6 Hf6].
  apply (touches_saveManifest env undisturbed) in Hsave as [Hg7 Hf7].
  assert (Hnp : forall p : string, ~ noPath p) by (intros p []).
  assert (Hcalls8 : genCalls w8 = (genCalls w + Z.to_nat chunkTarget)%nat).
  { lia. }
  assert (Hkeep : forall p, p <> chunkPath -> ~ manifestPaths tempDir p ->
                            files w8 !! p = files w !! p).
  { intros p Hp Hm. rewrite Hf8, Hf7, Hf6, Hf5, Hf4, Hf3, Hf2, Hf1; auto. }
  assert (Hnew : files w8 !! chunkPath = Some (chunkBytes unique)).
  { rewrite Hf8, Hf7, Hf6, Hf5; auto. now apply chunk_path_not_manifest. }
  assert (Hlen : length (manChunks (man st)) = length batches).
  { eapply Forall2_length; eauto. }
  eapply IH in Hloop; [exact Hloop| |].
  - unfold loopInv, appendChunk. simpl. unfold add64.
    assert (Hul : Z.of_nat (length unique) <= chunkTarget).
    { pose proof (dedupeSorted_length (sortStrings chunkIDs)) as Hd.
      rewrite sortStrings_length in Hd. fold (chunkOf chunkIDs) in Hd.
      fold unique in Hd.
      assert (Hcl : length chunkIDs = Z.to_nat chunkTarget).
      { rewrite Hids3. unfold generated. now rewrite length_fmap, length_seq. }
      lia. }
    rewrite !wrap64_small by (unfold isInt64; lia).
    rewrite sumUniqueCount_app, sumOriginalCount_app. simpl.
    repeat split; lia.
  - constructor; simpl.
    + apply Forall2_app.
      * apply Forall2_same_length_lookup. split; [exact Hlen|].
        intros i ch b Hch Hb.
        pose proof (Forall2_lookup_lr _ _ _ _ _ _ Hchunks Hch Hb) as [Hc1 Hc2].
        split; [|exact Hc2]. rewrite Hkeep; [exact Hc1| |].
        -- rewrite (Hpaths _ _ Hch). unfold chunkPath. intros Heq.
           apply chunk_path_inj in Heq; try lia; [|exact Hslash].
           apply lookup_lt_Some in Hch. lia.
        -- rewrite (Hpaths _ _ Hch). now apply chunk_path_not_manifest.
      * constructor; [|constructor]. simpl. split; [exact Hnew|reflexivity].
    + intros i ch Hch. apply lookup_app_Some in Hch as [Hch|[Hi Hch]].
      * now apply Hpaths.
      * apply list_lookup_singleton_Some in Hch as [Hi0 <-]. simpl.
        unfold chunkPath. rewrite Hindex. do 2 f_equal. lia.
    + rewrite length_app. simpl. unfold add64.
      rewrite wrap64_small by (unfold isInt64; lia). lia.
    + rewrite concat_app. simpl. rewrite app_nil_r, Hids, Hids3.
      replace (genCalls w2) with (g0 + (genCalls w - g0))%nat by lia.
      rewrite generated_app. f_equal. lia.
    + lia.
    + unfold add64. rewrite wrap64_small by (unfold isInt64; lia). lia.
    + rewrite length_app. simpl. unfold add64.
      rewrite wrap64_small by (unfold isInt64; lia). lia.
Qed.

End Pipeline.

(** ** From the generator to the counts *)

Lemma touches_verifyChunks (env : Env) (m : manifest) :
  (forall t f, disturb env t f = f) ->
  touches noPath (verifyChunks env m).
Proof.
  intros undisturbed. unfold verifyChunks.
  induction (manChunks m) as [|ch chunks IH]; simpl; [apply touches_ret|].
  intros w r w' H.
  destruct (hashFile env (Path ch) w) as [[hash|e| |] w1] eqn:E;
    apply (touches_hashFile env undisturbed noPath) in E as [Hg Hf].
  - destruct (String.eqb hash (Hash ch)).
    + apply IH in H as [Hg' Hf']. split; [congruence|].
      intros p Hp. rewrite Hf', Hf; auto.
    + injection H as <- <-. auto.
  - injection H as <- <-. auto.
  - injection H as <- <-. auto.
  - injection H as <- <-. auto.
Qed.

Lemma distinctCount_same (l k : list string) :
  (forall x, x ∈ l <-> x ∈ k) -> distinctCount l = distinctCount k.
Proof.
  intros Hsame. unfold distinctCount at 1. apply NoDup_length_distinct.
  - apply NoDup_remove_dups.
  - intros x. rewrite elem_of_remove_dups. apply Hsame.
Qed.

Lemma chunkOf_elem (ids : list string) (x : string) : x ∈ chunkOf ids <-> x ∈ ids.
Proof. apply (chunkOf_spec ids). Qed.

Lemma chunkOf_length (ids : list string) : (length (chunkOf ids) <= length ids)%nat.
Proof.
  unfold chunkOf. pose proof (dedupeSorted_length (sortStrings ids)) as H.
  now rewrite sortStrings_length in H.
Qed.

Lemma concat_chunks_elem (batches : list (list string)) (x : string) :
  x ∈ concat (chunkOf <$> batches) <-> x ∈ concat batches.
Proof.
  induction batches as [|b batches IH]; simpl; [reflexivity|].
  rewrite !elem_of_app, IH, chunkOf_elem. reflexivity.
Qed.

Lemma concat_chunks_length (batches : list (list string)) :
  (length (concat (chunkOf <$> batches)) <= length (concat batches))%nat.
Proof.
  induction batches as [|b batches IH]; [reflexivity|].
  rewrite fmap_cons. cbn [concat]. rewrite !length_app.
  pose proof (chunkOf_length b). lia.
Qed.

Lemma generated_elem (env : Env) (g : Generator) (from n : nat) (x : string) :
  x ∈ generated env g from n -> exists i, x = gen_next env g i.
Proof.
  unfold generated. intros H. apply list_elem_of_fmap in H as (i & -> & _). eauto.
Qed.

Lemma runScheme_Ok_calls (env : Env) (fuel : nat) (scheme : string) (cfg : Config)
    (w w' : World) (res : Result) :
  runScheme env fuel scheme cfg w = (Ok res, w') ->
  exists gen tempDir st w1 w2 w3,
    generatorFor env scheme = Ok gen
    /\ genCalls w1 = genCalls w
    /\ chunkLoop env fuel scheme cfg gen tempDir (initialLoopState scheme cfg) w1
       = (Ok st, w2)
    /\ verifyAndMerge env scheme cfg tempDir st w2 = (Ok res, w3)
    /\ w' = cleanup env cfg tempDir w3.
Proof.
  intros H. destruct (generatorFor env scheme) as [gen|e| |] eqn:Hgen.
  2-4: unfold runScheme in H; rewrite Hgen in H; discriminate.
  rewrite (runScheme_shape _ _ _ _ _ _ Hgen) in H.
  bind_inv H. rename a into tempDir. apply schemeDir_Ok in Hc as [Hg _].
  apply defer_inv in H as (w3 & H & ->). unfold schemeBody in H.
  bind_inv H. bind_inv H. rename a0 into st.
  exists gen, tempDir, st, w1, w2, w3. repeat split; auto.
  unfold ensureDisk, bind, diskUsage in Hc.
  destruct (disk_free env (clock w0)); [|discriminate].
  destruct (F64.ltb _ _); [discriminate|]. injection Hc as _ <-. exact Hg.
Qed.

Lemma runScheme_Ok_slash (env : Env) (fuel : nat) (scheme : string) (cfg : Config)
    (w w' : World) (res : Result) :
  runScheme env fuel scheme cfg w = (Ok res, w') -> hasSlash scheme = false.
Proof.
  intros H. destruct (generatorFor env scheme) as [gen|e| |] eqn:Hgen.
  2-4: unfold runScheme in H; rewrite Hgen in H; discriminate.
  rewrite (runScheme_shape _ _ _ _ _ _ Hgen) in H.
  bind_inv H. now apply schemeDir_name in Hc.
Qed.

(** In a quiet environment whose generator yields identifiers that a
    chunk file gives back as written, the unique count a scheme run
    reports is the number of distinct identifiers among the [Scale]
    identifiers it generated, across all chunks, and its duplicate count
    is what the chunks' locally-unique counts add up to beyond that. *)
Theorem runScheme_counts_distinct (env : Env) (fuel : nat) (scheme : string)
    (cfg : Config) (w w' : World) (res : Result) :
  quiet env ->
  heapCorrect (heapImpl env) ->
  (forall g n, lineSafe (gen_next env g n)) ->
  0 < Scale cfg < 2 ^ 63 ->
  0 < ChunkSize cfg ->
  runScheme env fuel scheme cfg w = (Ok res, w') ->
  exists gen,
    generatorFor env scheme = Ok gen
    /\ let ids := generated env gen (genCalls w) (Z.to_nat (Scale cfg)) in
       Unique res = Z.of_nat (distinctCount ids)
       /\ Duplicates res = ChunkUnique res - Unique res
       /\ Generated res = Z.of_nat (length ids).
Proof.
  intros Hq [inv Hheap] Hsafe Hscale Hsize H.
  pose proof (quiet_storage env Hq) as undisturbed.
  pose proof (runScheme_Ok_slash _ _ _ _ _ _ _ H) as Hslash.
  apply runScheme_Ok_calls in H
    as (gen & tempDir & st & w1 & w2 & w3 & Hgen & Hg1 & Hloop & Htail & _).
  exists gen. split; [exact Hgen|]. cbv zeta.
  assert (Hpi0 : pipelineInv env scheme gen tempDir (genCalls w1)
                   (initialLoopState scheme cfg) w1 []).
  { constructor; simpl; try lia.
    - constructor.
    - intros i ch Hch. now rewrite lookup_nil in Hch.
    - now rewrite Nat.sub_diag. }
  destruct (chunkLoop_pipeline env undisturbed scheme cfg gen tempDir (genCalls w1)
              ltac:(lia) Hsize Hslash fuel _ _ _ _ _
              (initialLoopState_inv scheme cfg ltac:(lia)) Hpi0 Hloop)
    as (batches & Hpi & Hinv & Htg).
  destruct Hpi as [Hchunks _ _ Hids Hcalls Htotal _].
  assert (Hn : (genCalls w2 - genCalls w1)%nat = Z.to_nat (Scale cfg)) by lia.
  rewrite Hn, Hg1 in Hids.
  apply verifyAndMerge_Ok in Htail as (w0 & Hver & Hmerge & Hsum & Hcu & Hgn).
  apply (touches_verifyChunks env _ undisturbed) in Hver as [_ Hf0].
  set (recss := chunkOf <$> batches).
  assert (Hbatch : forall b x, b ∈ batches -> x ∈ chunkOf b -> lineSafe x).
  { intros b x Hb Hx. apply (proj1 (chunkOf_elem _ _)) in Hx.
    assert (Hin : x ∈ concat batches).
    { apply list_elem_of_In, in_concat. exists b.
      split; now apply list_elem_of_In. }
    rewrite Hids in Hin. apply generated_elem in Hin as [i ->]. apply Hsafe. }
  assert (Hheld : Forall2 (holdsRecords (files w0)) (manChunks (man st)) recss).
  { subst recss. apply Forall2_fmap_r.
    apply Forall2_same_length_lookup. split; [eapply Forall2_length; eauto|].
    intros i ch b Hch Hb.
    pose proof (Forall2_lookup_lr _ _ _ _ _ _ Hchunks Hch Hb) as [Hc1 _].
    exists (chunkBytes (chunkOf b)). split.
    - rewrite Hf0; [exact Hc1|intros []].
    - apply fileRecords_chunkBytes. apply Forall_forall. intros x Hx.
      apply (Hbatch b); [|exact Hx]. eapply list_elem_of_lookup_2; eauto. }
  assert (Hsorted : Forall (Sorted GoString.lt) recss).
  { subst recss. apply Forall_fmap, Forall_forall. intros b _. simpl.
    apply (chunkOf_spec b). }
  assert (Hlen : length (concat batches) = Z.to_nat (Scale cfg)).
  { rewrite Hids. unfold generated. now rewrite length_fmap, length_seq. }
  assert (Hne : concat recss <> []).
  { intros Hnil. destruct (concat batches) as [|x rest] eqn:E; [simpl in Hlen; lia|].
    assert (Hx : x ∈ concat recss).
    { subst recss. apply concat_chunks_elem. rewrite E. left. }
    rewrite Hnil in Hx. inversion Hx. }
  destruct (mergeChunks_quiet env Hq inv Hheap (man st) (Verbose cfg)
              (LogInterval cfg) w0 recss Hheld Hsorted Hne)
    as (w0' & Hmerge' & _).
  rewrite Hmerge in Hmerge'. injection Hmerge' as Hu Hd _.
  assert (Hdist : distinctCount (concat recss)
                  = distinctCount (generated env gen (genCalls w)
                                     (Z.to_nat (Scale cfg)))).
  { rewrite <- Hids. apply distinctCount_same. intros x.
    apply concat_chunks_elem. }
  pose proof (concat_chunks_length batches) as Htot. fold recss in Htot.
  pose proof (distinctCount_le (concat recss)) as Hle.
  rewrite wrap64_small in Hu by (unfold isInt64; lia).
  rewrite wrap64_small in Hd by (unfold isInt64; lia).
  rewrite Hdist in Hu. split; [exact Hu|]. split.
  - rewrite Hcu, Hsum, Hu, Hd. unfold add64.
    rewrite wrap64_small by (unfold isInt64; lia). lia.
  - rewrite Hgn, Htg. unfold generated. rewrite length_fmap, length_seq. lia.
Qed.

Lemma scenarioIds_lineSafe (g : Generator) (n : nat) :
  lineSafe (gen_next (scriptedEnv scenarioIds (listHeap false)) g n).
Proof.
  simpl. do 11 (destruct n as [|n]; [repeat split|]).
  destruct n; repeat split.
Qed.

Lemma runScheme_counts_distinct_witness :
  exists gen,
    generatorFor (scriptedEnv scenarioIds (listHeap false)) "ulid" = Ok gen
    /\ let ids := generated (scriptedEnv scenarioIds (listHeap false)) gen
                    (genCalls initialWorld) (Z.to_nat 10) in
       Unique scenarioResult = Z.of_nat (distinctCount ids)
       /\ Duplicates scenarioResult
          = ChunkUnique scenarioResult - Unique scenarioResult
       /\ Generated scenarioResult = Z.of_nat (length ids).
Proof.
  assert (H1 : 0 < Scale (scriptedConfig "ulid" 10 4) < 2 ^ 63) by (simpl; lia).
  assert (H2 : 0 < ChunkSize (scriptedConfig "ulid" 10 4)) by (simpl; lia).
  exact (runScheme_counts_distinct _ 11%nat "ulid"%string
           (scriptedConfig "ulid" 10 4) initialWorld (snd scenarioRun)
           scenarioResult (scriptedEnv_quiet _ _) (listHeap_correct false)
           scenarioIds_lineSafe H1 H2 scenarioRun_eq).
Defined.

(** ** The merge only reads *)

Section MergeReads.
Variable env : Env.
Hypothesis undisturbed : forall t f, disturb env t f = f.

Lemma touches_advance (r : chunkReader) : touches noPath (advance env r).
Proof.
  unfold advance. destruct (eof r); [apply touches_ret|].
  apply touches_bind; [now apply touches_io|]. intros _.
  destruct (scanLine (scanner r)); [apply touches_ret..|apply touches_fail].
Qed.

Lemma touches_newChunkReader (m : chunkMeta) :
  touches noPath (newChunkReader env m).
Proof.
  apply touches_bind; [now apply touches_osOpen|]. intros [f content] w r w' H.
  cbv beta zeta in H.
  destruct (advance env _ w) as [[cr|e| |] w1] eqn:E;
    apply touches_advance in E; injection H as <- <-; exact E.
Qed.

Lemma closeAll_same (readers : list chunkReader) (w : World) :
  genCalls (closeAll readers w) = genCalls w
  /\ files (closeAll readers w) = files w.
Proof.
  revert w. induction readers as [|r readers IH]; intros w; [auto|].
  change (closeAll (r :: readers) w) with (closeAll readers (fileClose (file r) w)).
  destruct (IH (fileClose (file r) w)) as [-> ->]. auto.
Qed.

Lemma touches_openReaders (chunks : list chunkMeta) :
  forall readers, touches noPath (openReaders env chunks readers).
Proof.
  induction chunks as [|m chunks IH]; intros readers; simpl; [apply touches_ret|].
  intros w r w' H.
  destruct (newChunkReader env m w) as [[cr|e| |] w1] eqn:E;
    apply touches_newChunkReader in E as [Hg Hf].
  - destruct (eof cr); apply IH in H as [Hg' Hf']; simpl in *.
    + split; [congruence|]. intros p Hp. rewrite Hf', <- Hf; auto.
    + split; [congruence|]. intros p Hp. rewrite Hf', <- Hf; auto.
  - injection H as <- <-. destruct (closeAll_same readers w1) as [-> ->]. auto.
  - injection H as <- <-. auto.
  - injection H as <- <-. auto.
Qed.

Lemma touches_mergeLoop (verbose : bool) (logInterval : Z) (fuel : nat) :
  forall h readers prevValue hasPrev unique duplicates processed,
    touches noPath (mergeLoop env fuel verbose logInterval h readers prevValue
                      hasPrev unique duplicates processed).
Proof.
  induction fuel as [|fuel IH]; intros h readers prevValue hasPrev u d p; simpl.
  { intros w r w' [= <- <-]. auto. }
  destruct h as [|x h]; [apply touches_ret|].
  apply touches_bind; [now apply touches_ctxPoll|]. intros done.
  destruct done; [apply touches_fail|].
  destruct (heap_pop _ _) as [[entry h1]|]; [|apply touches_panic].
  apply touches_bind; [apply touches_emit|]. intros _.
  apply touches_bind.
  { destruct (_ && _); [apply touches_emit|apply touches_ret]. }
  intros _. destruct (readers !! _); [|apply touches_panic].
  apply touches_bind; [apply touches_advance|]. intros r'. apply IH.
Qed.

Lemma touches_mergeChunks (m : manifest) (verbose : bool) (logInterval : Z) :
  touches noPath (mergeChunks env m verbose logInterval).
Proof.
  apply touches_bind; [apply touches_emit|]. intros _.
  destruct (manChunks m); [apply touches_fail|].
  apply touches_bind; [apply touches_openReaders|]. intros readers.
  destruct readers as [|r0 readers]; [apply touches_fail|].
  intros w r w' H. apply defer_inv in H as (w1 & H & ->).
  apply touches_mergeLoop in H as [Hg Hf].
  destruct (closeAll_same (r0 :: readers) w1) as [-> ->]. auto.
Qed.

End MergeReads.

(** Whatever it returns, [mergeChunks] leaves every file as it found it
    and makes no call of the generator, when nothing else changes the
    storage meanwhile. *)
Theorem mergeChunks_reads_only (env : Env) (m : manifest) (verbose : bool)
    (logInterval : Z) (w w' : World) (r : outcome (Z * Z)) :
  (forall t f, disturb env t f = f) ->
  mergeChunks env m verbose logInterval w = (r, w') ->
  files w' = files w /\ genCalls w' = genCalls w.
Proof.
  intros undisturbed H.
  apply (touches_mergeChunks env undisturbed) in H as [Hg Hf].
  split; [|exact Hg]. apply map_eq. intros p. apply Hf. intros [].
Qed.

Lemma mergeChunks_reads_only_witness :
  files (snd (mergeChunks (scriptedEnv [] (listHeap false)) tieManifest false 0
                tieWorld))
  = files tieWorld
  /\ genCalls (snd (mergeChunks (scriptedEnv [] (listHeap false)) tieManifest
                      false 0 tieWorld))
     = genCalls tieWorld.
Proof.
  exact (mergeChunks_reads_only (scriptedEnv [] (listHeap false)) tieManifest
           false 0 tieWorld _ _ (fun _ _ => eq_refl) (surjective_pairing _)).
Defined.

(** ** The manifest a run leaves *)

Section Manifest.
Variable env : Env.
Hypothesis undisturbed : forall t f, disturb env t f = f.

Lemma saveManifest_Ok (dir : string) (m : manifest) (w w' : World) (u : unit) :
  saveManifest env dir m w = (Ok u, w') ->
  manifestSaved env dir m (files w').
Proof.
  unfold saveManifest. destruct (jsonMarshal env m) as [data|] eqn:Hdata;
    [|discriminate].
  intros H. exists data. split; [exact Hdata|]. revert H.
  unfold osWriteFile, osRename, bind, io.
  destruct (io_fault env (clock w)); [discriminate|]. simpl.
  destruct (io_fault env _); [discriminate|]. simpl.
  rewrite !undisturbed, lookup_insert_eq.
  destruct (io_fault env _); [discriminate|]. simpl.
  intros [= _ <-]. simpl. rewrite ?undisturbed.
  destruct manifest_names_proper as (Hm1 & Hm2 & Hm3).
  assert (H1 : pathJoin dir "manifest.json.sha256" <> pathJoin dir "manifest.json").
  { intros H. apply pathJoin_inj in H; [discriminate|assumption..]. }
  assert (H2 : pathJoin dir "manifest.json.sha256" <> pathJoin dir "manifest.json.tmp").
  { intros H. apply pathJoin_inj in H; [discriminate|assumption..]. }
  assert (H3 : pathJoin dir "manifest.json" <> pathJoin dir "manifest.json.tmp").
  { intros H. apply pathJoin_inj in H; [discriminate|assumption..]. }
  split; [|split].
  - rewrite lookup_insert_ne by exact H1. apply lookup_insert_eq.
  - apply lookup_insert_eq.
  - rewrite lookup_insert_ne by exact H2.
    rewrite lookup_insert_ne by exact H3. apply lookup_delete_eq.
Qed.

Lemma chunkLoop_manifest (scheme : string) (cfg : Config) (gen : Generator)
    (tempDir : string) (fuel : nat) :
  forall st w st' w',
    chunkLoop env fuel scheme cfg gen tempDir st w = (Ok st', w') ->
    (st' = st /\ w' = w) \/ manifestSaved env tempDir (man st') (files w').
Proof.
  induction fuel as [|fuel IH]; intros st w st' w' H; [discriminate|].
  apply chunkLoop_unroll in H as [(_ & -> & ->)|(_ & H)]; [now left|].
  cbv zeta in H.
  destruct H as (_ & w1 & w2 & chunkIDs & w3 & w4 & w5 & size & w6 & w7 & w8
                 & _ & _ & _ & _ & _ & _ & Hsave & Hf8 & _ & Hloop).
  right. apply IH in Hloop as [[-> ->]|Hsaved]; [|exact Hsaved].
  simpl. rewrite Hf8. eapply saveManifest_Ok; eauto.
Qed.

End Manifest.

(** A run that returns a result and keeps its data leaves, at the
    [ManifestPath] of the result, the serialisation of a manifest that
    lists as many chunks as the result reports and whose counts add up to
    the result's; beside it the hex digest of exactly these bytes, and no
    temporary file; and every chunk the manifest lists is in storage, with
    bytes that hash to the recorded hash. *)
Theorem kept_manifest_is_final (env : Env) (fuel : nat) (scheme : string)
    (cfg : Config) (w w' : World) (res : Result) :
  (forall t f, disturb env t f = f) ->
  KeepTempData cfg = true ->
  0 < Scale cfg < 2 ^ 63 ->
  0 < ChunkSize cfg ->
  runScheme env fuel scheme cfg w = (Ok res, w') ->
  exists m,
    manifestSaved env (OutputDir res) m (files w')
    /\ ManifestPath res = pathJoin (OutputDir res) "manifest.json"
    /\ Chunks res = Z.of_nat (length (manChunks m))
    /\ sumOriginalCount (manChunks m) = Generated res
    /\ sumUniqueCount (manChunks m) = ChunkUnique res
    /\ Forall (chunkIntact env (files w')) (manChunks m).
Proof.
  intros undisturbed Hkeep Hscale Hsize H.
  pose proof (runScheme_Ok_slash _ _ _ _ _ _ _ H) as Hslash.
  apply runScheme_Ok_calls in H
    as (gen & tempDir & st & w1 & w2 & w3 & Hgen & Hg1 & Hloop & Htail & ->).
  unfold cleanup. rewrite Hkeep. unfold id.
  pose proof (verifyAndMerge_result _ _ _ _ _ _ _ _ Htail) as (_ & Hn & -> & Hmp).
  pose proof (initialLoopState_inv scheme cfg ltac:(lia)) as Hinit.
  assert (Hpi0 : pipelineInv env scheme gen tempDir (genCalls w1)
                   (initialLoopState scheme cfg) w1 []).
  { constructor; simpl; try lia.
    - constructor.
    - intros i ch Hch. now rewrite lookup_nil in Hch.
    - now rewrite Nat.sub_diag. }
  destruct (chunkLoop_pipeline env undisturbed scheme cfg gen tempDir (genCalls w1)
              ltac:(lia) Hsize Hslash fuel _ _ _ _ _ Hinit Hpi0 Hloop)
    as (batches & [Hchunks _ _ _ _ _ _] & (_ & _ & Hsu & Hso) & Htg).
  pose proof (chunkLoop_manifest env undisturbed _ _ _ _ _ _ _ _ _ Hloop)
    as [[-> _]|Hsaved].
  { simpl in Htg. lia. }
  apply verifyAndMerge_Ok in Htail as (w0 & Hver & Hmerge & _ & Hcu & Hgn).
  apply (touches_verifyChunks env _ undisturbed) in Hver as [_ Hf0].
  apply (touches_mergeChunks env undisturbed) in Hmerge as [_ Hf3].
  assert (Hfiles : files w3 = files w2).
  { apply map_eq. intros p. rewrite Hf3, Hf0; auto; intros []. }
  rewrite Hfiles. exists (man st). repeat split; auto; try congruence.
  apply Forall_forall. intros ch Hch.
  apply list_elem_of_lookup in Hch as [i Hch].
  destruct (Forall2_lookup_l _ _ _ _ _ Hchunks Hch) as (b & _ & Hfile & Hhash).
  exists (chunkBytes (chunkOf b)). split; [exact Hfile|].
  rewrite Hhash. symmetry. apply hashStrings_bytes.
Qed.

Lemma kept_manifest_is_final_witness :
  exists m,
    manifestSaved (scriptedEnv scenarioIds (listHeap false))
      (OutputDir scenarioResult) m (files (snd scenarioRun))
    /\ ManifestPath scenarioResult = pathJoin (OutputDir scenarioResult) "manifest.json"
    /\ Chunks scenarioResult = Z.of_nat (length (manChunks m))
    /\ sumOriginalCount (manChunks m) = Generated scenarioResult
    /\ sumUniqueCount (manChunks m) = ChunkUnique scenarioResult
    /\ Forall (chunkIntact (scriptedEnv scenarioIds (listHeap false))
                 (files (snd scenarioRun))) (manChunks m).
Proof.
  assert (H1 : 0 < Scale (scriptedConfig "ulid" 10 4) < 2 ^ 63) by (simpl; lia).
  assert (H2 : 0 < ChunkSize (scriptedConfig "ulid" 10 4)) by (simpl; lia).
  exact (kept_manifest_is_final (scriptedEnv scenarioIds (listHeap false)) 11%nat
           "ulid"%string (scriptedConfig "ulid" 10 4) initialWorld
           (snd scenarioRun) scenarioResult (fun _ _ => eq_refl) eq_refl
           H1 H2 scenarioRun_eq).
Defined.

(** ** Reading back a chunk file *)

(** A chunk written by [writeChunkFile] is read back by a cursor value
    for value: [newChunkReader] stands on the first value written, and
    what its scanner has still to deliver are the remaining values, in
    the order written; for an empty chunk the cursor is at its end at
    once.  The values must be ones a line-oriented file gives back. *)
Theorem chunk_file_reads_back (env : Env) (path : string) (values : list string)
    (w w1 : World) :
  quiet env ->
  Forall lineSafe values ->
  writeChunkFile env path values w = (Ok tt, w1) ->
  exists r w2,
    newChunkReader env (chunkAt path) w1 = (Ok r, w2)
    /\ files w2 = files w1
    /\ readerRecords r = values.
Proof.
  intros Hq Hsafe Hwrite.
  apply (writeChunkFile_Ok env (quiet_storage env Hq)) in Hwrite.
  destruct (newChunkReader_quiet env Hq (chunkAt path) _ values w1 Hwrite
              (fileRecords_chunkBytes values Hsafe)) as (r & w2 & Hopen & Hf & Hr).
  exists r, w2. split; [exact Hopen|]. split; [exact Hf|].
  unfold readerRecords. destruct values as [|v rest].
  - now rewrite Hr.
  - destruct Hr as (He & rest' & [= -> <-] & Hrest). now rewrite He, Hrest.
Qed.

Lemma tie_chunk_written :
  writeChunkFile (scriptedEnv [] (listHeap false)) "a.dat" ["X"; "Y"]%string
    initialWorld
  = (Ok tt,
     snd (writeChunkFile (scriptedEnv [] (listHeap false)) "a.dat"
            ["X"; "Y"]%string initialWorld)).
Proof. vm_compute. reflexivity. Qed.

Lemma tie_chunk_lineSafe : Forall lineSafe ["X"; "Y"]%string.
Proof. repeat constructor. Qed.

Lemma chunk_file_reads_back_witness :
  exists r w2,
    newChunkReader (scriptedEnv [] (listHeap false)) (chunkAt "a.dat")
      (snd (writeChunkFile (scriptedEnv [] (listHeap false)) "a.dat"
              ["X"; "Y"]%string initialWorld))
    = (Ok r, w2)
    /\ files w2
       = files (snd (writeChunkFile (scriptedEnv [] (listHeap false)) "a.dat"
                       ["X"; "Y"]%string initialWorld))
    /\ readerRecords r = ["X"; "Y"]%string.
Proof.
  exact (chunk_file_reads_back (scriptedEnv [] (listHeap false)) "a.dat"
           ["X"; "Y"]%string initialWorld _ (scriptedEnv_quiet _ _)
           tie_chunk_lineSafe tie_chunk_written).
Defined.

(** ** The encoder of [GenerateCustomUID] *)

Lemma lor_disjoint_add (a b n : Z) :
  0 <= n -> 0 <= b < 2 ^ n -> Z.lor (a * 2 ^ n) b = a * 2 ^ n + b.
Proof.
  intros Hn Hb. rewrite <- Z.shiftl_mul_pow2 by exact Hn.
  assert (Hland : Z.land (Z.shiftl a n) b = 0).
  { destruct (Z.eq_dec b 0) as [->|Hb0]; [apply Z.land_0_r|].
    apply Z.bits_inj'. intros i Hi. rewrite Z.land_spec, Z.bits_0.
    destruct (Z.lt_ge_cases i n) as [Hlt|Hge].
    - now rewrite Z.shiftl_spec_low by exact Hlt.
    - rewrite (Z.bits_above_log2 b i); [apply andb_false_r|lia|].
      assert (Z.log2 b < n) by (apply Z.log2_lt_pow2; lia). lia. }
  rewrite <- Z.lxor_lor by exact Hland. symmetry.
  now apply Z.add_nocarry_lxor.
Qed.

Lemma mask_ones (k : Z) :
  0 <= k < 64 ->
  CustomUID.uint 64 (CustomUID.uint 64 (Z.shiftl 1 k) - 1) = Z.ones k.
Proof.
  intros Hk. unfold CustomUID.uint. rewrite Z.shiftl_1_l, Z.ones_equiv.
  assert (H : 0 < 2 ^ k < 2 ^ 64).
  { split; [apply Z.pow_pos_nonneg; lia|apply Z.pow_lt_mono_r; lia]. }
  rewrite (Z.mod_small (2 ^ k)) by lia. rewrite Z.mod_small by lia. lia.
Qed.

Lemma digitsChars_snoc (n : nat) (w d : Z) :
  0 <= w -> 0 <= d < 32 ->
  CustomUID.digitsChars (S n) (w * 32 + d)
  = CustomUID.digitsChars n w ++ [CustomUID.byteAt CustomUID.base32Chars d].
Proof.
  intros Hw Hd. unfold CustomUID.digitsChars.
  replace (S n) with (n + 1)%nat by lia. rewrite seq_app, fmap_app. f_equal.
  - apply list_fmap_ext. intros i j Hj. apply lookup_seq in Hj as [-> Hlt].
    simpl. f_equal.
    replace (Z.of_nat (n + 1 - 1 - i)) with (Z.of_nat (n - 1 - i) + 1) by lia.
    assert (Hp : 0 < 32 ^ Z.of_nat (n - 1 - i)) by (apply Z.pow_pos_nonneg; lia).
    rewrite Z.pow_add_r, Z.pow_1_r by lia.
    rewrite (Z.mul_comm (32 ^ _) 32), <- Z.div_div by lia.
    rewrite Z.div_add_l, (Z.div_small d) by lia. now rewrite Z.add_0_r.
  - simpl. replace (n + 1 - 1 - n)%nat with 0%nat by lia.
    simpl. rewrite Z.div_1_r. f_equal. f_equal.
    rewrite Z.add_comm, Z.mod_add by lia. apply Z.mod_small. lia.
Qed.

Lemma drain_spec (fuel : nat) :
  forall e w,
    CustomUID.encoderInv e w ->
    CustomUID.bitsInBuffer e < 5 * Z.of_nat fuel + 5 ->
    CustomUID.bitsInBuffer e <= 64 ->
    (5 * Z.of_nat (CustomUID.pos e) + CustomUID.bitsInBuffer e <= 80) ->
    exists w',
      CustomUID.encoderInv (CustomUID.drain fuel e) w'
      /\ CustomUID.encoderValue (CustomUID.drain fuel e) w'
         = CustomUID.encoderValue e w
      /\ CustomUID.bitsInBuffer (CustomUID.drain fuel e) < 5
      /\ 5 * Z.of_nat (CustomUID.pos (CustomUID.drain fuel e))
         + CustomUID.bitsInBuffer (CustomUID.drain fuel e)
         = 5 * Z.of_nat (CustomUID.pos e) + CustomUID.bitsInBuffer e.
Proof.
  induction fuel as [|fuel IH]; intros e w Hinv Hfuel H64 H80.
  { exists w. simpl. split; [exact Hinv|]. split; [reflexivity|]. lia. }
  simpl. destruct (Z.geb_spec (CustomUID.bitsInBuffer e) 5) as [Hge|Hlt].
  2:{ exists w. split; [exact Hinv|]. split; [reflexivity|]. lia. }
  destruct Hinv as [Hbits Hbuf Hw Hlen Hres Hok].
  set (bits' := CustomUID.bitsInBuffer e - 5) in *.
  assert (Hp : 0 < 2 ^ bits') by (apply Z.pow_pos_nonneg; lia).
  assert (Hsplit : 2 ^ CustomUID.bitsInBuffer e = 32 * 2 ^ bits').
  { replace (CustomUID.bitsInBuffer e) with (5 + bits') by (unfold bits'; lia).
    rewrite Z.pow_add_r by lia. reflexivity. }
  set (index := Z.land (Z.shiftr (CustomUID.buffer e) bits') 31).
  assert (Hindex : index = CustomUID.buffer e / 2 ^ bits' /\ 0 <= index < 32).
  { unfold index. rewrite Z.shiftr_div_pow2 by lia.
    change 31 with (Z.ones 5). rewrite Z.land_ones by lia.
    assert (0 <= CustomUID.buffer e / 2 ^ bits' < 32).
    { split; [apply Z.div_pos; lia|apply Z.div_lt_upper_bound; lia]. }
    rewrite Z.mod_small by (simpl; lia). auto. }
  destruct Hindex as [Hidx Hirange].
  destruct (IH (CustomUID.write e (CustomUID.byteAt CustomUID.base32Chars index)
                  (Z.land (CustomUID.buffer e)
                     (CustomUID.uint 64 (CustomUID.uint 64 (Z.shiftl 1 bits') - 1)))
                  bits') (w * 32 + index))
    as (w' & Hinv' & Hval & Hb & Hpos); simpl; try lia.
  - rewrite mask_ones, Z.land_ones by lia.
    constructor; simpl; try lia.
    + apply Z.mod_pos_bound. lia.
    + now rewrite length_insert.
    + rewrite digitsChars_snoc by lia. rewrite <- Hres.
      assert (Hlt : (CustomUID.pos e < length (CustomUID.result e))%nat) by lia.
      rewrite (take_S_r _ _ (CustomUID.byteAt CustomUID.base32Chars index)).
      * f_equal. apply take_insert_ge. lia.
      * now apply list_lookup_insert_eq.
    + rewrite Hok. simpl. apply Nat.leb_gt. lia.
  - exists w'. split; [exact Hinv'|]. split.
    + rewrite Hval. unfold CustomUID.encoderValue. simpl.
      rewrite mask_ones, Z.land_ones by lia. rewrite Hsplit, Hidx.
      pose proof (Z.div_mod (CustomUID.buffer e) (2 ^ bits') ltac:(lia)). nia.
    + split; [exact Hb|]. simpl in Hpos. lia.
Qed.

Lemma feed_spec (e : CustomUID.encoder) (w b : Z) :
  CustomUID.encoderInv e w ->
  CustomUID.bitsInBuffer e < 5 ->
  0 <= b < 256 ->
  5 * Z.of_nat (CustomUID.pos e) + CustomUID.bitsInBuffer e + 8 <= 80 ->
  exists w',
    CustomUID.encoderInv (CustomUID.feed e b) w'
    /\ CustomUID.encoderValue (CustomUID.feed e b) w'
       = CustomUID.encoderValue e w * 256 + b
    /\ CustomUID.bitsInBuffer (CustomUID.feed e b) < 5
    /\ 5 * Z.of_nat (CustomUID.pos (CustomUID.feed e b))
       + CustomUID.bitsInBuffer (CustomUID.feed e b)
       = 5 * Z.of_nat (CustomUID.pos e) + CustomUID.bitsInBuffer e + 8.
Proof.
  intros [Hbits Hbuf Hw Hlen Hres Hok] Hlt Hb H80. unfold CustomUID.feed.
  assert (Hp : 0 < 2 ^ CustomUID.bitsInBuffer e <= 16).
  { split; [apply Z.pow_pos_nonneg; lia|].
    change 16 with (2 ^ 4). apply Z.pow_le_mono_r; lia. }
  assert (Hbuffer :
            CustomUID.uint 64
              (Z.lor (CustomUID.uint 64 (Z.shiftl (CustomUID.buffer e) 8)) b)
            = CustomUID.buffer e * 256 + b).
  { unfold CustomUID.uint. rewrite Z.shiftl_mul_pow2 by lia.
    change (2 ^ 8) with 256. rewrite (Z.mod_small (_ * 256)) by lia.
    change 256 with (2 ^ 8) at 1. rewrite lor_disjoint_add by (simpl; lia).
    change (2 ^ 8) with 256. apply Z.mod_small. lia. }
  rewrite Hbuffer.
  match goal with |- context [CustomUID.drain ?f ?e1] =>
    destruct (drain_spec f e1 w) as (w' & Hinv' & Hval & Hb' & Hpos) end; simpl;
    try lia.
  - constructor; simpl; auto; try lia.
    rewrite Z.pow_add_r by lia. change (2 ^ 8) with 256. lia.
  - exists w'. split; [exact Hinv'|]. split; [|split; [exact Hb'|simpl in Hpos; lia]].
    rewrite Hval. unfold CustomUID.encoderValue. simpl.
    rewrite Z.pow_add_r by lia. change (2 ^ 8) with 256. lia.
Qed.

Lemma fold_feed_spec (data : list Z) :
  forall e w,
    CustomUID.encoderInv e w ->
    CustomUID.bitsInBuffer e < 5 ->
    Forall (fun b => 0 <= b < 256) data ->
    5 * Z.of_nat (CustomUID.pos e) + CustomUID.bitsInBuffer e
    + 8 * Z.of_nat (length data) <= 80 ->
    exists w',
      CustomUID.encoderInv (fold_left CustomUID.feed data e) w'
      /\ CustomUID.encoderValue (fold_left CustomUID.feed data e) w'
         = fold_left (fun acc b => acc * 256 + b) data (CustomUID.encoderValue e w)
      /\ CustomUID.bitsInBuffer (fold_left CustomUID.feed data e) < 5
      /\ 5 * Z.of_nat (CustomUID.pos (fold_left CustomUID.feed data e))
         + CustomUID.bitsInBuffer (fold_left CustomUID.feed data e)
         = 5 * Z.of_nat (CustomUID.pos e) + CustomUID.bitsInBuffer e
           + 8 * Z.of_nat (length data).
Proof.
  induction data as [|b data IH]; intros e w Hinv Hlt Hbytes H80; simpl in *.
  { exists w. split; [exact Hinv|]. split; [reflexivity|]. lia. }
  inversion Hbytes as [|? ? Hb Hrest]; subst.
  destruct (feed_spec e w b Hinv Hlt Hb ltac:(lia)) as (w1 & Hinv1 & Hval1 & Hb1 & Hpos1).
  destruct (IH _ w1 Hinv1 Hb1 Hrest ltac:(lia)) as (w' & Hinv' & Hval' & Hb' & Hpos').
  exists w'. split; [exact Hinv'|]. split; [|split; [exact Hb'|lia]].
  now rewrite Hval', Hval1.
Qed.

(** [encodeBase32_16] writes the sixteen base-32 digits of the number its
    ten bytes are in big-endian order, most significant digit first, in
    the alphabet [base32Chars]; bytes after the tenth are ignored. *)
Theorem encodeBase32_16_digits (data : list Z) :
  (10 <= length data)%nat ->
  Forall (fun b => 0 <= b < 256) (take 10 data) ->
  CustomUID.encodeBase32_16 data
  = Some (string_of_list_ascii
            (CustomUID.digitsChars 16 (CustomUID.beValue (take 10 data)))).
Proof.
  intros Hlen Hbytes. unfold CustomUID.encodeBase32_16.
  destruct (Nat.ltb_spec (length data) 10) as [Hlt|_]; [lia|]. cbv zeta.
  assert (Hinit : CustomUID.encoderInv CustomUID.newEncoder 0).
  { constructor; simpl; try lia. reflexivity. }
  destruct (fold_feed_spec (take 10 data) CustomUID.newEncoder 0 Hinit
              ltac:(simpl; lia) Hbytes) as (w & [Hb0 Hbuf Hw Hl Hres Hok] & Hval & Hb & Hpos).
  { rewrite length_take. cbn [CustomUID.newEncoder CustomUID.pos CustomUID.bitsInBuffer]. lia. }
  rewrite length_take in Hpos.
  cbn [CustomUID.newEncoder CustomUID.pos CustomUID.bitsInBuffer] in Hpos.
  set (e := fold_left CustomUID.feed (take 10 data) CustomUID.newEncoder) in *.
  assert (Hbits : CustomUID.bitsInBuffer e = 0) by lia.
  assert (Hp : CustomUID.pos e = 16%nat) by lia.
  assert (Hw' : w = CustomUID.beValue (take 10 data)).
  { unfold CustomUID.encoderValue in Hval. rewrite Hbits in Hval, Hbuf.
    cbn [CustomUID.newEncoder CustomUID.buffer CustomUID.bitsInBuffer] in Hval.
    change (2 ^ 0) with 1 in *. unfold CustomUID.beValue.
    replace (0 * 1 + 0) with 0 in Hval by lia. lia. }
  rewrite Hbits. change (0 >? 0) with false. cbv iota.
  rewrite Hok, Hp in *. now rewrite Hres, Hw'.
Qed.

Lemma encodeBase32_16_digits_witness :
  CustomUID.encodeBase32_16 [0; 1; 2; 3; 4; 5; 6; 7; 8; 9; 10]
  = Some (string_of_list_ascii
            (CustomUID.digitsChars 16
               (CustomUID.beValue (take 10 [0; 1; 2; 3; 4; 5; 6; 7; 8; 9; 10])))).
Proof.
  apply encodeBase32_16_digits.
  - simpl. lia.
  - repeat constructor; lia.
Defined.

(** the identifier of the bytes 0 to 9 *)
Example encodeBase32_16_of_ten_bytes :
  CustomUID.encodeBase32_16 [0; 1; 2; 3; 4; 5; 6; 7; 8; 9]
  = Some "000G40R40M30E209"%string
  /\ CustomUID.encodeBase32_16 [0; 1; 2; 3; 4; 5; 6; 7; 8] = None.
Proof. split; vm_compute; reflexivity. Qed.

(** * The gate, the configuration and the guard *)

(** ** C4: the verification gate *)

Lemma nm_schemeDir (env : Env) (scheme : string) (cfg : Config) :
  emitsOnly notMergeBegin (schemeDir env scheme cfg).
Proof.
  unfold schemeDir. apply emitsOnly_bind; [|intros; apply nm_osMkdirTemp].
  destruct (String.eqb (TempDir cfg) ""); [|apply emitsOnly_ret].
  apply emitsOnly_bind; [apply emitsOnly_osGetwd|]. intros cwd.
  apply emitsOnly_bind; [|intros _; apply emitsOnly_ret].
  apply emitsOnly_osMkdirAll. intros. discriminate.
Qed.

Lemma nm_cleanup (env : Env) (cfg : Config) (tempDir : string) (w : World) :
  extends notMergeBegin (trace w) (trace (cleanup env cfg tempDir w)).
Proof.
  unfold cleanup. destruct (KeepTempData cfg); [apply extends_refl|].
  apply nm_osRemoveAll.
Qed.

(** a scheme run either never enters the merge, or it has passed the
    verification of the manifest its chunk loop left *)
Lemma runScheme_verified (env : Env) (fuel : nat) (scheme : string) (cfg : Config)
    (w w' : World) (r : outcome Result) :
  runScheme env fuel scheme cfg w = (r, w') ->
  extends notMergeBegin (trace w) (trace w')
  \/ exists gen tempDir st w0 w1 w2 w3,
       generatorFor env scheme = Ok gen
       /\ schemeDir env scheme cfg w = (Ok tempDir, w0)
       /\ ensureDisk env tempDir (mul64 (Scale cfg) (ApproxBytesPerID cfg))
            (DiskSafetyFactor cfg) w0 = (Ok tt, w1)
       /\ chunkLoop env fuel scheme cfg gen tempDir (initialLoopState scheme cfg) w1
          = (Ok st, w2)
       /\ verifyChunks env (man st) w2 = (Ok tt, w3)
       /\ extends notMergeBegin (trace w) (trace w3).
Proof.
  destruct (generatorFor env scheme) as [gen|e| |] eqn:Hgen.
  2-4: unfold runScheme; rewrite Hgen; intros [= <- <-]; left; apply extends_refl.
  rewrite (runScheme_shape _ _ _ _ _ _ Hgen). intros H.
  apply bind_split in H as [(tempDir & w0 & Hdir & H)|(ra & Hdir & _)].
  2:{ left. eapply nm_schemeDir; eauto. }
  pose proof (nm_schemeDir _ _ _ _ _ _ Hdir) as E0.
  apply defer_inv in H as (wb & H & ->). unfold schemeBody in H.
  apply bind_split in H as [(u & w1 & Hdisk & H)|(ra & Hdisk & _)].
  2:{ left. eapply extends_trans; [|apply nm_cleanup].
      eapply extends_trans; [exact E0|]. eapply nm_ensureDisk; eauto. }
  destruct u.
  pose proof (extends_trans _ _ _ _ E0 (nm_ensureDisk _ _ _ _ _ _ _ Hdisk)) as E1.
  apply bind_split in H as [(st & w2 & Hloop & H)|(ra & Hloop & _)].
  2:{ left. eapply extends_trans; [|apply nm_cleanup].
      eapply extends_trans; [exact E1|]. eapply nm_chunkLoop; eauto. }
  pose proof (extends_trans _ _ _ _ E1 (nm_chunkLoop _ _ _ _ _ _ _ _ _ _ Hloop)) as E2.
  unfold verifyAndMerge in H.
  apply bind_split in H as [(u & w3 & Hver & H)|(ra & Hver & _)].
  - destruct u. right. exists gen, tempDir, st, w0, w1, w2, w3.
    split; [reflexivity|]. split; [exact Hdir|]. split; [exact Hdisk|].
    split; [exact Hloop|]. split; [exact Hver|].
    eapply extends_trans; [exact E2|]. eapply nm_verifyChunks; eauto.
  - left. eapply extends_trans; [|apply nm_cleanup].
    eapply extends_trans; [exact E2|]. eapply nm_verifyChunks; eauto.
Qed.

(** an error of the verification is the error of the scheme run *)
Lemma runScheme_verification_error (env : Env) (fuel : nat) (scheme : string)
    (cfg : Config) (gen : Generator) (tempDir : string) (st : loopState)
    (w w0 w1 w2 w3 : World) (e : error) :
  generatorFor env scheme = Ok gen ->
  schemeDir env scheme cfg w = (Ok tempDir, w0) ->
  ensureDisk env tempDir (mul64 (Scale cfg) (ApproxBytesPerID cfg))
    (DiskSafetyFactor cfg) w0 = (Ok tt, w1) ->
  chunkLoop env fuel scheme cfg gen tempDir (initialLoopState scheme cfg) w1
  = (Ok st, w2) ->
  verifyChunks env (man st) w2 = (Err e, w3) ->
  runScheme env fuel scheme cfg w = (Err e, cleanup env cfg tempDir w3)
  /\ extends notMergeBegin (trace w) (trace (cleanup env cfg tempDir w3)).
Proof.
  intros Hgen Hdir Hdisk Hloop Hver. split.
  - rewrite (runScheme_shape _ _ _ _ _ _ Hgen). unfold bind at 1. rewrite Hdir.
    unfold defer, schemeBody. unfold bind at 1. rewrite Hdisk.
    unfold bind at 1. rewrite Hloop. unfold verifyAndMerge. unfold bind at 1.
    now rewrite Hver.
  - eapply extends_trans; [|apply nm_cleanup].
    eapply extends_trans; [eapply nm_schemeDir; eauto|].
    eapply extends_trans; [eapply nm_ensureDisk; eauto|].
    eapply extends_trans; [eapply nm_chunkLoop; eauto|].
    eapply nm_verifyChunks; eauto.
Qed.

(** C4. In every scheme run the merge stands behind the verification.
    A run whose events include the entry into [mergeChunks] has created
    its directory, passed the disk guard, ended its chunk loop without
    error and then passed [verifyChunks] on the manifest the loop left,
    and up to the end of that verification the merge had not been
    entered; with storage left alone, every chunk record of that
    manifest then names a file whose bytes hash to the recorded hash.
    When [verifyChunks] returns an error, the run returns that error
    and has not entered the merge.  And with storage left alone
    [verifyChunks] returns an error as soon as the bytes of one chunk
    record do not hash to the recorded hash. *)
Theorem verification_gates_merge (env : Env) (fuel : nat) (scheme : string)
    (cfg : Config) (w : World) :
  (forall r w' evs,
      runScheme env fuel scheme cfg w = (r, w') ->
      trace w' = evs ++ trace w ->
      EvMergeBegin ∈ evs ->
      exists gen tempDir st w0 w1 w2 w3,
        generatorFor env scheme = Ok gen
        /\ schemeDir env scheme cfg w = (Ok tempDir, w0)
        /\ ensureDisk env tempDir (mul64 (Scale cfg) (ApproxBytesPerID cfg))
             (DiskSafetyFactor cfg) w0 = (Ok tt, w1)
        /\ chunkLoop env fuel scheme cfg gen tempDir (initialLoopState scheme cfg) w1
           = (Ok st, w2)
        /\ verifyChunks env (man st) w2 = (Ok tt, w3)
        /\ extends notMergeBegin (trace w) (trace w3)
        /\ (calmStorage env ->
            Forall (chunkIntact env (files w2)) (manChunks (man st))))
  /\ (forall gen tempDir st w0 w1 w2 w3 e,
        generatorFor env scheme = Ok gen ->
        schemeDir env scheme cfg w = (Ok tempDir, w0) ->
        ensureDisk env tempDir (mul64 (Scale cfg) (ApproxBytesPerID cfg))
          (DiskSafetyFactor cfg) w0 = (Ok tt, w1) ->
        chunkLoop env fuel scheme cfg gen tempDir (initialLoopState scheme cfg) w1
        = (Ok st, w2) ->
        verifyChunks env (man st) w2 = (Err e, w3) ->
        runScheme env fuel scheme cfg w = (Err e, cleanup env cfg tempDir w3)
        /\ extends notMergeBegin (trace w) (trace (cleanup env cfg tempDir w3)))
  /\ (forall m w2 r w3,
        calmStorage env ->
        verifyChunks env m w2 = (r, w3) ->
        ~ Forall (chunkIntact env (files w2)) (manChunks m) ->
        exists before ch after e,
          r = Err e
          /\ manChunks m = before ++ ch :: after
          /\ Forall (chunkIntact env (files w2)) before
          /\ verifyFault env (files w2) ch e).
Proof.
  split; [|split].
  - intros r w' evs H Htr Hin.
    apply runScheme_verified in H as [Hquiet|Hgate].
    { rewrite Htr in Hquiet. exfalso.
      eapply (extends_absent _ _ _ EvMergeBegin Hquiet); [|exact Hin].
      unfold notMergeBegin. tauto. }
    destruct Hgate as (gen & tempDir & st & w0 & w1 & w2 & w3
                       & Hgen & Hdir & Hdisk & Hloop & Hver & Hext).
    exists gen, tempDir, st, w0, w1, w2, w3.
    split; [exact Hgen|]. split; [exact Hdir|]. split; [exact Hdisk|].
    split; [exact Hloop|]. split; [exact Hver|]. split; [exact Hext|].
    intros Hcalm. exact (proj2 (verifyChunks_calm _ _ _ _ _ Hcalm Hver)).
  - intros. eapply runScheme_verification_error; eauto.
  - intros m w2 r w3 Hcalm Hver Hbad.
    destruct (verifyChunks_calm _ _ _ _ _ Hcalm Hver) as [_ Hr].
    destruct r as [u|e| |]; try contradiction.
    destruct Hr as (before & ch & after & H1 & H2 & H3).
    exists before, ch, after, e. auto.
Qed.

Lemma verification_gates_merge_witness :
  exists gen tempDir st w0 w1 w2 w3,
    let env := scriptedEnv scenarioIds (listHeap false) in
    let cfg := scriptedConfig "ulid" 10 4 in
    generatorFor env "ulid" = Ok gen
    /\ schemeDir env "ulid" cfg initialWorld = (Ok tempDir, w0)
    /\ ensureDisk env tempDir (mul64 (Scale cfg) (ApproxBytesPerID cfg))
         (DiskSafetyFactor cfg) w0 = (Ok tt, w1)
    /\ chunkLoop env 11 "ulid" cfg gen tempDir (initialLoopState "ulid" cfg) w1
       = (Ok st, w2)
    /\ verifyChunks env (man st) w2 = (Ok tt, w3)
    /\ extends notMergeBegin (trace initialWorld) (trace w3)
    /\ (calmStorage env ->
        Forall (chunkIntact env (files w2)) (manChunks (man st))).
Proof.
  exact (proj1 (verification_gates_merge (scriptedEnv scenarioIds (listHeap false))
                  11%nat "ulid"%string (scriptedConfig "ulid" 10 4) initialWorld)
           (Ok scenarioResult) (snd scenarioRun) (trace (snd scenarioRun))
           scenarioRun_eq (eq_sym (app_nil_r _))
           (existsb_isMergeBegin _ scenario_enters_merge)).
Defined.

(** A chunk file overwritten from outside after the chunk loop has ended:
    the run ends with the mismatch and never enters the merge. *)
Example corrupted_chunk_stops_run :
  fst corruptedRun
  = Err (ErrVerifyMismatch "/tmp/uidstress-ulid-0001/ulid-chunk-00000.dat"
           "310a330a350a" "6a756e6b")
  /\ existsb isMergeBegin (trace (snd corruptedRun)) = false.
Proof. split; vm_compute; reflexivity. Qed.

(** ** C7: errors of the configuration *)

Lemma generatorFor_error (env : Env) (name : string) (e : error) :
  generatorFor env name = Err e -> e = ErrUnknownScheme name.
Proof.
  unfold generatorFor.
  repeat (destruct (_ || _) || destruct (String.eqb _ _)); congruence.
Qed.

(** C7 (amended). A scale that is not positive makes [Run] return an
    error at once, with nothing touched.  A scheme name [generatorFor]
    does not know makes [runScheme] return the error for that name with
    nothing touched: no directory created, no identifier generated, no
    file written; in [Run] this happens when the turn of that scheme
    comes, after the schemes listed before it have run.  A chunk size
    that is not positive or exceeds the scale is no error: [Run] goes on
    with min(scale, 1000000) in its place. *)
Theorem Run_configuration_errors (env : Env) (cfg : Config) (w : World) :
  (Scale cfg <= 0 -> Run env cfg w = (Err ErrScale, w))
  /\ (forall fuel scheme e,
        generatorFor env scheme = Err e ->
        e = ErrUnknownScheme scheme
        /\ runScheme env fuel scheme cfg w = (Err e, w))
  /\ (forall good bad rest rs rs' w1 e,
        runSchemes env good cfg rs w = (Ok rs', w1) ->
        ctx_done env (clock w1) = false ->
        generatorFor env bad = Err e ->
        runSchemes env (good ++ bad :: rest) cfg rs w
        = (Err e, emit (EvPoll false) (tick env w1)))
  /\ (ChunkSize cfg <= 0 \/ ChunkSize cfg > Scale cfg ->
      Run env cfg w = Run env (withChunkSize (minInt64 (Scale cfg) 1000000) cfg) w).
Proof.
  split; [apply Run_scale_error|]. split; [|split].
  - intros fuel scheme e He. split; [exact (generatorFor_error env _ _ He)|].
    unfold runScheme. now rewrite He.
  - intros. eapply runSchemes_unknown_scheme; eauto.
  - apply Run_chunk_size_default.
Qed.

Lemma Run_configuration_errors_witness :
  Run (scriptedEnv [] (listHeap false)) (scriptedConfig "ulid" 0 4) initialWorld
  = (Err ErrScale, initialWorld).
Proof.
  assert (H : Scale (scriptedConfig "ulid" 0 4) <= 0) by (simpl; lia).
  exact (proj1 (Run_configuration_errors (scriptedEnv [] (listHeap false))
                  (scriptedConfig "ulid" 0 4) initialWorld) H).
Defined.

Lemma zeroChunkSizeRun_result :
  fst zeroChunkSizeRun
  = Ok [{| Scheme := "ulid"; Chunks := 1; Generated := 10; ChunkUnique := 7;
           Unique := 7; Duplicates := 0;
           ManifestPath := "/tmp/uidstress-ulid-0001/manifest.json";
           OutputDir := "/tmp/uidstress-ulid-0001" |}].
Proof. vm_compute. reflexivity. Qed.

(** C7 as stated fails for the chunk size: the scenario of the
    specification configured with the chunk size 0 returns a result, all
    ten identifiers generated in one chunk, and no error. *)
Lemma invalid_chunk_size_is_no_error :
  ~ (forall (env : Env) (cfg : Config) (w : World),
        ChunkSize cfg <= 0 ->
        exists e w', Run env cfg w = (Err e, w')).
Proof.
  intros H.
  destruct (H (scriptedEnv scenarioIds (listHeap false))
              (scriptedConfig "ulid" 10 0) initialWorld ltac:(simpl; lia))
    as (e & w' & He).
  pose proof zeroChunkSizeRun_result as Hr. rewrite He in Hr. discriminate Hr.
Qed.

(** ** C8: the memory guard *)

Lemma round_aux_sign (s : bool) (m e : Z) (l : location) :
  F64.hasSign s (binary_round_aux F64.prec F64.emax s m e l).
Proof.
  unfold binary_round_aux.
  destruct (shr_fexp F64.prec F64.emax m e l) as [mrs1 e1].
  destruct (shr_fexp F64.prec F64.emax _ e1 loc_Exact) as [mrs2 e2].
  destruct (shr_m mrs2); [| |destruct s; exact I].
  - destruct s; exact I.
  - destruct (_ <=? _); destruct s; reflexivity.
Qed.

Lemma round_sign (s : bool) (m : positive) (e : Z) :
  F64.hasSign s (binary_round F64.prec F64.emax s m e).
Proof.
  unfold binary_round. destruct (shl_align _ _ _) as [mz ez]. apply round_aux_sign.
Qed.

Lemma ofZ_notNegative (n : Z) : 0 <= n -> F64.notNegative (F64.ofZ n).
Proof.
  intros Hn. unfold F64.ofZ, binary_normalize. destruct n as [|p|p]; [exact I| |lia].
  apply (round_sign false).
Qed.

Lemma div_notNegative (x : F64.t) (m : positive) (e : Z) :
  F64.notNegative x -> F64.notNegative (F64.div x (S754_finite false m e)).
Proof.
  unfold F64.div, SFdiv. destruct x as [s|s| |s mx ex]; simpl; intros Hx; auto.
  - now rewrite Hx.
  - destruct (SFdiv_core_binary _ _ _ _ _ _) as [[mz ez] lz].
    rewrite Hx. apply (round_aux_sign false).
Qed.

Lemma toMB_notNegative (n : Z) : 0 <= n -> F64.notNegative (toMB n).
Proof.
  intros Hn. unfold toMB.
  assert (H : exists m e, f1024 = S754_finite false m e)
    by (do 2 eexists; vm_compute; reflexivity).
  destruct H as (m & e & ->).
  now apply div_notNegative, div_notNegative, ofZ_notNegative.
Qed.

Lemma leb_zero_notPositive (x : F64.t) :
  F64.leb x F64.zero = true -> F64.notPositive x.
Proof.
  unfold F64.leb, SFleb, F64.zero. destruct x as [s|[]| |[] m e]; simpl; auto; discriminate.
Qed.

Lemma eqb_zero_notPositive (x : F64.t) :
  F64.eqb x F64.zero = true -> F64.notPositive x.
Proof.
  unfold F64.eqb, SFeqb, F64.zero. destruct x as [s|[]| |[] m e]; simpl; auto; discriminate.
Qed.

Lemma add_notPositive (x y : F64.t) :
  F64.notPositive x -> F64.notPositive y -> F64.notPositive (F64.add x y).
Proof.
  unfold F64.add, SFadd.
  destruct x as [sx|sx| |sx mx ex]; destruct y as [sy|sy| |sy my ey]; simpl;
    intros Hx Hy; subst; simpl; auto.
  - destruct sx, sy; exact I.
  - apply (round_sign true).
Qed.

Lemma ltb_signs (x y : F64.t) :
  F64.notNegative x -> F64.notPositive y -> F64.ltb x y = false.
Proof.
  unfold F64.ltb, SFltb.
  destruct x as [sx|sx| |sx mx ex]; destruct y as [sy|sy| |sy my ey]; simpl;
    intros Hx Hy; subst; reflexivity.
Qed.

Lemma ensureMemory_refuses (env : Env) (cfg : Config) (chunkTarget available : Z)
    (w : World) :
  mem_available env (clock w) = Some available ->
  0 <= available ->
  F64.ltb (toMB available) (memoryNeededMB cfg chunkTarget) = true ->
  ensureMemory env cfg chunkTarget w
  = (Err (ErrInsufficientMemory chunkTarget), emit EvVirtualMemory (tick env w)).
Proof.
  intros Hmem Hav Hlt. unfold memoryNeededMB in Hlt.
  pose proof (toMB_notNegative _ Hav) as Hpos.
  unfold ensureMemory. cbv zeta.
  destruct (F64.leb _ F64.zero && F64.leb _ F64.zero) eqn:Hskip.
  { apply andb_prop in Hskip as [H1 H2].
    apply leb_zero_notPositive in H1, H2.
    rewrite (ltb_signs _ _ Hpos (add_notPositive _ _ H1 H2)) in Hlt. discriminate. }
  unfold bind, virtualMemory. rewrite Hmem.
  destruct (F64.eqb _ F64.zero) eqn:Hzero.
  { apply eqb_zero_notPositive in Hzero.
    rewrite (ltb_signs _ _ Hpos Hzero) in Hlt. discriminate. }
  now rewrite Hlt.
Qed.

Lemma chunkLoop_refuses (env : Env) (fuel : nat) (scheme : string) (cfg : Config)
    (gen : Generator) (tempDir : string) (st : loopState) (available : Z)
    (w : World) :
  totalGenerated st < Scale cfg ->
  ctx_done env (clock w) = false ->
  let polled := emit (EvPoll false) (tick env w) in
  let chunkTarget := minInt64 (ChunkSize cfg) (sub64 (Scale cfg) (totalGenerated st)) in
  mem_available env (clock polled) = Some available ->
  0 <= available ->
  F64.ltb (toMB available) (memoryNeededMB cfg chunkTarget) = true ->
  chunkLoop env (S fuel) scheme cfg gen tempDir st w
  = (Err (ErrInsufficientMemory chunkTarget), emit EvVirtualMemory (tick env polled)).
Proof.
  intros Hlt Hctx polled chunkTarget Hmem Hav Hshort. simpl.
  apply Z.ltb_lt in Hlt. rewrite Hlt.
  unfold bind at 1, ctxPoll. rewrite Hctx. unfold bind at 1.
  fold polled. fold chunkTarget.
  now rewrite (ensureMemory_refuses env cfg chunkTarget available polled Hmem Hav Hshort).
Qed.

(** an error of the chunk loop is the error of the scheme run *)
Lemma runScheme_loop_error (env : Env) (fuel : nat) (scheme : string)
    (cfg : Config) (gen : Generator) (tempDir : string)
    (w w0 w1 w2 : World) (e : error) :
  generatorFor env scheme = Ok gen ->
  schemeDir env scheme cfg w = (Ok tempDir, w0) ->
  ensureDisk env tempDir (mul64 (Scale cfg) (ApproxBytesPerID cfg))
    (DiskSafetyFactor cfg) w0 = (Ok tt, w1) ->
  chunkLoop env fuel scheme cfg gen tempDir (initialLoopState scheme cfg) w1
  = (Err e, w2) ->
  runScheme env fuel scheme cfg w = (Err e, cleanup env cfg tempDir w2).
Proof.
  intros Hgen Hdir Hdisk Hloop.
  rewrite (runScheme_shape _ _ _ _ _ _ Hgen). unfold bind at 1. rewrite Hdir.
  unfold defer, schemeBody. unfold bind at 1. rewrite Hdisk.
  unfold bind at 1. now rewrite Hloop.
Qed.


Lemma scarce_memory_short :
  F64.ltb (toMB 1024)
    (memoryNeededMB (removingConfig "ulid" 10 4)
       (minInt64 (ChunkSize (removingConfig "ulid" 10 4))
          (sub64 (Scale (removingConfig "ulid" 10 4)) 0)))
  = true.
Proof. vm_compute. reflexivity. Qed.

